(** * IQ-CORE: the placement geometry, the backtracking solver and the level
    generator of [services/gameLogic.ts], embedded and verified.

    JavaScript numbers that the engine handles are integers (grid coordinates,
    quarter-turn angles, level numbers); they are modelled by [Z].  JavaScript
    distinguishes [-0] from [0], and the flip and the rotation below do produce
    [-0]; the two are equal for [===], for [<], for subtraction and for
    [JSON.stringify] (which prints both as the digit zero), the only
    operations the engine applies to coordinates, so [Z] loses nothing.

    A call either returns a value or raises; [outcome] records which.  What
    is raised is a [TypeError] (reading a property of [undefined]), except in
    [generateValidBoard], whose nested retries can use up the call stack of
    the engine: there it is the engine's [RangeError].  The third constructor
    is used by the definitions that carry fuel, for a call that has not
    returned when the fuel is spent.

    The engine draws its randomness from [sort(() => Math.random() - 0.5)],
    in three places: the variations of each piece, the ids handed to the
    solver, and the solution handed to the level.  Each such sort is a
    parameter of the definition that performs it, and the statements assume of
    it only that it returns its argument rearranged. *)

From Stdlib Require Import ZArith List String Ascii Bool Lia Permutation.
From Stdlib Require Import QArith Qround.
From Stdlib Require DecimalString.
From Corelib Require Import PrimFloat.
Import ListNotations.
Open Scope Z_scope.

Inductive outcome (A : Type) : Type :=
| Returns (a : A)
| Throws
| Unfinished.
Arguments Returns {A} a.
Arguments Throws {A}.
Arguments Unfinished {A}.

(** ** types.ts *)

Record Coordinate : Type := mkCoordinate { x : Z; y : Z }.

Record PieceDef : Type := mkPieceDef {
  def_id : string;
  color : string;
  initialShape : list Coordinate
}.

Record PlacedPiece : Type := mkPlacedPiece {
  id : string;
  px : Z;
  py : Z;
  rotation : Z;
  isFlipped : bool;
  isLocked : option bool
}.

Definition Coordinate_eqb (a b : Coordinate) : bool :=
  (x a =? x b) && (y a =? y b).

Definition Coordinate_eq_dec (a b : Coordinate) : {a = b} + {a <> b}.
Proof. decide equality; apply Z.eq_dec. Defined.

(** ** constants.ts *)

Definition GRID_ROWS : Z := 5.
Definition GRID_COLS : Z := 11.

Definition pt (a b : Z) : Coordinate := mkCoordinate a b.

Definition PIECE_DEFINITIONS : list PieceDef :=
  [ mkPieceDef "L" "shadow-[0_0_15px_#ffffff] bg-[#ffffff] border-[#e0e0e0]"
      [pt 0 0; pt 1 0; pt 0 1];
    mkPieceDef "J" "shadow-[0_0_15px_#a855f7] bg-[#a855f7] border-[#d8b4fe]"
      [pt 0 0; pt 1 0; pt 2 0; pt 1 1];
    mkPieceDef "I" "shadow-[0_0_15px_#ec4899] bg-[#ec4899] border-[#fbcfe8]"
      [pt 0 0; pt 1 0; pt 2 0; pt 0 1];
    mkPieceDef "K" "shadow-[0_0_15px_#3b82f6] bg-[#3b82f6] border-[#93c5fd]"
      [pt 0 0; pt 1 0; pt 1 1; pt 2 1];
    mkPieceDef "A" "shadow-[0_0_15px_#ef4444] bg-[#ef4444] border-[#fca5a5]"
      [pt 0 0; pt 1 0; pt 0 1; pt 1 1; pt 0 2];
    mkPieceDef "B" "shadow-[0_0_15px_#f97316] bg-[#f97316] border-[#fdba74]"
      [pt 0 0; pt 0 1; pt 1 1; pt 1 2; pt 2 2];
    mkPieceDef "C" "shadow-[0_0_15px_#eab308] bg-[#eab308] border-[#fde047]"
      [pt 0 0; pt 1 0; pt 0 1; pt 0 2; pt 1 2];
    mkPieceDef "D" "shadow-[0_0_15px_#22c55e] bg-[#22c55e] border-[#86efac]"
      [pt 0 0; pt 1 0; pt 2 0; pt 3 0; pt 0 1];
    mkPieceDef "E" "shadow-[0_0_15px_#06b6d4] bg-[#06b6d4] border-[#67e8f9]"
      [pt 0 0; pt 1 0; pt 2 0; pt 3 0; pt 1 1];
    mkPieceDef "F" "shadow-[0_0_15px_#0ea5e9] bg-[#0ea5e9] border-[#7dd3fc]"
      [pt 0 0; pt 1 0; pt 2 0; pt 0 1; pt 0 2];
    mkPieceDef "G" "shadow-[0_0_15px_#d946ef] bg-[#d946ef] border-[#f0abfc]"
      [pt 1 0; pt 2 0; pt 0 1; pt 1 1; pt 1 2];
    mkPieceDef "H" "shadow-[0_0_15px_#84cc16] bg-[#84cc16] border-[#bef264]"
      [pt 0 0; pt 1 0; pt 1 1; pt 2 1; pt 3 1] ]%string.

(** [PIECE_DEFINITIONS.find((p) => p.id === pieceId)]. *)
Definition findDef (pieceId : string) : option PieceDef :=
  find (fun p => String.eqb (def_id p) pieceId) PIECE_DEFINITIONS.

Definition catalogIds : list string := map def_id PIECE_DEFINITIONS.

(** ** Geometry helpers *)

(** The loop [for (let i = 0; i < times; i++)] of [rotatePoint], run [times]
    times. *)
Fixpoint rotatePoint (point : Coordinate) (times : nat) : Coordinate :=
  match times with
  | O => point
  | S n => rotatePoint (mkCoordinate (- y point) (x point)) n
  end.

(** How often the loop of [rotatePoint] runs when it is handed
    [(rotation % 360) / 90]: the least natural number that is not below that
    quotient.  [%] keeps the sign of [rotation] ([Z.rem]), so a negative
    angle gives no turn at all, and an angle that is no multiple of 90 gives
    the next whole number of turns. *)
Definition rotationCount (rotation : Z) : nat :=
  Z.to_nat ((Z.rem rotation 360 + 89) / 90).

Definition getTransformedCoordinates
    (pieceId : string) (rotation : Z) (isFlipped : bool) : list Coordinate :=
  match findDef pieceId with
  | None => []
  | Some def =>
      let coords :=
        map (fun p => mkCoordinate (if isFlipped then - x p else x p) (y p))
            (initialShape def) in
      map (fun p => rotatePoint p (rotationCount rotation)) coords
  end.

(** ** Board and placement validation *)

(** A board cell holds a piece id or [null]. *)
Definition Board : Type := list (list (option string)).

(** [currentBoard[targetY][targetX] !== null].  A missing row makes the
    second index a property read on [undefined], which raises; a missing
    column reads [undefined], which is not [null]. *)
Definition cellNotNull (board : Board) (targetY targetX : Z) : outcome bool :=
  match nth_error board (Z.to_nat targetY) with
  | None => Throws
  | Some row =>
      match nth_error row (Z.to_nat targetX) with
      | None => Returns true
      | Some None => Returns false
      | Some (Some _) => Returns true
      end
  end.

Definition outOfGrid (targetX targetY : Z) : bool :=
  (targetX <? 0) || (targetX >=? GRID_COLS) || (targetY <? 0) || (targetY >=? GRID_ROWS).

(** The [for (const coord of coords)] loop of [isValidPlacement].
    [currentBoard] is [None] for a falsy argument ([null], [undefined]), which
    the guard [currentBoard && ...] lets through. *)
Fixpoint checkCoords (gridX gridY : Z) (currentBoard : option Board)
    (coords : list Coordinate) : outcome bool :=
  match coords with
  | [] => Returns true
  | coord :: rest =>
      let targetX := gridX + x coord in
      let targetY := gridY + y coord in
      if outOfGrid targetX targetY then Returns false
      else
        match currentBoard with
        | None => checkCoords gridX gridY currentBoard rest
        | Some board =>
            match cellNotNull board targetY targetX with
            | Returns true => Returns false
            | Returns false => checkCoords gridX gridY currentBoard rest
            | Throws => Throws
            | Unfinished => Unfinished
            end
        end
  end.

Definition isValidPlacement (pieceId : string) (gridX gridY rotation : Z)
    (isFlipped : bool) (currentBoard : option Board) : outcome bool :=
  let coords := getTransformedCoordinates pieceId rotation isFlipped in
  checkCoords gridX gridY currentBoard coords.

(** [row[i] = v] on a JavaScript array: an index past the end extends the
    array, the skipped positions reading as [hole]. *)
Fixpoint arraySet {A : Type} (hole : A) (l : list A) (i : nat) (v : A) : list A :=
  match i, l with
  | O, [] => [v]
  | O, _ :: t => v :: t
  | S n, [] => hole :: arraySet hole [] n v
  | S n, h :: t => h :: arraySet hole t n v
  end.

(** The absolute cells of a placed piece: its shape in the stored orientation,
    moved by the stored origin, as [getBoardGrid] computes them. *)
Definition pieceCells (piece : PlacedPiece) : list Coordinate :=
  map (fun c => mkCoordinate (px piece + x c) (py piece + y c))
      (getTransformedCoordinates (id piece) (rotation piece) (isFlipped piece)).

Definition inGrid (c : Coordinate) : bool :=
  (x c >=? 0) && (x c <? GRID_COLS) && (y c >=? 0) && (y c <? GRID_ROWS).

(** [grid[y][x] = piece.id], reached only under the bounds test, on the grid
    [getBoardGrid] has just allocated: the write never extends a row. *)
Definition setBoardCell (grid : Board) (c : Coordinate) (v : option string) : Board :=
  let row := nth (Z.to_nat (y c)) grid [] in
  arraySet [] grid (Z.to_nat (y c)) (arraySet None row (Z.to_nat (x c)) v).

Definition getBoardGrid (placedPieces : list PlacedPiece) : Board :=
  let grid := repeat (repeat None (Z.to_nat GRID_COLS)) (Z.to_nat GRID_ROWS) in
  fold_left
    (fun grid piece =>
       fold_left
         (fun grid c => if inGrid c then setBoardCell grid c (Some (id piece)) else grid)
         (pieceCells piece) grid)
    placedPieces grid.

(** ** The variation cache *)

Record PieceVariation : Type := mkPieceVariation {
  var_rotation : Z;
  var_isFlipped : bool;
  coords : list Coordinate
}.

(** The comparator [(a, b) => a.y - b.y || a.x - b.x]. *)
Definition compareYX (a b : Coordinate) : Z :=
  if y a - y b =? 0 then x a - x b else y a - y b.

(** [Array.prototype.sort] is stable: an element goes behind those that do
    not compare greater. *)
Fixpoint insertSorted (c : Coordinate) (sorted : list Coordinate) : list Coordinate :=
  match sorted with
  | [] => [c]
  | h :: t => if compareYX c h <? 0 then c :: h :: t else h :: insertSorted c t
  end.

Definition sortYX (l : list Coordinate) : list Coordinate :=
  fold_left (fun sorted c => insertSorted c sorted) l [].

(** [sorted[0]] of an empty array is [undefined], and [.x] on it raises. *)
Definition normalizeCoords (l : list Coordinate) : outcome (list Coordinate) :=
  match sortYX l with
  | [] => Throws
  | (first :: _) as sorted =>
      let offsetX := x first in
      let offsetY := y first in
      Returns (map (fun c => mkCoordinate (x c - offsetX) (y c - offsetY)) sorted)
  end.

Definition dquote : string := String (ascii_of_nat 34) EmptyString.

Definition numberToString (n : Z) : string :=
  DecimalString.NilZero.string_of_int (Z.to_int n).

(** [JSON.stringify] of an array of [{ x, y }] objects. *)
Definition stringifyCoordinate (c : Coordinate) : string :=
  ("{" ++ dquote ++ "x" ++ dquote ++ ":" ++ numberToString (x c) ++ ","
       ++ dquote ++ "y" ++ dquote ++ ":" ++ numberToString (y c) ++ "}")%string.

Definition JSON_stringify (l : list Coordinate) : string :=
  ("[" ++ String.concat "," (map stringifyCoordinate l) ++ "]")%string.

(** [forEach] with a body that may raise. *)
Fixpoint forEach {A S : Type} (body : S -> A -> outcome S) (l : list A) (s : S) : outcome S :=
  match l with
  | [] => Returns s
  | a :: rest =>
      match body s a with
      | Returns s' => forEach body rest s'
      | Throws => Throws
      | Unfinished => Unfinished
      end
  end.

(** The body of the two nested [forEach] of [precomputeVariations]; the state
    is [(variations, seenShapes)]. *)
Definition variationStep (piece : PieceDef) (isFlipped : bool)
    (st : list PieceVariation * list string) (rotation : Z)
    : outcome (list PieceVariation * list string) :=
  let (variations, seenShapes) := st in
  let rawCoords := getTransformedCoordinates (def_id piece) rotation isFlipped in
  match normalizeCoords rawCoords with
  | Returns normCoords =>
      let signature := JSON_stringify normCoords in
      if existsb (String.eqb signature) seenShapes then Returns st
      else Returns (variations ++ [mkPieceVariation rotation isFlipped normCoords],
                    signature :: seenShapes)
  | Throws => Throws
  | Unfinished => Unfinished
  end.

Definition flips : list bool := [false; true].
Definition rotations : list Z := [0; 90; 180; 270].

(** The variations of one piece, in the order they are pushed, before the
    random sort. *)
Definition pieceVariations (piece : PieceDef) : outcome (list PieceVariation) :=
  match forEach (fun st isFlipped => forEach (variationStep piece isFlipped) rotations st)
                flips ([], []) with
  | Returns (variations, _) => Returns variations
  | Throws => Throws
  | Unfinished => Unfinished
  end.

(** [PRECOMPUTED_VARIATIONS]: what a key holds, [None] for a key that holds no
    array of variations. *)
Definition VariationTable : Type := string -> option (list PieceVariation).

(** [sortRandom pieceId l] stands for [l.sort(() => Math.random() - 0.5)] on
    the variations of [pieceId]. *)
Definition precomputeVariations
    (sortRandom : string -> list PieceVariation -> list PieceVariation)
    : outcome VariationTable :=
  forEach
    (fun (table : VariationTable) piece =>
       match pieceVariations piece with
       | Returns variations =>
           Returns (fun key => if String.eqb key (def_id piece)
                               then Some (sortRandom (def_id piece) variations)
                               else table key)
       | Throws => Throws
       | Unfinished => Unfinished
       end)
    PIECE_DEFINITIONS (fun _ => None).

(** ** The backtracking solver *)

(** The search's private occupancy grid, [boolean[][]]. *)
Definition Grid : Type := list (list bool).

(** The truthiness of [grid[y][x]]: a missing row raises, a missing column
    reads [undefined], which is falsy. *)
Definition readCell (grid : Grid) (row col : nat) : outcome bool :=
  match nth_error grid row with
  | None => Throws
  | Some r => Returns (nth col r false)
  end.

(** [grid[y][x] = v]: a missing row raises; a missing column is created, and
    the positions skipped before it read as falsy. *)
Definition writeCell (grid : Grid) (row col : nat) (v : bool) : outcome Grid :=
  match nth_error grid row with
  | None => Throws
  | Some r => Returns (arraySet [] grid row (arraySet false r col v))
  end.

(** The inner loop [for (let x = 0; x < GRID_COLS; x++)] of the scan, over
    the columns still to visit. *)
Fixpoint scanRow (grid : Grid) (row : nat) (cols : list nat) : outcome (option nat) :=
  match cols with
  | [] => Returns None
  | col :: rest =>
      match readCell grid row col with
      | Returns false => Returns (Some col)
      | Returns true => scanRow grid row rest
      | Throws => Throws
      | Unfinished => Unfinished
      end
  end.

(** The outer loop [for (let y = 0; y < GRID_ROWS; y++)], over the rows still
    to visit; the answer is [(emptyX, emptyY)], or [None] when [found] stays
    false. *)
Fixpoint scanRows (grid : Grid) (rows : list nat) : outcome (option (Z * Z)) :=
  match rows with
  | [] => Returns None
  | row :: rest =>
      match scanRow grid row (seq 0 (Z.to_nat GRID_COLS)) with
      | Returns (Some col) => Returns (Some (Z.of_nat col, Z.of_nat row))
      | Returns None => scanRows grid rest
      | Throws => Throws
      | Unfinished => Unfinished
      end
  end.

Definition findEmpty (grid : Grid) : outcome (option (Z * Z)) :=
  scanRows grid (seq 0 (Z.to_nat GRID_ROWS)).

(** The loop that sets [fits]: false at the first cell off the grid or
    occupied. *)
Fixpoint fits (grid : Grid) (emptyX emptyY : Z) (cs : list Coordinate) : outcome bool :=
  match cs with
  | [] => Returns true
  | c :: rest =>
      let tx := emptyX + x c in
      let ty := emptyY + y c in
      if outOfGrid tx ty then Returns false
      else
        match readCell grid (Z.to_nat ty) (Z.to_nat tx) with
        | Returns true => Returns false
        | Returns false => fits grid emptyX emptyY rest
        | Throws => Throws
        | Unfinished => Unfinished
        end
  end.

(** [for (const c of v.coords) grid[emptyY + c.y][emptyX + c.x] = v]: the
    placing loop with [true], the backtracking loop with [false].  Both run
    only after [fits], so the indices are natural numbers. *)
Definition markCells (grid : Grid) (emptyX emptyY : Z) (cs : list Coordinate) (v : bool)
    : outcome Grid :=
  forEach
    (fun grid c => writeCell grid (Z.to_nat (emptyY + y c)) (Z.to_nat (emptyX + x c)) v)
    cs grid.

(** What a call of [solveRecursively] hands back: the returned array or [null],
    and the grid as the call leaves it (the grid is mutated in place). *)
Definition SolverResult : Type := option (list PlacedPiece) * Grid.

(** The record built on success: the origin is the empty cell moved back by the
    anchor of the re-derived raw shape. *)
Definition placedRecord (pieceId : string) (emptyX emptyY : Z) (v : PieceVariation)
    : outcome PlacedPiece :=
  let rawShape := getTransformedCoordinates pieceId (var_rotation v) (var_isFlipped v) in
  match sortYX rawShape with
  | [] => Throws
  | anchor :: _ =>
      Returns (mkPlacedPiece pieceId (emptyX - x anchor) (emptyY - y anchor)
                 (var_rotation v) (var_isFlipped v) (Some true))
  end.

(** The loop [for (const v of variations)]; [recurse grid] is the call
    [solveRecursively(grid, restIds)]. *)
Fixpoint tryVariations (recurse : Grid -> outcome SolverResult)
    (pieceId : string) (emptyX emptyY : Z)
    (variations : list PieceVariation) (grid : Grid) : outcome SolverResult :=
  match variations with
  | [] => Returns (None, grid)
  | v :: others =>
      match fits grid emptyX emptyY (coords v) with
      | Returns false => tryVariations recurse pieceId emptyX emptyY others grid
      | Returns true =>
          match markCells grid emptyX emptyY (coords v) true with
          | Returns placed =>
              match recurse placed with
              | Returns (Some result, final) =>
                  match placedRecord pieceId emptyX emptyY v with
                  | Returns piece => Returns (Some (piece :: result), final)
                  | Throws => Throws
                  | Unfinished => Unfinished
                  end
              | Returns (None, back) =>
                  match markCells back emptyX emptyY (coords v) false with
                  | Returns cleared =>
                      tryVariations recurse pieceId emptyX emptyY others cleared
                  | Throws => Throws
                  | Unfinished => Unfinished
                  end
              | Throws => Throws
              | Unfinished => Unfinished
              end
          | Throws => Throws
          | Unfinished => Unfinished
          end
      | Throws => Throws
      | Unfinished => Unfinished
      end
  end.

(** One activation of [solveRecursively], its recursive call left open. *)
Definition solveBody (table : VariationTable)
    (recurse : list string -> Grid -> outcome SolverResult)
    (grid : Grid) (remainingPieceIds : list string) : outcome SolverResult :=
  match remainingPieceIds with
  | [] => Returns (Some [], grid)
  | pieceId :: restIds =>
      match findEmpty grid with
      | Returns None => Returns (Some [], grid)
      | Returns (Some (emptyX, emptyY)) =>
          match table pieceId with
          | None => Throws
          | Some variations =>
              tryVariations (recurse restIds) pieceId emptyX emptyY variations grid
          end
      | Throws => Throws
      | Unfinished => Unfinished
      end
  end.

(** [solveRecursively]: the recursive call of the body is on [restIds], the
    tail of the list of remaining piece ids. *)
Fixpoint solveRecursively (table : VariationTable)
    (grid : Grid) (remainingPieceIds : list string) {struct remainingPieceIds}
    : outcome SolverResult :=
  solveBody table (fun restIds placed => solveRecursively table placed restIds)
    grid remainingPieceIds.

(** The same body run with a bound on the depth of the recursion, and no
    knowledge of why it ends: every activation costs one unit of [fuel]. *)
Fixpoint solveRecursivelyFuel (table : VariationTable) (fuel : nat)
    (grid : Grid) (remainingPieceIds : list string) {struct fuel}
    : outcome SolverResult :=
  match fuel with
  | O => Unfinished
  | S fuel' =>
      solveBody table (fun restIds placed => solveRecursivelyFuel table fuel' placed restIds)
        grid remainingPieceIds
  end.

(** ** The level generator *)

Definition emptyGrid : Grid :=
  repeat (repeat false (Z.to_nat GRID_COLS)) (Z.to_nat GRID_ROWS).

(** [generateValidBoard].  [shuffledIds k] is the array that
    [PIECE_DEFINITIONS.map(p => p.id).sort(() => Math.random() - 0.5)] yields
    in the [k]-th activation; [attempt] counts the activations so far.  An
    empty array is truthy, so only [null] takes the retry branch.

    The retry, [return generateValidBoard()], is a nested call: every
    activation stays on the call stack of the engine until the innermost one
    returns, and the function keeps no count of its retries.  [stack] is the
    number of activations that the call stack has room for, each with the
    calls it makes.  Entering one more raises the engine's [RangeError]
    (maximum call stack size exceeded), which nothing in the module catches:
    it reaches the caller. *)
Fixpoint generateValidBoard (table : VariationTable) (shuffledIds : nat -> list string)
    (stack : nat) (attempt : nat) : outcome (list PlacedPiece) :=
  match stack with
  | O => Throws
  | S deeper =>
      let grid := emptyGrid in
      let allPieceIds := shuffledIds attempt in
      match solveRecursively table grid allPieceIds with
      | Returns (Some solution, _) => Returns solution
      | Returns (None, _) => generateValidBoard table shuffledIds deeper (S attempt)
      | Throws => Throws
      | Unfinished => Unfinished
      end
  end.

(** [Math.round] on an exact rational: the nearest integer, a half going up.
    The level formula is evaluated in exact arithmetic. *)
Definition Math_round (q : Q) : Z := Qfloor (q + (1 # 2))%Q.

Definition maxLocked : Z := 10.
Definition minLocked : Z := 3.

Definition lockedCount (levelNum : Z) : Z :=
  let rounded :=
    Math_round (inject_Z maxLocked
                - (inject_Z (levelNum - 1) / inject_Z 99) * inject_Z (maxLocked - minLocked))%Q in
  Z.max minLocked (Z.min maxLocked rounded).

(** [l.slice(0, n)] for an integer [n]; a negative [n] counts from the end. *)
Definition slice0 {A : Type} (l : list A) (n : Z) : list A :=
  if n <? 0 then firstn (Z.to_nat (Z.of_nat (List.length l) + n)) l
  else firstn (Z.to_nat n) l.

(** [{ ...p, isLocked: true }]. *)
Definition lock (p : PlacedPiece) : PlacedPiece :=
  mkPlacedPiece (id p) (px p) (py p) (rotation p) (isFlipped p) (Some true).

(** [generateLevel]; [shuffleSolution] stands for the random sort of the copy
    of the full solution, [stack] for the room on the call stack when
    [generateValidBoard] is entered. *)
Definition generateLevel (table : VariationTable) (shuffledIds : nat -> list string)
    (shuffleSolution : list PlacedPiece -> list PlacedPiece)
    (stack : nat) (levelNum : Z) : outcome (list PlacedPiece) :=
  match generateValidBoard table shuffledIds stack 0 with
  | Returns fullSolution =>
      let shuffled := shuffleSolution fullSolution in
      let puzzleSetup := map lock (slice0 shuffled (lockedCount levelNum)) in
      Returns puzzleSetup
  | Throws => Throws
  | Unfinished => Unfinished
  end.

(** ** What the statements below speak about *)

(** A quarter turn, [(x, y) -> (-y, x)]. *)
Definition quarterTurn (c : Coordinate) : Coordinate := mkCoordinate (- y c) (x c).

Definition flipX (isFlipped : bool) (c : Coordinate) : Coordinate :=
  mkCoordinate (if isFlipped then - x c else x c) (y c).

(** The transform as the specification words it: flip first, then
    [rotation / 90] quarter turns, nothing added. *)
Definition transformSpec (shape : list Coordinate) (rotation : Z) (isFlipped : bool)
    : list Coordinate :=
  map (fun p => Nat.iter (Z.to_nat (rotation / 90)) quarterTurn (flipX isFlipped p)) shape.

Definition translate (dx dy : Z) (c : Coordinate) : Coordinate :=
  mkCoordinate (dx + x c) (dy + y c).

(** The cells a placement asks for. *)
Definition targetCells (pieceId : string) (gridX gridY rotation : Z) (isFlipped : bool)
    : list Coordinate :=
  map (translate gridX gridY) (getTransformedCoordinates pieceId rotation isFlipped).

Definition offGrid (c : Coordinate) : Prop :=
  x c < 0 \/ x c >= GRID_COLS \/ y c < 0 \/ y c >= GRID_ROWS.

(** A board of [GRID_ROWS] rows of [GRID_COLS] cells. *)
Definition wfBoard (board : Board) : Prop :=
  List.length board = Z.to_nat GRID_ROWS /\
  Forall (fun row => List.length row = Z.to_nat GRID_COLS) board.

(** The board holds a piece id, not [null], at the cell. *)
Definition occupied (board : Board) (c : Coordinate) : Prop :=
  exists row s,
    nth_error board (Z.to_nat (y c)) = Some row /\
    nth_error row (Z.to_nat (x c)) = Some (Some s).

Definition emptyBoard : Board :=
  repeat (repeat None (Z.to_nat GRID_COLS)) (Z.to_nat GRID_ROWS).

(** A grid of [GRID_ROWS] rows of [GRID_COLS] cells, as [generateValidBoard]
    allocates it. *)
Definition wfGrid (grid : Grid) : Prop :=
  List.length grid = Z.to_nat GRID_ROWS /\
  Forall (fun row => List.length row = Z.to_nat GRID_COLS) grid.

(** [grid[y][x]] at a cell of the grid. *)
Definition cellAt (grid : Grid) (c : Coordinate) : bool :=
  nth (Z.to_nat (x c)) (nth (Z.to_nat (y c)) grid []) false.

(** The 55 cells of the grid, row by row. *)
Definition gridCells : list Coordinate :=
  flat_map (fun row => map (fun col => pt (Z.of_nat col) (Z.of_nat row))
                           (seq 0 (Z.to_nat GRID_COLS)))
           (seq 0 (Z.to_nat GRID_ROWS)).

(** The table is one that [precomputeVariations] builds: each random sort
    returns its argument rearranged. *)
Definition builtTable (table : VariationTable) : Prop :=
  exists sortRandom,
    (forall pieceId l, Permutation (sortRandom pieceId l) l) /\
    precomputeVariations sortRandom = Returns table.

(** The successful path of a search.  Each step pairs the record that
    [solveRecursively] returns for a piece with the absolute cells that the
    placing loop set to [true] for it: the cells of the chosen variation,
    moved to the selected empty cell. *)
Inductive searchPath (table : VariationTable)
  : Grid -> list string -> list (PlacedPiece * list Coordinate) -> Grid -> Prop :=
| path_done grid :
    searchPath table grid [] [] grid
| path_full grid remainingPieceIds :
    findEmpty grid = Returns None ->
    searchPath table grid remainingPieceIds [] grid
| path_place grid pieceId restIds emptyX emptyY variations v placed piece steps final :
    findEmpty grid = Returns (Some (emptyX, emptyY)) ->
    table pieceId = Some variations ->
    In v variations ->
    fits grid emptyX emptyY (coords v) = Returns true ->
    markCells grid emptyX emptyY (coords v) true = Returns placed ->
    placedRecord pieceId emptyX emptyY v = Returns piece ->
    searchPath table placed restIds steps final ->
    searchPath table grid (pieceId :: restIds)
      ((piece, map (translate emptyX emptyY) (coords v)) :: steps) final.

(** The number of cells of the piece with this id. *)
Definition sizeOf (pieceId : string) : nat :=
  match findDef pieceId with
  | Some def => List.length (initialShape def)
  | None => O
  end.

(** A list without repetition, decided. *)
Fixpoint distinctb {A : Type} (dec : forall a b : A, {a = b} + {a <> b}) (l : list A) : bool :=
  match l with
  | [] => true
  | a :: rest => (if in_dec dec a rest then false else true) && distinctb dec rest
  end.

Definition coordsEqb (a b : list Coordinate) : bool :=
  if list_eq_dec Coordinate_eq_dec a b then true else false.

(** What every cached variation of a piece must satisfy: it is the normalized
    transform of the piece in the orientation it records, has the piece's
    number of cells, and no cell twice. *)
Definition variationOkb (def : PieceDef) (v : PieceVariation) : bool :=
  match normalizeCoords
          (getTransformedCoordinates (def_id def) (var_rotation v) (var_isFlipped v)) with
  | Returns normCoords => coordsEqb normCoords (coords v)
  | _ => false
  end
  && distinctb Coordinate_eq_dec (coords v)
  && Nat.eqb (List.length (coords v)) (List.length (initialShape def)).

Definition catalogVariationsOkb : bool :=
  forallb (fun def =>
             match pieceVariations def with
             | Returns variations => forallb (variationOkb def) variations
             | _ => false
             end)
          PIECE_DEFINITIONS.

(** What a call of [solveRecursively] on a well-formed grid leaves behind:
    after [null] the grid is as it was, after a solution the grid and the
    records are those of a successful path. *)
Definition solveInv (table : VariationTable) (grid : Grid) (remainingPieceIds : list string)
    (r : outcome SolverResult) : Prop :=
  match r with
  | Returns (None, grid') => grid' = grid
  | Returns (Some result, grid') =>
      exists steps,
        searchPath table grid remainingPieceIds steps grid' /\ map fst steps = result
  | _ => True
  end.

(** All the cells set along a path. *)
Definition markedCells (steps : list (PlacedPiece * list Coordinate)) : list Coordinate :=
  List.concat (map snd steps).

(** What holds of one step for a built table: the record replays to the cells
    set for it, which are as many as the piece has, all different, and the
    record carries the piece's id and is locked. *)
Definition stepOk (step : PlacedPiece * list Coordinate) : Prop :=
  Permutation (pieceCells (fst step)) (snd step) /\
  NoDup (snd step) /\
  List.length (snd step) = sizeOf (id (fst step)) /\
  In (id (fst step)) catalogIds /\
  isLocked (fst step) = Some true.

Definition totalSize (ids : list string) : nat := list_sum (map sizeOf ids).

(** Two placed pieces share no cell. *)
Definition disjointCells (p q : PlacedPiece) : Prop :=
  forall c, In c (pieceCells p) -> ~ In c (pieceCells q).

(** A checker for rearrangements of lists of ids. *)
Fixpoint removeOne (s : string) (l : list string) : option (list string) :=
  match l with
  | [] => None
  | h :: t => if String.eqb s h then Some t else option_map (cons h) (removeOne s t)
  end.

Fixpoint isPermutation (a b : list string) : bool :=
  match a with
  | [] => match b with [] => true | _ => false end
  | h :: t =>
      match removeOne h b with
      | Some b' => isPermutation t b'
      | None => false
      end
  end.

(** ** Concrete runs *)

(** The table when every random sort leaves its argument as it is. *)
Definition tableInOrder : VariationTable :=
  match precomputeVariations (fun _ l => l) with
  | Returns table => table
  | _ => fun _ => None
  end.

(** An order of the ids for which the search succeeds, and the solution it
    finds with [tableInOrder]. *)
Definition solvableOrder : list string :=
  ["L"; "J"; "I"; "K"; "H"; "G"; "B"; "C"; "A"; "F"; "D"; "E"]%string.

Definition exampleSolution : list PlacedPiece :=
  [ mkPlacedPiece "L" 0 0 0 false (Some true);
    mkPlacedPiece "J" 2 0 0 false (Some true);
    mkPlacedPiece "I" 5 0 0 false (Some true);
    mkPlacedPiece "K" 9 0 0 true (Some true);
    mkPlacedPiece "H" 10 0 90 false (Some true);
    mkPlacedPiece "G" 0 3 180 true (Some true);
    mkPlacedPiece "B" 2 1 0 false (Some true);
    mkPlacedPiece "C" 4 2 270 false (Some true);
    mkPlacedPiece "A" 8 3 90 true (Some true);
    mkPlacedPiece "F" 10 4 180 false (Some true);
    mkPlacedPiece "D" 0 4 180 true (Some true);
    mkPlacedPiece "E" 4 4 180 true (Some true) ].

Definition fullGrid : Grid :=
  repeat (repeat true (Z.to_nat GRID_COLS)) (Z.to_nat GRID_ROWS).

(** An order for which the search finds nothing.  Piece B fits the corner
    (0,0) in two of its variations, covering (0,0), (0,1), (1,1), (1,2), (2,2)
    or (0,0), (1,0), (1,1), (2,1), (2,2); the first empty cell is then (1,0)
    or (2,0), and each of the four variations of piece C anchored there runs
    into a cell of B.  The search ends after three activations. *)
Definition failingOrder : list string :=
  ["B"; "C"; "L"; "J"; "I"; "K"; "A"; "D"; "E"; "F"; "G"; "H"]%string.

(** Shuffles that fail [failures] times and then succeed. *)
Definition failuresThenSolved (failures k : nat) : list string :=
  if Nat.ltb k failures then failingOrder else solvableOrder.

(** Shuffles that fail twice and then succeed. *)
Definition twoFailuresThenSolved (k : nat) : list string :=
  failuresThenSolved 2 k.

(** ** The orbit of a shape, as the specification words it *)

(** The cells of a shape in reading order, top row first and each row from
    the left: the cells of the rectangle around the shape, row by row, that
    belong to the shape. *)
Definition readingOrder (l : list Coordinate) : list Coordinate :=
  match l with
  | [] => []
  | c :: rest =>
      let x0 := fold_right Z.min (x c) (map x rest) in
      let x1 := fold_right Z.max (x c) (map x rest) in
      let y0 := fold_right Z.min (y c) (map y rest) in
      let y1 := fold_right Z.max (y c) (map y rest) in
      filter (fun d => existsb (Coordinate_eqb d) l)
        (flat_map (fun row => map (fun col => pt (x0 + Z.of_nat col) (y0 + Z.of_nat row))
                                  (seq 0 (Z.to_nat (x1 - x0 + 1))))
                  (seq 0 (Z.to_nat (y1 - y0 + 1))))
  end.

(** Sort by [y], then [x], and subtract the first point from every point. *)
Definition normalizeSpec (l : list Coordinate) : list Coordinate :=
  match readingOrder l with
  | [] => []
  | first :: _ =>
      map (fun c => mkCoordinate (x c - x first) (y c - y first)) (readingOrder l)
  end.

(** The 8 combinations of 2 flip states and 4 rotations, written out. *)
Definition orientations : list (bool * Z) :=
  [ (false, 0); (false, 90); (false, 180); (false, 270);
    (true, 0); (true, 90); (true, 180); (true, 270) ].

Definition orbitSpec (shape : list Coordinate) : list (list Coordinate) :=
  map (fun o => normalizeSpec (transformSpec shape (snd o) (fst o))) orientations.

Definition shape_eq_dec : forall a b : list Coordinate, {a = b} + {a <> b} :=
  list_eq_dec Coordinate_eq_dec.

(** The distinct normalized shapes of the orbit. *)
Definition distinctShapes (shape : list Coordinate) : list (list Coordinate) :=
  nodup shape_eq_dec (orbitSpec shape).

(** The shape is its own half turn, up to normalization. *)
Definition halfTurnSymmetric (shape : list Coordinate) : Prop :=
  normalizeSpec (transformSpec shape 180 false) = normalizeSpec (transformSpec shape 0 false).

(** The two lists hold the same shapes. *)
Definition sameShapes (a b : list (list Coordinate)) : bool :=
  forallb (fun s => existsb (coordsEqb s) b) a
  && forallb (fun s => existsb (coordsEqb s) a) b.

Definition cacheOkb (def : PieceDef) : bool :=
  match pieceVariations def with
  | Returns pushed =>
      let n := List.length pushed in
      Nat.leb 1 n && Nat.leb n 8
      && distinctb shape_eq_dec (map coords pushed)
      && Nat.eqb n (List.length (distinctShapes (initialShape def)))
      && sameShapes (map coords pushed) (orbitSpec (initialShape def))
      && (if shape_eq_dec (normalizeSpec (transformSpec (initialShape def) 180 false))
                          (normalizeSpec (transformSpec (initialShape def) 0 false))
          then Nat.eqb n 4 else true)
  | _ => false
  end.


(** ** The level formula in IEEE doubles

    [generateLevel] evaluates its formula in binary64.  The definitions below
    repeat it with the kernel's binary64 operations, to compare with the exact
    evaluation of [lockedCount]. *)

(** The double of an integer below 2^53, built exactly from its bits. *)
Fixpoint doubleOfPositive (p : positive) : PrimFloat.float :=
  match p with
  | xH => 1%float
  | xO q => PrimFloat.mul 2%float (doubleOfPositive q)
  | xI q => PrimFloat.add (PrimFloat.mul 2%float (doubleOfPositive q)) 1%float
  end.

Definition doubleOfZ (n : Z) : PrimFloat.float :=
  match n with
  | Z0 => 0%float
  | Zpos p => doubleOfPositive p
  | Zneg p => PrimFloat.opp (doubleOfPositive p)
  end.

(** [Math.floor] for a double of magnitude below 2^51: adding and removing
    1.5 * 2^52 rounds to an integer, which is lowered by one when it came out
    above the argument. *)
Definition floorDouble (v : PrimFloat.float) : PrimFloat.float :=
  let magic := 6755399441055744%float in
  let t := PrimFloat.sub (PrimFloat.add v magic) magic in
  if PrimFloat.ltb v t then PrimFloat.sub t 1%float else t.

(** [Math.round]: the nearest integer, a half going up. *)
Definition roundDouble (v : PrimFloat.float) : PrimFloat.float :=
  let r := floorDouble v in
  if PrimFloat.leb 0.5%float (PrimFloat.sub v r) then PrimFloat.add r 1%float else r.

Definition lockedCountDouble (levelNum : PrimFloat.float) : PrimFloat.float :=
  let maxLocked := 10%float in
  let minLocked := 3%float in
  let lockedCount :=
    roundDouble
      (PrimFloat.sub maxLocked
         (PrimFloat.mul (PrimFloat.div (PrimFloat.sub levelNum 1%float) 99%float)
                        (PrimFloat.sub maxLocked minLocked))) in
  let capped := if PrimFloat.ltb lockedCount maxLocked then lockedCount else maxLocked in
  if PrimFloat.ltb capped minLocked then minLocked else capped.

(** The levels from -1000 to 2000. *)
Definition checkedLevels : list Z := map (fun k => Z.of_nat k - 1000) (seq 0 3001).

From Stdlib Require Import Sorted Qminmax.
From Stdlib Require Import SpecFloat FloatOps.

(** ** Bounding boxes *)

Record Bounds : Type := mkBounds { minX : Z; minY : Z; width : Z; height : Z }.

(** [Math.min(...l)] and [Math.max(...l)] of a list with a first element. *)
Definition Math_min (first : Z) (rest : list Z) : Z := fold_left Z.min rest first.
Definition Math_max (first : Z) (rest : list Z) : Z := fold_left Z.max rest first.

(** [getPieceBounds]; [None] stands for a falsy argument, which the guard
    [!coords] treats like the empty array. *)
Definition getPieceBounds (coords : option (list Coordinate)) : Bounds :=
  match coords with
  | None => mkBounds 0 0 1 1
  | Some [] => mkBounds 0 0 1 1
  | Some (c :: rest) =>
      let minX := Math_min (x c) (map x rest) in
      let minY := Math_min (y c) (map y rest) in
      let maxX := Math_max (x c) (map x rest) in
      let maxY := Math_max (y c) (map y rest) in
      mkBounds minX minY (maxX - minX + 1) (maxY - minY + 1)
  end.

(** The cells of the box that the bounds describe, row by row. *)
Definition boxCells (b : Bounds) : list Coordinate :=
  flat_map (fun row => map (fun col => pt (minX b + Z.of_nat col) (minY b + Z.of_nat row))
                           (seq 0 (Z.to_nat (width b))))
           (seq 0 (Z.to_nat (height b))).

(** ** Reading order *)

(** [a] does not come after [b] for the comparator of the sort. *)
Definition leYX (a b : Coordinate) : Prop := compareYX a b <= 0.

(** ** Reading a board *)

(** [board[y][x]] at a cell of the grid. *)
Definition boardCell (board : Board) (c : Coordinate) : option string :=
  nth (Z.to_nat (x c)) (nth (Z.to_nat (y c)) board []) None.

(** The piece covers the cell. *)
Definition covers (piece : PlacedPiece) (c : Coordinate) : bool :=
  existsb (Coordinate_eqb c) (pieceCells piece).


(** * The board interaction of [App.tsx]

    The component keeps the placed pieces, the piece being dragged and the
    snap preview in React state; its handlers are modelled as functions of
    that state.  A handler is taken to run on the state the previous one left:
    React has rendered in between, so that [dragStateRef.current] is
    [dragState] and the closures of [handleMove] and [handleUp] hold the
    current [ghostState] and [staticBoardGrid].

    Pixel coordinates are binary64 numbers, and what the handlers compute
    from them is computed with the binary64 operations.  The coordinates of a
    pointer event and of a client rectangle are finite.  Grid coordinates and
    the cell size are integers far below 2^53, on which the binary64
    operations are exact; they are modelled by [Z]. *)

Definition GRID_GAP : Z := 1.

Record DragState : Type := mkDragState {
  drag_pieceId : string;
  drag_rotation : Z;
  drag_isFlipped : bool;
  currentX : float;
  currentY : float;
  dragOffsetX : float;
  dragOffsetY : float;
  anchorIndex : nat;
  drag_pointerId : Z
}.

Record GhostState : Type := mkGhostState {
  ghost_x : Z;
  ghost_y : Z;
  ghost_isValid : bool
}.

Record AppState : Type := mkAppState {
  placedPieces : list PlacedPiece;
  dragState : option DragState;
  ghostState : option GhostState
}.

(** What a handler reads of a pointer event. *)
Record PointerEvent : Type := mkPointerEvent {
  clientX : float;
  clientY : float;
  pointerId : Z
}.

(** [boardRef.current.getBoundingClientRect()]. *)
Record DOMRect : Type := mkDOMRect {
  rect_left : float;
  rect_right : float;
  rect_top : float;
  rect_bottom : float
}.


(** [p.isLocked] as a condition: [undefined] and [false] are falsy. *)
Definition truthy (flag : option bool) : bool :=
  match flag with
  | Some true => true
  | _ => false
  end.

(** [{ ...prev, rotation: r }]. *)
Definition withRotation (prev : DragState) (r : Z) : DragState :=
  mkDragState (drag_pieceId prev) r (drag_isFlipped prev) (currentX prev) (currentY prev)
              (dragOffsetX prev) (dragOffsetY prev) (anchorIndex prev) (drag_pointerId prev).

(** The state update of [rotatePiece]. *)
Definition rotatePiece (dir : Z) (prev : option DragState) : option DragState :=
  match prev with
  | None => None
  | Some prev =>
      let r := Z.rem (drag_rotation prev + dir) 360 in
      Some (withRotation prev (if r <? 0 then r + 360 else r))
  end.

(** The state update of [flipPiece]. *)
Definition flipPiece (prev : option DragState) : option DragState :=
  match prev with
  | None => None
  | Some prev =>
      Some (mkDragState (drag_pieceId prev) (drag_rotation prev) (negb (drag_isFlipped prev))
                        (currentX prev) (currentY prev) (dragOffsetX prev) (dragOffsetY prev)
                        (anchorIndex prev) (drag_pointerId prev))
  end.

(** [{ ...x, rotation: nextRot }] on a placed piece. *)
Definition rotated (piece : PlacedPiece) (nextRot : Z) : PlacedPiece :=
  mkPlacedPiece (id piece) (px piece) (py piece) nextRot (isFlipped piece) (isLocked piece).

(** [handlePlacedRotate]: the double click on a placed piece; the result is
    the new value of [placedPieces]. *)
Definition handlePlacedRotate (placedPieces : list PlacedPiece) (p : PlacedPiece)
    : outcome (list PlacedPiece) :=
  if truthy (isLocked p) then Returns placedPieces
  else
    let nextRot := Z.rem (rotation p + 90) 360 in
    let tempGrid :=
      getBoardGrid (filter (fun x => negb (String.eqb (id x) (id p))) placedPieces) in
    match isValidPlacement (id p) (px p) (py p) nextRot (isFlipped p) (Some tempGrid) with
    | Returns true =>
        Returns (map (fun x => if String.eqb (id x) (id p) then rotated x nextRot else x)
                     placedPieces)
    | Returns false => Returns placedPieces
    | Throws => Throws
    | Unfinished => Unfinished
    end.


(** [Math.floor] of a finite binary64 number, as the integer it is: the
    number is [m * 2^e] with its sign, and shifting by [e] rounds towards
    minus infinity. *)
Definition floorOfDouble (v : float) : Z :=
  match Prim2SF v with
  | S754_finite s m e => Z.shiftl (if s then Z.neg m else Z.pos m) e
  | _ => 0
  end.

(** The cell of the logical grid under the pointer: the screen axes are
    swapped in portrait.  The quotients are binary64 divisions. *)
Definition snapGrid (isPortrait : bool) (relX relY stepSize : float) : Z * Z :=
  if isPortrait
  then (floorOfDouble (PrimFloat.div relY stepSize),
        floorOfDouble (PrimFloat.div relX stepSize))
  else (floorOfDouble (PrimFloat.div relX stepSize),
        floorOfDouble (PrimFloat.div relY stepSize)).

(** [shape[anchorIndex] || shape[0]]. *)
Definition anchorOf (shape : list Coordinate) (anchorIndex : nat) : option Coordinate :=
  match nth_error shape anchorIndex with
  | Some c => Some c
  | None => nth_error shape 0
  end.

(** [handleMove]; [boardRect] is [None] while the board is not mounted. *)
Definition handleMove (isPortrait : bool) (gridCellSize : Z) (boardRect : option DOMRect)
    (s : AppState) (e : PointerEvent) : outcome AppState :=
  match dragState s with
  | None => Returns s
  | Some currentDrag =>
      if negb (pointerId e =? drag_pointerId currentDrag) then Returns s
      else
        let moved :=
          Some (mkDragState (drag_pieceId currentDrag) (drag_rotation currentDrag)
                            (drag_isFlipped currentDrag) (clientX e) (clientY e)
                            (dragOffsetX currentDrag) (dragOffsetY currentDrag)
                            (anchorIndex currentDrag) (drag_pointerId currentDrag)) in
        match boardRect with
        | None => Returns (mkAppState (placedPieces s) moved (ghostState s))
        | Some boardRect =>
            let stepSize := doubleOfZ (gridCellSize + GRID_GAP) in
            let hitMargin := PrimFloat.mul stepSize 1.5%float in
            if PrimFloat.ltb (clientX e) (PrimFloat.sub (rect_left boardRect) hitMargin)
               || PrimFloat.ltb (PrimFloat.add (rect_right boardRect) hitMargin) (clientX e)
               || PrimFloat.ltb (clientY e) (PrimFloat.sub (rect_top boardRect) hitMargin)
               || PrimFloat.ltb (PrimFloat.add (rect_bottom boardRect) hitMargin) (clientY e)
            then Returns (mkAppState (placedPieces s) moved None)
            else
              let relX := PrimFloat.sub (clientX e) (rect_left boardRect) in
              let relY := PrimFloat.sub (clientY e) (rect_top boardRect) in
              let '(snapGridX, snapGridY) := snapGrid isPortrait relX relY stepSize in
              let shape :=
                getTransformedCoordinates (drag_pieceId currentDrag)
                  (drag_rotation currentDrag) (drag_isFlipped currentDrag) in
              match anchorOf shape (anchorIndex currentDrag) with
              | None => Throws
              | Some anchorCoords =>
                  let proposedPieceX := snapGridX - x anchorCoords in
                  let proposedPieceY := snapGridY - y anchorCoords in
                  match isValidPlacement (drag_pieceId currentDrag)
                          proposedPieceX proposedPieceY
                          (drag_rotation currentDrag) (drag_isFlipped currentDrag)
                          (Some (getBoardGrid (placedPieces s))) with
                  | Returns isValid =>
                      Returns (mkAppState (placedPieces s) moved
                                 (Some (mkGhostState proposedPieceX proposedPieceY isValid)))
                  | Throws => Throws
                  | Unfinished => Unfinished
                  end
              end
        end
  end.

(** [handleUp]: the pointer is released or cancelled. *)
Definition handleUp (s : AppState) (e : PointerEvent) : AppState :=
  match dragState s with
  | None => mkAppState (placedPieces s) None None
  | Some currentDrag =>
      if negb (pointerId e =? drag_pointerId currentDrag) then s
      else
        let dropped :=
          match ghostState s with
          | Some currentGhost =>
              if ghost_isValid currentGhost
              then placedPieces s
                   ++ [mkPlacedPiece (drag_pieceId currentDrag)
                                     (ghost_x currentGhost) (ghost_y currentGhost)
                                     (drag_rotation currentDrag) (drag_isFlipped currentDrag)
                                     (Some false)]
              else placedPieces s
          | None => placedPieces s
          end in
        mkAppState dropped None None
  end.

(** [a.localeCompare(b) <= 0] on piece ids: the ids are single capital
    letters, which every locale orders as their codes are. *)
Definition localeLe (a b : string) : bool :=
  match String.compare a b with
  | Gt => false
  | _ => true
  end.

Fixpoint insertId (s : string) (sorted : list string) : list string :=
  match sorted with
  | [] => [s]
  | h :: t => if localeLe s h then s :: sorted else h :: insertId s t
  end.

Definition sortIds (l : list string) : list string := fold_right insertId [] l.

(** [bankPieceIds]: the ids offered in the inventory.  The two sets are lists
    read by membership. *)
Definition bankPieceIds (placedPieces : list PlacedPiece) (dragState : option DragState)
    : list string :=
  let validGamePieceIds := map def_id PIECE_DEFINITIONS in
  let placedIds :=
    map id placedPieces
    ++ match dragState with
       | Some d => [drag_pieceId d]
       | None => []
       end in
  let has (ids : list string) (s : string) := existsb (String.eqb s) ids in
  sortIds
    (map def_id
       (filter (fun p => negb (has placedIds (def_id p)))
          (filter (fun p => has validGamePieceIds (def_id p)) PIECE_DEFINITIONS))).

(** The [left] and [top] of a sphere inside the box of [Piece], and the size
    of the box. *)
Definition Piece_sphere (isPortrait : bool) (cellSize gap : Z)
    (coords : list Coordinate) (c : Coordinate) : Z * Z :=
  let b := getPieceBounds (Some coords) in
  ((if isPortrait then y c - minY b else x c - minX b) * (cellSize + gap),
   (if isPortrait then x c - minX b else y c - minY b) * (cellSize + gap)).

Definition Piece_box (isPortrait : bool) (cellSize gap : Z) (coords : list Coordinate)
    : Z * Z :=
  let b := getPieceBounds (Some coords) in
  let logicalWidthPixels := width b * cellSize + (width b - 1) * gap in
  let logicalHeightPixels := height b * cellSize + (height b - 1) * gap in
  (if isPortrait then logicalHeightPixels else logicalWidthPixels,
   if isPortrait then logicalWidthPixels else logicalHeightPixels).

(** The [left] and [top] that [App] gives the box of a placed piece. *)
Definition App_placedBox (isPortrait : bool) (gridCellSize : Z) (p : PlacedPiece) : Z * Z :=
  let coords := getTransformedCoordinates (id p) (rotation p) (isFlipped p) in
  let bounds := getPieceBounds (Some coords) in
  ((if isPortrait then py p + minY bounds else px p + minX bounds) * (gridCellSize + GRID_GAP),
   (if isPortrait then px p + minX bounds else py p + minY bounds) * (gridCellSize + GRID_GAP)).

(** ** What the statements on the interaction speak about *)

(** A board whose pieces have different ids, lie on the grid and do not
    overlap. *)
Definition legalBoard (placed : list PlacedPiece) : Prop :=
  NoDup (map id placed) /\
  NoDup (flat_map pieceCells placed) /\
  (forall c, In c (flat_map pieceCells placed) -> inGrid c = true).

(** The dragged piece is not on the board, and a preview marked valid is
    valid for the orientation the drag has now. *)
Definition dragging (s : AppState) : Prop :=
  match dragState s with
  | None => True
  | Some d =>
      ~ In (drag_pieceId d) (map id (placedPieces s)) /\
      match ghostState s with
      | None => True
      | Some g =>
          ghost_isValid g = true ->
          forall c,
            In c (targetCells (drag_pieceId d) (ghost_x g) (ghost_y g)
                    (drag_rotation d) (drag_isFlipped d)) ->
            inGrid c = true /\ ~ In c (flat_map pieceCells (placedPieces s))
      end
  end.

(** [legalBoard], decided. *)
Definition legalBoardb (placed : list PlacedPiece) : bool :=
  distinctb string_dec (map id placed)
  && distinctb Coordinate_eq_dec (flat_map pieceCells placed)
  && forallb inGrid (flat_map pieceCells placed).

(** [Math.floor] of a quotient of integers, taken exactly. *)
Definition Math_floor (q : Q) : Z := Qfloor q.

(** [updateSize]: the cell size chosen for a section of the given client
    size; [portrait] is [window.innerHeight > window.innerWidth]. *)
Definition updateSize (portrait : bool) (containerWidth containerHeight : Z) : Z :=
  let isSmallScreen := containerWidth <? 768 in
  let totalHorizontalPadding := if isSmallScreen then (4 + 8) * 2 else (24 + 32) * 2 in
  let totalVerticalPadding := if isSmallScreen then (4 + 8) * 2 else (24 + 32) * 2 in
  let availableWidth := containerWidth - totalHorizontalPadding in
  let availableHeight := containerHeight - totalVerticalPadding in
  let cols := if portrait then GRID_ROWS else GRID_COLS in
  let rows := if portrait then GRID_COLS else GRID_ROWS in
  let maxW := (inject_Z (availableWidth - (cols - 1) * GRID_GAP) / inject_Z cols)%Q in
  let maxH := (inject_Z (availableHeight - (rows - 1) * GRID_GAP) / inject_Z rows)%Q in
  let newSize := Math_floor (Qmin maxW maxH) in
  Z.max 20 newSize.

(** [generateChallenge]: [response] is the parsed answer of the model, [None]
    when the request or the parsing raised; the answer is taken over with its
    rotation reduced by [% 360], the failure gives the static challenge. *)
Definition generateChallenge (response : option (list PlacedPiece)) : list PlacedPiece :=
  match response with
  | Some data =>
      map (fun p => mkPlacedPiece (id p) (px p) (py p) (Z.rem (rotation p) 360)
                                  (isFlipped p) None)
          data
  | None =>
      [ mkPlacedPiece "C" 1 1 0 false None;
        mkPlacedPiece "J" 6 2 270 true None;
        mkPlacedPiece "E" 9 0 180 false None ]
  end.

(** ** Placing pieces in order, as geometry

    What it means that pieces can be placed one after the other, each
    covering the first free cell of the grid, said of cells and shapes only:
    the shapes are turned by the transform as the specification words it, and
    neither the scan, nor the fit test, nor the cache of the solver is
    used. *)

(** [a] comes before [b] in reading order. *)
Definition readsBefore (a b : Coordinate) : Prop :=
  y a < y b \/ (y a = y b /\ x a < x b).

Definition readsBeforeb (a b : Coordinate) : bool :=
  (y a <? y b) || ((y a =? y b) && (x a <? x b)).

(** [e] is the first free cell of the grid in reading order. *)
Definition firstFree (occupied : Coordinate -> bool) (e : Coordinate) : Prop :=
  inGrid e = true /\ occupied e = false /\
  forall d, inGrid d = true -> readsBefore d e -> occupied d = true.

(** [cells] is the shape moved so that its first cell in reading order lies
    on [e]. *)
Definition anchoredAt (shape : list Coordinate) (e : Coordinate)
    (cells : list Coordinate) : Prop :=
  exists first,
    In first shape /\
    (forall c, In c shape -> c = first \/ readsBefore first c) /\
    cells = map (translate (x e - x first) (y e - y first)) shape.

(** The pieces with these ids can be placed in this order: each in one of its
    8 orientations, its first cell in reading order on the first free cell of
    the grid, all its cells on the grid and free; nothing is left to place
    once the grid is full. *)
Inductive placeable : (Coordinate -> bool) -> list string -> Prop :=
| placeable_none occupied :
    placeable occupied []
| placeable_full occupied ids :
    (forall d, inGrid d = true -> occupied d = true) ->
    placeable occupied ids
| placeable_piece occupied def isFlipped rotation e cells restIds :
    In def PIECE_DEFINITIONS ->
    In (isFlipped, rotation) orientations ->
    firstFree occupied e ->
    anchoredAt (transformSpec (initialShape def) rotation isFlipped) e cells ->
    (forall c, In c cells -> inGrid c = true /\ occupied c = false) ->
    placeable (fun d => occupied d || existsb (Coordinate_eqb d) cells) restIds ->
    placeable occupied (def_id def :: restIds).

(** The two lists hold the same cells. *)
Definition sameCells (a b : list Coordinate) : bool :=
  forallb (fun c => existsb (Coordinate_eqb c) b) a
  && forallb (fun c => existsb (Coordinate_eqb c) a) b.

(** The first cell of a shape in reading order. *)
Definition firstCell (shape : list Coordinate) : option Coordinate :=
  find (fun first => forallb (fun c => Coordinate_eqb c first || readsBeforeb first c) shape)
       shape.

(** The cache holds the orientation: one of the variations pushed for the
    piece has the cells of the turned shape, moved so that its first cell lies
    on (0, 0). *)
Definition orientationOkb (def : PieceDef) (o : bool * Z) : bool :=
  let shape := transformSpec (initialShape def) (snd o) (fst o) in
  match firstCell shape, pieceVariations def with
  | Some first, Returns pushed =>
      existsb (fun v => sameCells (coords v)
                                  (map (translate (- x first) (- y first)) shape))
              pushed
  | _, _ => false
  end.

Definition orientationsOkb : bool :=
  forallb (fun def => forallb (orientationOkb def) orientations) PIECE_DEFINITIONS.

(** A plan, one orientation for each id, places the pieces in order;
    [placeable], decided for the plan. *)
Fixpoint planOkb (occupied : Coordinate -> bool) (ids : list string)
    (plan : list (bool * Z)) : bool :=
  match ids with
  | [] => true
  | pieceId :: restIds =>
      match find (fun d => negb (occupied d)) gridCells with
      | None => true
      | Some e =>
          match plan, findDef pieceId with
          | o :: restPlan, Some def =>
              let shape := transformSpec (initialShape def) (snd o) (fst o) in
              match firstCell shape with
              | Some first =>
                  let cells := map (translate (x e - x first) (y e - y first)) shape in
                  existsb (fun o' => Bool.eqb (fst o') (fst o) && (snd o' =? snd o))
                          orientations
                  && forallb (fun d => negb (readsBeforeb d e) || occupied d) gridCells
                  && forallb (fun c => inGrid c && negb (occupied c)) cells
                  && planOkb (fun d => occupied d || existsb (Coordinate_eqb d) cells)
                             restIds restPlan
              | None => false
              end
          | _, _ => false
          end
      end
  end.

(** The condition on which [App] renders the completion message:
    [bankPieceIds.length === 0 && !loading]. *)
Definition completeShown (loading : bool) (placedPieces : list PlacedPiece)
    (dragState : option DragState) : bool :=
  Nat.eqb (List.length (bankPieceIds placedPieces dragState)) 0 && negb loading.
(** * Geometry *)

(** Case analysis on membership in an explicit list, one element at a time. *)
Ltac each_member H tac :=
  simpl in H; repeat (destruct H as [H|H]; [tac|]); try contradiction.

(** An id that differs from every id of an explicit list is not in it. *)
Ltac not_member :=
  let H := fresh "H" in
  intros H; simpl in H; repeat (destruct H as [H|H]; [discriminate H|]); exact H.

Lemma rotatePoint_iter (n : nat) (p : Coordinate) :
  rotatePoint p n = Nat.iter n quarterTurn p.
Proof.
  revert p; induction n as [|n IH]; intros p; [reflexivity|].
  simpl rotatePoint. rewrite IH. rewrite Nat.iter_succ_r. reflexivity.
Qed.

Lemma findDef_catalog (def : PieceDef) :
  In def PIECE_DEFINITIONS -> findDef (def_id def) = Some def.
Proof.
  intros H. unfold PIECE_DEFINITIONS in H.
  each_member H ltac:(subst def; reflexivity).
Qed.

Lemma find_id_none (pieceId : string) (defs : list PieceDef) :
  ~ In pieceId (map def_id defs) ->
  find (fun p => String.eqb (def_id p) pieceId) defs = None.
Proof.
  induction defs as [|d defs IH]; intros H; [reflexivity|].
  simpl. destruct (String.eqb_spec (def_id d) pieceId) as [E|E].
  - exfalso. apply H. left. exact E.
  - apply IH. intros HI. apply H. right. exact HI.
Qed.

Lemma findDef_unknown (pieceId : string) :
  ~ In pieceId catalogIds -> findDef pieceId = None.
Proof. apply find_id_none. Qed.

Lemma findDef_some (pieceId : string) (def : PieceDef) :
  findDef pieceId = Some def -> In def PIECE_DEFINITIONS /\ def_id def = pieceId.
Proof.
  intros H. apply find_some in H. destruct H as [H1 H2].
  split; [exact H1|]. apply String.eqb_eq. exact H2.
Qed.

Lemma rotationCount_quarter (rotation : Z) :
  In rotation rotations -> rotationCount rotation = Z.to_nat (rotation / 90).
Proof.
  intros H. each_member H ltac:(subst rotation; reflexivity).
Qed.

(** C5: for a catalog piece and a rotation among 0, 90, 180, 270,
    [getTransformedCoordinates] is the initial shape with [x] negated when
    flipped, then turned by [(x, y) -> (-y, x)] [rotation / 90] times, point
    by point and without any translation; for an id outside the catalog it is
    the empty list. *)
Theorem getTransformedCoordinates_spec
    (def : PieceDef) (rotation : Z) (isFlipped : bool) (unknownId : string) :
  In def PIECE_DEFINITIONS ->
  In rotation [0; 90; 180; 270] ->
  ~ In unknownId catalogIds ->
  getTransformedCoordinates (def_id def) rotation isFlipped
    = transformSpec (initialShape def) rotation isFlipped
  /\ (forall r f, getTransformedCoordinates unknownId r f = []).
Proof.
  intros Hdef Hrot Hunk. split.
  - unfold getTransformedCoordinates, transformSpec.
    rewrite (findDef_catalog def Hdef), map_map.
    rewrite (rotationCount_quarter rotation Hrot).
    apply map_ext. intros p. apply rotatePoint_iter.
  - intros r f. unfold getTransformedCoordinates.
    rewrite (findDef_unknown unknownId Hunk). reflexivity.
Qed.

Lemma getTransformedCoordinates_spec_witness :
  getTransformedCoordinates "L" 90 true = [pt 0 0; pt 0 (-1); pt (-1) 0]
  /\ getTransformedCoordinates "Z" 90 true = [].
Proof.
  destruct (getTransformedCoordinates_spec
              (mkPieceDef "L" "shadow-[0_0_15px_#ffffff] bg-[#ffffff] border-[#e0e0e0]"
                 [pt 0 0; pt 1 0; pt 0 1])
              90 true "Z") as [H1 H2].
  - left. reflexivity.
  - right. left. reflexivity.
  - not_member.
  - split.
    + simpl def_id in H1. rewrite H1. reflexivity.
    + apply H2.
Defined.

(** * Placement validation *)

Lemma outOfGrid_true (c : Coordinate) :
  outOfGrid (x c) (y c) = true <-> offGrid c.
Proof.
  unfold outOfGrid, offGrid.
  rewrite !orb_true_iff, !Z.ltb_lt, !Z.geb_le. intuition lia.
Qed.

Lemma wfBoard_cell (board : Board) (c : Coordinate) :
  wfBoard board -> ~ offGrid c ->
  exists row cell,
    nth_error board (Z.to_nat (y c)) = Some row /\
    nth_error row (Z.to_nat (x c)) = Some cell.
Proof.
  intros [Hrows Hcols] Hin. unfold offGrid, GRID_ROWS, GRID_COLS in *.
  destruct (nth_error board (Z.to_nat (y c))) as [row|] eqn:Erow.
  - rewrite Forall_forall in Hcols.
    pose proof (Hcols row (nth_error_In _ _ Erow)) as Hlen.
    destruct (nth_error row (Z.to_nat (x c))) as [cell|] eqn:Ecell.
    + exists row, cell. split; [reflexivity|exact Ecell].
    + apply nth_error_None in Ecell. lia.
  - apply nth_error_None in Erow. lia.
Qed.

Lemma cellNotNull_wf (board : Board) (c : Coordinate) :
  wfBoard board -> ~ offGrid c ->
  (cellNotNull board (y c) (x c) = Returns true /\ occupied board c) \/
  (cellNotNull board (y c) (x c) = Returns false /\ ~ occupied board c).
Proof.
  intros Hwf Hin.
  destruct (wfBoard_cell board c Hwf Hin) as (row & cell & Erow & Ecell).
  unfold cellNotNull. rewrite Erow, Ecell.
  destruct cell as [s|].
  - left. split; [reflexivity|]. exists row, s. split; assumption.
  - right. split; [reflexivity|].
    intros (row' & s & Erow' & Ecell'). congruence.
Qed.

Lemma checkCoords_wf (board : Board) (gridX gridY : Z) (cs : list Coordinate) :
  wfBoard board ->
  (checkCoords gridX gridY (Some board) cs = Returns false /\
   exists c, In c (map (translate gridX gridY) cs) /\ (offGrid c \/ occupied board c))
  \/
  (checkCoords gridX gridY (Some board) cs = Returns true /\
   forall c, In c (map (translate gridX gridY) cs) -> ~ offGrid c /\ ~ occupied board c).
Proof.
  intros Hwf. induction cs as [|coord rest IH].
  - right. split; [reflexivity|]. intros c [].
  - simpl checkCoords. simpl map.
    change (gridX + x coord) with (x (translate gridX gridY coord)).
    change (gridY + y coord) with (y (translate gridX gridY coord)).
    set (t := translate gridX gridY coord).
    destruct (outOfGrid (x t) (y t)) eqn:Eout.
    + left. split; [reflexivity|]. exists t. split; [left; reflexivity|].
      left. apply outOfGrid_true. exact Eout.
    + assert (Hin : ~ offGrid t).
      { intros H. apply outOfGrid_true in H. congruence. }
      destruct (cellNotNull_wf board t Hwf Hin) as [[E Hocc]|[E Hfree]]; rewrite E.
      * left. split; [reflexivity|]. exists t. split; [left; reflexivity|].
        right. exact Hocc.
      * destruct IH as [[E' (c & Hc & Hbad)]|[E' Hall]].
        -- left. split; [exact E'|]. exists c. split; [right; exact Hc|exact Hbad].
        -- right. split; [exact E'|]. intros c [Hc|Hc].
           ++ subst c. split; assumption.
           ++ apply Hall. exact Hc.
Qed.

(** C2: on a board of 5 rows of 11 cells, [isValidPlacement] returns false
    when some transformed cell, moved by the origin, is off the grid ([x < 0],
    [x >= 11], [y < 0] or [y >= 5]) or lies on a board cell that is not
    [null]; it returns true when no cell is. *)
Theorem isValidPlacement_spec
    (pieceId : string) (gridX gridY rotation : Z) (isFlipped : bool) (board : Board) :
  wfBoard board ->
  ((exists c, In c (targetCells pieceId gridX gridY rotation isFlipped) /\
              (offGrid c \/ occupied board c)) ->
   isValidPlacement pieceId gridX gridY rotation isFlipped (Some board) = Returns false)
  /\
  ((forall c, In c (targetCells pieceId gridX gridY rotation isFlipped) ->
              ~ offGrid c /\ ~ occupied board c) ->
   isValidPlacement pieceId gridX gridY rotation isFlipped (Some board) = Returns true).
Proof.
  intros Hwf. unfold isValidPlacement, targetCells.
  destruct (checkCoords_wf board gridX gridY
              (getTransformedCoordinates pieceId rotation isFlipped) Hwf)
    as [[E (c & Hc & Hbad)]|[E Hall]]; rewrite E; split.
  - intros _. reflexivity.
  - intros H. exfalso. destruct (H c Hc) as [H1 H2]. destruct Hbad; contradiction.
  - intros (c & Hc & Hbad). exfalso.
    destruct (Hall c Hc) as [H1 H2]. destruct Hbad; contradiction.
  - intros _. reflexivity.
Qed.

Lemma wfBoard_getBoardGrid_one :
  wfBoard (getBoardGrid [mkPlacedPiece "C" 1 1 0 false None]).
Proof.
  split; [reflexivity|]. vm_compute. repeat constructor.
Qed.

Lemma isValidPlacement_spec_witness :
  isValidPlacement "L" 2 2 90 false
    (Some (getBoardGrid [mkPlacedPiece "C" 1 1 0 false None])) = Returns false
  /\ isValidPlacement "L" 4 2 90 false
    (Some (getBoardGrid [mkPlacedPiece "C" 1 1 0 false None])) = Returns true.
Proof.
  split.
  - apply (isValidPlacement_spec "L" 2 2 90 false _ wfBoard_getBoardGrid_one).
    exists (pt 2 3). split.
    + right. left. reflexivity.
    + right. exists [None; Some "C"%string; Some "C"%string; None; None; None; None;
                     None; None; None; None], "C"%string.
      split; reflexivity.
  - apply (isValidPlacement_spec "L" 4 2 90 false _ wfBoard_getBoardGrid_one).
    intros c Hc. vm_compute in Hc.
    repeat (destruct Hc as [Hc|Hc];
            [subst c; split;
             [unfold offGrid, GRID_COLS, GRID_ROWS; simpl; lia
             |intros (row & s & Hr & Hs); vm_compute in Hr;
              injection Hr as <-; vm_compute in Hs; discriminate Hs]|]).
    contradiction.
Defined.

(** C9: the piece L, of initial shape (0,0), (1,0), (0,1), turned by 90
    degrees and not flipped: at origin (2,2) on the empty 5 by 11 board the
    placement is valid and its cells are the shape's points turned once by
    [(x, y) -> (-y, x)] and moved by (2,2); at origin (10,4) it is invalid. *)
Theorem isValidPlacement_L_scenario :
  findDef "L"
    = Some (mkPieceDef "L" "shadow-[0_0_15px_#ffffff] bg-[#ffffff] border-[#e0e0e0]"
              [pt 0 0; pt 1 0; pt 0 1])
  /\ getBoardGrid [] = emptyBoard
  /\ isValidPlacement "L" 2 2 90 false (Some emptyBoard) = Returns true
  /\ targetCells "L" 2 2 90 false
       = map (fun p => translate 2 2 (quarterTurn p)) [pt 0 0; pt 1 0; pt 0 1]
  /\ targetCells "L" 2 2 90 false = [pt 2 2; pt 2 3; pt 1 2]
  /\ isValidPlacement "L" 10 4 90 false (Some emptyBoard) = Returns false.
Proof. repeat split. Qed.

(** C10: for a piece id outside the catalog [isValidPlacement] returns true,
    whatever the origin, the rotation, the flip and the board:
    [getTransformedCoordinates] gives no cell, so no test can fail. *)
Theorem isValidPlacement_unknown_id
    (pieceId : string) (gridX gridY rotation : Z) (isFlipped : bool)
    (currentBoard : option Board) :
  ~ In pieceId catalogIds ->
  getTransformedCoordinates pieceId rotation isFlipped = []
  /\ isValidPlacement pieceId gridX gridY rotation isFlipped currentBoard = Returns true.
Proof.
  intros H. unfold isValidPlacement, getTransformedCoordinates.
  rewrite (findDef_unknown pieceId H). split; reflexivity.
Qed.

Lemma isValidPlacement_unknown_id_witness :
  isValidPlacement "Z" 40 (-7) 90 true (Some [[Some "L"%string]]) = Returns true.
Proof.
  apply (isValidPlacement_unknown_id "Z" 40 (-7) 90 true (Some [[Some "L"%string]])).
  not_member.
Defined.

(** * The occupancy grid *)

Lemma arraySet_length {A : Type} (hole : A) (l : list A) (i : nat) (v : A) :
  (i < List.length l)%nat -> List.length (arraySet hole l i v) = List.length l.
Proof.
  revert i; induction l as [|h t IH]; intros i Hi; simpl in Hi; [lia|].
  destruct i as [|i]; simpl; [reflexivity|].
  rewrite IH; [reflexivity|lia].
Qed.

Lemma arraySet_nth {A : Type} (hole : A) (l : list A) (i j : nat) (v d : A) :
  (i < List.length l)%nat ->
  nth j (arraySet hole l i v) d = if Nat.eqb j i then v else nth j l d.
Proof.
  revert i j; induction l as [|h t IH]; intros i j Hi; simpl in Hi; [lia|].
  destruct i as [|i], j as [|j]; simpl; try reflexivity.
  apply IH. lia.
Qed.

Lemma arraySet_Forall {A : Type} (P : A -> Prop) (hole : A) (l : list A) (i : nat) (v : A) :
  (i < List.length l)%nat -> Forall P l -> P v -> Forall P (arraySet hole l i v).
Proof.
  revert i; induction l as [|h t IH]; intros i Hi Hl Hv; simpl in Hi; [lia|].
  inversion Hl; subst.
  destruct i as [|i]; simpl; constructor; auto.
  apply IH; auto. lia.
Qed.

Lemma inGrid_bounds (c : Coordinate) :
  inGrid c = true <-> 0 <= x c < GRID_COLS /\ 0 <= y c < GRID_ROWS.
Proof.
  unfold inGrid. rewrite !andb_true_iff, !Z.geb_le, !Z.ltb_lt. intuition lia.
Qed.

Lemma inGrid_outOfGrid (c : Coordinate) :
  outOfGrid (x c) (y c) = negb (inGrid c).
Proof.
  unfold outOfGrid, inGrid.
  rewrite !negb_andb. rewrite !Z.geb_leb, !Z.ltb_antisym.
  rewrite !negb_involutive. reflexivity.
Qed.

Lemma wfGrid_row (grid : Grid) (row : nat) :
  wfGrid grid -> (row < Z.to_nat GRID_ROWS)%nat ->
  nth_error grid row = Some (nth row grid []) /\
  List.length (nth row grid []) = Z.to_nat GRID_COLS.
Proof.
  intros [Hrows Hcols] Hr.
  assert (E : nth_error grid row = Some (nth row grid [])).
  { apply nth_error_nth'. lia. }
  split; [exact E|].
  rewrite Forall_forall in Hcols. apply Hcols.
  apply nth_error_In with (n := row). exact E.
Qed.

Lemma readCell_wf (grid : Grid) (c : Coordinate) :
  wfGrid grid -> inGrid c = true ->
  readCell grid (Z.to_nat (y c)) (Z.to_nat (x c)) = Returns (cellAt grid c).
Proof.
  intros Hwf Hc. apply inGrid_bounds in Hc.
  destruct (wfGrid_row grid (Z.to_nat (y c)) Hwf) as [E _]; [lia|].
  unfold readCell, cellAt. rewrite E. reflexivity.
Qed.

Lemma readCell_nat (grid : Grid) (row col : nat) :
  wfGrid grid -> (row < Z.to_nat GRID_ROWS)%nat ->
  readCell grid row col = Returns (nth col (nth row grid []) false).
Proof.
  intros Hwf Hr. destruct (wfGrid_row grid row Hwf Hr) as [E _].
  unfold readCell. rewrite E. reflexivity.
Qed.

Lemma Coordinate_eqb_eq (a b : Coordinate) : Coordinate_eqb a b = true <-> a = b.
Proof.
  destruct a as [ax ay], b as [bx b_y]; unfold Coordinate_eqb; simpl.
  rewrite andb_true_iff, !Z.eqb_eq. split.
  - intros [-> ->]; reflexivity.
  - intros E; injection E; auto.
Qed.

Lemma existsb_Coordinate_In (d : Coordinate) (l : list Coordinate) :
  existsb (Coordinate_eqb d) l = true <-> In d l.
Proof.
  rewrite existsb_exists. split.
  - intros (c & Hc & E). apply Coordinate_eqb_eq in E. subst c. exact Hc.
  - intros H. exists d. split; [exact H|]. apply Coordinate_eqb_eq. reflexivity.
Qed.

Lemma coordinate_nat_eq (c d : Coordinate) :
  inGrid c = true -> inGrid d = true ->
  (Nat.eqb (Z.to_nat (y d)) (Z.to_nat (y c)) && Nat.eqb (Z.to_nat (x d)) (Z.to_nat (x c)))
  = Coordinate_eqb d c.
Proof.
  intros Hc Hd. apply inGrid_bounds in Hc, Hd. unfold Coordinate_eqb.
  rewrite andb_comm. f_equal.
  - destruct (Nat.eqb_spec (Z.to_nat (x d)) (Z.to_nat (x c))) as [E|E];
      destruct (Z.eqb_spec (x d) (x c)) as [E'|E']; try reflexivity; lia.
  - destruct (Nat.eqb_spec (Z.to_nat (y d)) (Z.to_nat (y c))) as [E|E];
      destruct (Z.eqb_spec (y d) (y c)) as [E'|E']; try reflexivity; lia.
Qed.

Lemma writeCell_wf (grid : Grid) (c : Coordinate) (v : bool) :
  wfGrid grid -> inGrid c = true ->
  exists grid',
    writeCell grid (Z.to_nat (y c)) (Z.to_nat (x c)) v = Returns grid' /\
    wfGrid grid' /\
    forall d, inGrid d = true ->
              cellAt grid' d = if Coordinate_eqb d c then v else cellAt grid d.
Proof.
  intros Hwf Hc. pose proof Hc as Hb. apply inGrid_bounds in Hb.
  destruct (wfGrid_row grid (Z.to_nat (y c)) Hwf) as [E Hlen]; [lia|].
  destruct Hwf as [Hrows Hcols].
  unfold writeCell. rewrite E. eexists. split; [reflexivity|]. split.
  - split.
    + rewrite arraySet_length; [exact Hrows|lia].
    + apply arraySet_Forall; [lia|exact Hcols|].
      rewrite arraySet_length; [exact Hlen|lia].
  - intros d Hd. unfold cellAt.
    rewrite <- (coordinate_nat_eq c d Hc Hd).
    rewrite arraySet_nth; [|lia].
    destruct (Nat.eqb_spec (Z.to_nat (y d)) (Z.to_nat (y c))) as [Ey|Ey]; simpl.
    + rewrite arraySet_nth; [|lia]. rewrite Ey. reflexivity.
    + reflexivity.
Qed.

Lemma markCells_wf (emptyX emptyY : Z) (v : bool) (cs : list Coordinate) (grid : Grid) :
  wfGrid grid ->
  (forall c, In c (map (translate emptyX emptyY) cs) -> inGrid c = true) ->
  exists grid',
    markCells grid emptyX emptyY cs v = Returns grid' /\
    wfGrid grid' /\
    forall d, inGrid d = true ->
              cellAt grid' d =
              if existsb (Coordinate_eqb d) (map (translate emptyX emptyY) cs)
              then v else cellAt grid d.
Proof.
  unfold markCells. revert grid. induction cs as [|c rest IH]; intros grid Hwf Hin.
  - exists grid. simpl. auto.
  - simpl map in Hin. simpl forEach.
    assert (Hc : inGrid (translate emptyX emptyY c) = true) by (apply Hin; left; reflexivity).
    destruct (writeCell_wf grid (translate emptyX emptyY c) v Hwf Hc)
      as (g1 & E1 & Hwf1 & Hget1).
    simpl x in E1; simpl y in E1. rewrite E1.
    destruct (IH g1 Hwf1) as (g2 & E2 & Hwf2 & Hget2).
    { intros d Hd. apply Hin. right. exact Hd. }
    exists g2. split; [exact E2|]. split; [exact Hwf2|].
    intros d Hd. rewrite (Hget2 d Hd), (Hget1 d Hd). simpl map. simpl existsb.
    destruct (existsb (Coordinate_eqb d) (map (translate emptyX emptyY) rest));
      destruct (Coordinate_eqb d (translate emptyX emptyY c)); reflexivity.
Qed.

Lemma fits_wf (emptyX emptyY : Z) (cs : list Coordinate) (grid : Grid) :
  wfGrid grid ->
  fits grid emptyX emptyY cs = Returns false \/
  (fits grid emptyX emptyY cs = Returns true /\
   forall c, In c (map (translate emptyX emptyY) cs) ->
             inGrid c = true /\ cellAt grid c = false).
Proof.
  intros Hwf. induction cs as [|c rest IH].
  - right. split; [reflexivity|]. intros c [].
  - simpl fits. simpl map.
    change (emptyX + x c) with (x (translate emptyX emptyY c)).
    change (emptyY + y c) with (y (translate emptyX emptyY c)).
    set (t := translate emptyX emptyY c).
    rewrite inGrid_outOfGrid.
    destruct (inGrid t) eqn:Ein; cbn [negb]; [|left; reflexivity].
    rewrite (readCell_wf grid t Hwf Ein).
    destruct (cellAt grid t) eqn:Ecell; [left; reflexivity|].
    destruct IH as [IH|[IH Hall]]; [left; exact IH|].
    right. split; [exact IH|].
    intros d [Hd|Hd]; [subst d; split; assumption|apply Hall; exact Hd].
Qed.

Lemma grid_ext (g g' : Grid) :
  wfGrid g -> wfGrid g' ->
  (forall d, inGrid d = true -> cellAt g d = cellAt g' d) -> g = g'.
Proof.
  intros Hwf Hwf' Hget.
  pose proof Hwf as [Hrows Hcols]. pose proof Hwf' as [Hrows' Hcols'].
  apply nth_ext with (d := []) (d' := []); [congruence|].
  intros r Hr. rewrite Hrows in Hr.
  destruct (wfGrid_row g r Hwf Hr) as [_ Hl].
  destruct (wfGrid_row g' r Hwf' Hr) as [_ Hl'].
  apply nth_ext with (d := false) (d' := false); [congruence|].
  intros c Hc. rewrite Hl in Hc.
  specialize (Hget (pt (Z.of_nat c) (Z.of_nat r))).
  unfold cellAt in Hget. simpl in Hget. rewrite !Nat2Z.id in Hget.
  apply Hget. apply inGrid_bounds. unfold GRID_COLS, GRID_ROWS in *. simpl. lia.
Qed.

(** Placing a variation that fits and clearing it again gives the grid
    back. *)
Lemma markCells_undo (emptyX emptyY : Z) (cs : list Coordinate) (grid placed : Grid) :
  wfGrid grid ->
  fits grid emptyX emptyY cs = Returns true ->
  markCells grid emptyX emptyY cs true = Returns placed ->
  markCells placed emptyX emptyY cs false = Returns grid.
Proof.
  intros Hwf Hfits Hmark.
  destruct (fits_wf emptyX emptyY cs grid Hwf) as [E|[_ Hall]]; [congruence|].
  destruct (markCells_wf emptyX emptyY true cs grid Hwf) as (g1 & E1 & Hwf1 & Hget1).
  { intros c Hc. apply Hall. exact Hc. }
  rewrite E1 in Hmark. injection Hmark as <-.
  destruct (markCells_wf emptyX emptyY false cs g1 Hwf1) as (g2 & E2 & Hwf2 & Hget2).
  { intros c Hc. apply Hall. exact Hc. }
  rewrite E2. f_equal. apply grid_ext; [exact Hwf2|exact Hwf|].
  intros d Hd. rewrite (Hget2 d Hd), (Hget1 d Hd).
  destruct (existsb (Coordinate_eqb d) (map (translate emptyX emptyY) cs)) eqn:Ex;
    [|reflexivity].
  apply existsb_Coordinate_In in Ex. symmetry. apply Hall. exact Ex.
Qed.

Lemma scanRow_none (grid : Grid) (row : nat) (cols : list nat) :
  wfGrid grid -> (row < Z.to_nat GRID_ROWS)%nat ->
  scanRow grid row cols = Returns None ->
  forall col, In col cols -> nth col (nth row grid []) false = true.
Proof.
  intros Hwf Hr. induction cols as [|c rest IH]; intros H col Hin; [destruct Hin|].
  simpl in H. rewrite (readCell_nat grid row c Hwf Hr) in H.
  destruct (nth c (nth row grid []) false) eqn:E; [|discriminate H].
  destruct Hin as [->|Hin]; [exact E|]. apply IH; assumption.
Qed.

Lemma scanRows_none (grid : Grid) (rows : list nat) :
  wfGrid grid -> (forall row, In row rows -> (row < Z.to_nat GRID_ROWS)%nat) ->
  scanRows grid rows = Returns None ->
  forall row col, In row rows -> In col (seq 0 (Z.to_nat GRID_COLS)) ->
                  nth col (nth row grid []) false = true.
Proof.
  intros Hwf. induction rows as [|r rest IH]; intros Hlt H row col Hrow Hcol;
    [destruct Hrow|].
  cbn [scanRows] in H.
  destruct (scanRow grid r (seq 0 (Z.to_nat GRID_COLS))) as [[found|]| |] eqn:E;
    try discriminate H.
  destruct Hrow as [->|Hrow].
  - apply (scanRow_none grid row (seq 0 (Z.to_nat GRID_COLS)) Hwf);
      [apply Hlt; left; reflexivity|exact E|exact Hcol].
  - apply IH; try assumption. intros r' Hr'. apply Hlt. right. exact Hr'.
Qed.

(** When the scan finds no empty cell, every cell of the grid is occupied. *)
Lemma findEmpty_none (grid : Grid) :
  wfGrid grid -> findEmpty grid = Returns None ->
  forall d, inGrid d = true -> cellAt grid d = true.
Proof.
  intros Hwf H d Hd. apply inGrid_bounds in Hd. unfold cellAt.
  apply (scanRows_none grid (seq 0 (Z.to_nat GRID_ROWS)) Hwf).
  - intros row Hrow. apply in_seq in Hrow. lia.
  - exact H.
  - apply in_seq. unfold GRID_ROWS in *. lia.
  - apply in_seq. unfold GRID_COLS in *. lia.
Qed.

Lemma distinctb_NoDup {A : Type} (dec : forall a b : A, {a = b} + {a <> b}) (l : list A) :
  distinctb dec l = true -> NoDup l.
Proof.
  induction l as [|a rest IH]; intros H; [constructor|].
  simpl in H. apply andb_true_iff in H. destruct H as [H1 H2].
  constructor; [|apply IH; exact H2].
  destruct (in_dec dec a rest); [discriminate H1|assumption].
Qed.

Lemma gridCells_In (c : Coordinate) : In c gridCells <-> inGrid c = true.
Proof.
  rewrite inGrid_bounds. unfold gridCells. rewrite in_flat_map. split.
  - intros (row & Hrow & Hc). apply in_map_iff in Hc. destruct Hc as (col & E & Hcol).
    apply in_seq in Hrow, Hcol. subst c. unfold GRID_COLS, GRID_ROWS in *. simpl. lia.
  - intros [Hx Hy]. exists (Z.to_nat (y c)). unfold GRID_COLS, GRID_ROWS in *. split.
    + apply in_seq. lia.
    + apply in_map_iff. exists (Z.to_nat (x c)). split.
      * destruct c as [cx cy]. unfold pt. simpl in *. f_equal; lia.
      * apply in_seq. lia.
Qed.

Lemma gridCells_NoDup : NoDup gridCells.
Proof. apply (distinctb_NoDup Coordinate_eq_dec). vm_compute. reflexivity. Qed.

Lemma gridCells_length : List.length gridCells = 55%nat.
Proof. reflexivity. Qed.

Lemma emptyGrid_wf : wfGrid emptyGrid.
Proof. split; [reflexivity|]. vm_compute. repeat constructor. Qed.

Lemma emptyGrid_cell (d : Coordinate) : inGrid d = true -> cellAt emptyGrid d = false.
Proof.
  intros Hd. apply gridCells_In in Hd.
  assert (H : forallb (fun c => negb (cellAt emptyGrid c)) gridCells = true)
    by (vm_compute; reflexivity).
  rewrite forallb_forall in H. apply negb_true_iff. apply H. exact Hd.
Qed.

(** * Sorting, normalizing and the variations of the catalog *)

Lemma insertSorted_perm (c : Coordinate) (sorted : list Coordinate) :
  Permutation (insertSorted c sorted) (c :: sorted).
Proof.
  induction sorted as [|h t IH]; simpl; [apply Permutation_refl|].
  destruct (compareYX c h <? 0); [apply Permutation_refl|].
  apply perm_trans with (h :: c :: t); [apply perm_skip; exact IH|apply perm_swap].
Qed.

Lemma sortYX_perm (l : list Coordinate) : Permutation (sortYX l) l.
Proof.
  unfold sortYX.
  assert (H : forall acc,
             Permutation (fold_left (fun sorted c => insertSorted c sorted) l acc)
                         (l ++ acc)).
  { induction l as [|c rest IH]; intros acc; simpl; [apply Permutation_refl|].
    eapply perm_trans; [apply IH|].
    eapply perm_trans; [apply Permutation_app_head; apply insertSorted_perm|].
    apply Permutation_sym. apply Permutation_middle. }
  specialize (H []). rewrite app_nil_r in H. exact H.
Qed.

Lemma catalogVariations_checked : catalogVariationsOkb = true.
Proof. vm_compute. reflexivity. Qed.

Lemma variationOkb_facts (def : PieceDef) (v : PieceVariation) :
  variationOkb def v = true ->
  normalizeCoords (getTransformedCoordinates (def_id def) (var_rotation v) (var_isFlipped v))
    = Returns (coords v)
  /\ NoDup (coords v)
  /\ List.length (coords v) = List.length (initialShape def).
Proof.
  unfold variationOkb. rewrite !andb_true_iff. intros [[H1 H2] H3].
  split; [|split].
  - destruct (normalizeCoords _) as [n| |]; try discriminate H1.
    unfold coordsEqb in H1. destruct (list_eq_dec Coordinate_eq_dec n (coords v));
      [subst; reflexivity|discriminate H1].
  - apply (distinctb_NoDup Coordinate_eq_dec). exact H2.
  - apply Nat.eqb_eq. exact H3.
Qed.

Lemma cacheOkb_checked : forallb cacheOkb PIECE_DEFINITIONS = true.
Proof. vm_compute. reflexivity. Qed.

(** The table that the [forEach] over a list of definitions builds. *)
Lemma forEach_table
    (sortRandom : string -> list PieceVariation -> list PieceVariation)
    (defs : list PieceDef) :
  forall (table0 table : VariationTable),
    forEach
      (fun (table : VariationTable) piece =>
         match pieceVariations piece with
         | Returns variations =>
             Returns (fun key => if String.eqb key (def_id piece)
                                 then Some (sortRandom (def_id piece) variations)
                                 else table key)
         | Throws => Throws
         | Unfinished => Unfinished
         end) defs table0 = Returns table ->
    (forall key, ~ In key (map def_id defs) -> table key = table0 key) /\
    (NoDup (map def_id defs) ->
     forall def, In def defs ->
       exists variations,
         pieceVariations def = Returns variations /\
         table (def_id def) = Some (sortRandom (def_id def) variations)).
Proof.
  induction defs as [|d rest IH]; intros table0 table H.
  - simpl in H. injection H as <-. split; [reflexivity|]. intros _ def [].
  - cbn [forEach] in H.
    destruct (pieceVariations d) as [vs| |] eqn:Evs; try discriminate H.
    destruct (IH _ _ H) as [Hout Hin]. split.
    + intros key Hkey. rewrite Hout.
      * destruct (String.eqb_spec key (def_id d)) as [E|E]; [|reflexivity].
        exfalso. apply Hkey. left. symmetry. exact E.
      * intros Hk. apply Hkey. right. exact Hk.
    + intros Hnd def Hdef. simpl in Hnd. inversion Hnd as [|? ? Hnotin Hnd']; subst.
      destruct Hdef as [->|Hdef].
      * exists vs. split; [exact Evs|].
        rewrite (Hout _ Hnotin). rewrite String.eqb_refl. reflexivity.
      * apply Hin; assumption.
Qed.

Lemma catalogIds_NoDup : NoDup catalogIds.
Proof.
  unfold catalogIds. simpl.
  repeat (constructor; [simpl; intros H;
                        repeat (destruct H as [H|H]; [discriminate H|]); exact H|]).
  constructor.
Qed.

Lemma catalogIds_In (pieceId : string) :
  In pieceId catalogIds ->
  exists def, In def PIECE_DEFINITIONS /\ def_id def = pieceId.
Proof.
  intros H. apply in_map_iff in H. destruct H as (def & E & Hd).
  exists def. split; assumption.
Qed.

Lemma totalSize_perm (a b : list string) :
  Permutation a b -> totalSize a = totalSize b.
Proof.
  unfold totalSize. induction 1; simpl; lia.
Qed.

Lemma totalSize_catalog : totalSize catalogIds = 55%nat.
Proof. reflexivity. Qed.

Lemma sizeOf_catalog (pieceId : string) :
  In pieceId catalogIds -> (3 <= sizeOf pieceId)%nat.
Proof.
  intros H. unfold catalogIds in H.
  each_member H ltac:(subst pieceId; vm_compute; lia).
Qed.

Lemma removeOne_perm (s : string) (l l' : list string) :
  removeOne s l = Some l' -> Permutation l (s :: l').
Proof.
  revert l'. induction l as [|h t IH]; intros l' H; [discriminate H|].
  simpl in H. destruct (String.eqb_spec s h) as [E|E].
  - injection H as <-. subst h. apply Permutation_refl.
  - destruct (removeOne s t) as [t'|]; [|discriminate H].
    injection H as <-. apply perm_trans with (h :: s :: t').
    + apply perm_skip. apply IH. reflexivity.
    + apply perm_swap.
Qed.

Lemma isPermutation_sound (a b : list string) :
  isPermutation a b = true -> Permutation a b.
Proof.
  revert b. induction a as [|h t IH]; intros b H.
  - destruct b; [constructor|discriminate H].
  - simpl in H. destruct (removeOne h b) as [b'|] eqn:E; [|discriminate H].
    apply perm_trans with (h :: b').
    + apply perm_skip. apply IH. exact H.
    + apply Permutation_sym. apply removeOne_perm. exact E.
Qed.

(** * Replaying a record *)

(** The record built for a variation replays to the cells the search set:
    the stored origin undoes the shift of the normalization. *)
Lemma placedRecord_replay (pieceId : string) (emptyX emptyY : Z)
    (v : PieceVariation) (piece : PlacedPiece) :
  normalizeCoords (getTransformedCoordinates pieceId (var_rotation v) (var_isFlipped v))
    = Returns (coords v) ->
  placedRecord pieceId emptyX emptyY v = Returns piece ->
  id piece = pieceId /\ rotation piece = var_rotation v /\
  isFlipped piece = var_isFlipped v /\ isLocked piece = Some true /\
  Permutation (pieceCells piece) (map (translate emptyX emptyY) (coords v)).
Proof.
  unfold normalizeCoords, placedRecord. intros Hnorm Hrec.
  pose proof (sortYX_perm
                (getTransformedCoordinates pieceId (var_rotation v) (var_isFlipped v)))
    as Hperm.
  destruct (sortYX _) as [|anchor tl]; [discriminate Hrec|].
  injection Hrec as <-. injection Hnorm as Hnorm.
  repeat split. unfold pieceCells. simpl. rewrite <- Hnorm.
  change (mkCoordinate (x anchor - x anchor) (y anchor - y anchor)
            :: map (fun c => mkCoordinate (x c - x anchor) (y c - y anchor)) tl)
    with (map (fun c => mkCoordinate (x c - x anchor) (y c - y anchor)) (anchor :: tl)).
  rewrite map_map.
  eapply perm_trans.
  - apply Permutation_map. apply Permutation_sym. exact Hperm.
  - erewrite map_ext; [apply Permutation_refl|].
    intros c. unfold translate. simpl. f_equal; lia.
Qed.

Lemma placedRecord_id (pieceId : string) (emptyX emptyY : Z) (v : PieceVariation)
    (piece : PlacedPiece) :
  placedRecord pieceId emptyX emptyY v = Returns piece -> id piece = pieceId.
Proof.
  unfold placedRecord. destruct (sortYX _); [discriminate|].
  intros H. injection H as <-. reflexivity.
Qed.

Lemma translate_NoDup (dx dy : Z) (l : list Coordinate) :
  NoDup l -> NoDup (map (translate dx dy) l).
Proof.
  induction 1 as [|c l Hc Hl IH]; simpl; constructor; [|exact IH].
  intros Hin. apply in_map_iff in Hin. destruct Hin as (d & E & Hd).
  assert (d = c).
  { destruct c as [cx cy], d as [d_x d_y]. unfold translate in E. simpl in E.
    injection E as E1 E2. f_equal; lia. }
  subst d. contradiction.
Qed.

Lemma NoDup_app_disjoint {A : Type} (l1 l2 : list A) (a : A) :
  NoDup (l1 ++ l2) -> In a l1 -> ~ In a l2.
Proof.
  induction l1 as [|h t IH]; intros Hnd Hin; [destruct Hin|].
  simpl in Hnd. inversion Hnd as [|? ? Hnotin Hnd']; subst.
  destruct Hin as [->|Hin].
  - intros H2. apply Hnotin. apply in_or_app. right. exact H2.
  - apply IH; assumption.
Qed.

Lemma NoDup_flat_map_disjoint (l : list PlacedPiece) :
  NoDup (flat_map pieceCells l) -> ForallOrdPairs disjointCells l.
Proof.
  induction l as [|p rest IH]; intros Hnd; [constructor|].
  simpl in Hnd. constructor.
  - apply Forall_forall. intros q Hq c Hc Hc'.
    apply (NoDup_app_disjoint _ _ c Hnd Hc).
    apply in_flat_map. exists q. split; assumption.
  - apply IH. apply NoDup_app_remove_l in Hnd. exact Hnd.
Qed.

Lemma stepOk_replay (steps : list (PlacedPiece * list Coordinate)) :
  Forall stepOk steps ->
  Permutation (flat_map pieceCells (map fst steps)) (markedCells steps).
Proof.
  unfold markedCells. induction 1 as [|step steps Hstep _ IH]; simpl; [constructor|].
  apply Permutation_app; [apply Hstep|exact IH].
Qed.

Lemma stepOk_length (steps : list (PlacedPiece * list Coordinate)) :
  Forall stepOk steps ->
  List.length (markedCells steps) = totalSize (map (fun step => id (fst step)) steps).
Proof.
  unfold markedCells, totalSize. induction 1 as [|step steps Hstep _ IH]; simpl; [reflexivity|].
  rewrite length_app, IH. destruct Hstep as (_ & _ & Hlen & _). rewrite Hlen. reflexivity.
Qed.

(** * Loops that end *)

Lemma readCell_finished (grid : Grid) (row col : nat) :
  readCell grid row col <> Unfinished.
Proof. unfold readCell. destruct (nth_error grid row); discriminate. Qed.

Lemma writeCell_finished (grid : Grid) (row col : nat) (v : bool) :
  writeCell grid row col v <> Unfinished.
Proof. unfold writeCell. destruct (nth_error grid row); discriminate. Qed.

Lemma scanRow_finished (grid : Grid) (row : nat) (cols : list nat) :
  scanRow grid row cols <> Unfinished.
Proof.
  induction cols as [|c rest IH]; simpl; [discriminate|].
  pose proof (readCell_finished grid row c) as H.
  destruct (readCell grid row c) as [[|]| |]; try discriminate; auto.
Qed.

Lemma findEmpty_finished (grid : Grid) : findEmpty grid <> Unfinished.
Proof.
  unfold findEmpty. induction (seq 0 (Z.to_nat GRID_ROWS)) as [|r rest IH];
    cbn [scanRows]; [discriminate|].
  pose proof (scanRow_finished grid r (seq 0 (Z.to_nat GRID_COLS))) as H.
  destruct (scanRow grid r (seq 0 (Z.to_nat GRID_COLS))) as [[c|]| |];
    try discriminate; auto.
Qed.

Lemma fits_finished (grid : Grid) (emptyX emptyY : Z) (cs : list Coordinate) :
  fits grid emptyX emptyY cs <> Unfinished.
Proof.
  induction cs as [|c rest IH]; simpl; [discriminate|].
  destruct (outOfGrid (emptyX + x c) (emptyY + y c)); [discriminate|].
  pose proof (readCell_finished grid (Z.to_nat (emptyY + y c)) (Z.to_nat (emptyX + x c)))
    as H.
  destruct (readCell grid _ _) as [[|]| |]; try discriminate; auto.
Qed.

Lemma markCells_finished (emptyX emptyY : Z) (v : bool) (cs : list Coordinate) :
  forall grid, markCells grid emptyX emptyY cs v <> Unfinished.
Proof.
  unfold markCells. induction cs as [|c rest IH]; intros grid; simpl; [discriminate|].
  pose proof (writeCell_finished grid (Z.to_nat (emptyY + y c))
                (Z.to_nat (emptyX + x c)) v) as H.
  destruct (writeCell grid _ _ v) as [g| |]; try discriminate; auto.
Qed.

Lemma placedRecord_finished (pieceId : string) (emptyX emptyY : Z) (v : PieceVariation) :
  placedRecord pieceId emptyX emptyY v <> Unfinished.
Proof. unfold placedRecord. destruct (sortYX _); discriminate. Qed.

(** The loop over the variations of one piece ends when every recursive call
    it makes does: the list of variations is finite. *)
Lemma tryVariations_finished (recurse : Grid -> outcome SolverResult)
    (pieceId : string) (emptyX emptyY : Z) (variations : list PieceVariation) :
  (forall placed, recurse placed <> Unfinished) ->
  forall grid, tryVariations recurse pieceId emptyX emptyY variations grid <> Unfinished.
Proof.
  intros Hrec. induction variations as [|v others IH]; intros grid;
    cbn [tryVariations]; [discriminate|].
  pose proof (fits_finished grid emptyX emptyY (coords v)) as Hfits.
  destruct (fits grid emptyX emptyY (coords v)) as [[|]| |]; try discriminate; auto.
  pose proof (markCells_finished emptyX emptyY true (coords v) grid) as Hmark.
  destruct (markCells grid emptyX emptyY (coords v) true) as [placed| |];
    try discriminate; auto.
  pose proof (Hrec placed) as Hr.
  destruct (recurse placed) as [[[result|] final]| |]; try discriminate; auto.
  - pose proof (placedRecord_finished pieceId emptyX emptyY v) as Hp.
    destruct (placedRecord pieceId emptyX emptyY v); try discriminate; auto.
  - pose proof (markCells_finished emptyX emptyY false (coords v) final) as Hclear.
    destruct (markCells final emptyX emptyY (coords v) false) as [cleared| |];
      try discriminate; auto.
Qed.

Lemma tryVariations_ext (r1 r2 : Grid -> outcome SolverResult)
    (pieceId : string) (emptyX emptyY : Z) (variations : list PieceVariation) :
  (forall placed, r1 placed = r2 placed) ->
  forall grid,
    tryVariations r1 pieceId emptyX emptyY variations grid
    = tryVariations r2 pieceId emptyX emptyY variations grid.
Proof.
  intros Hext. induction variations as [|v others IH]; intros grid;
    cbn [tryVariations]; [reflexivity|].
  destruct (fits grid emptyX emptyY (coords v)) as [[|]| |]; auto.
  destruct (markCells grid emptyX emptyY (coords v) true) as [placed| |]; auto.
  rewrite Hext.
  destruct (r2 placed) as [[[result|] final]| |]; auto.
  destruct (markCells final emptyX emptyY (coords v) false) as [cleared| |]; auto.
Qed.

(** * The search, for a given table *)

Section Search.

Variable table : VariationTable.

Lemma solveRecursively_eq (grid : Grid) (ids : list string) :
  solveRecursively table grid ids
  = solveBody table (fun restIds placed => solveRecursively table placed restIds) grid ids.
Proof. destruct ids; reflexivity. Qed.

Lemma tryVariations_inv (recurse : Grid -> outcome SolverResult)
    (pieceId : string) (restIds : list string) (emptyX emptyY : Z)
    (variations : list PieceVariation) (grid : Grid) :
  wfGrid grid ->
  findEmpty grid = Returns (Some (emptyX, emptyY)) ->
  table pieceId = Some variations ->
  (forall placed, wfGrid placed -> solveInv table placed restIds (recurse placed)) ->
  forall vs, incl vs variations ->
    solveInv table grid (pieceId :: restIds)
      (tryVariations recurse pieceId emptyX emptyY vs grid).
Proof.
  intros Hwf Hempty Htable Hrec. induction vs as [|v others IH]; intros Hincl.
  - reflexivity.
  - assert (Hothers : incl others variations).
    { intros w Hw. apply Hincl. right. exact Hw. }
    simpl tryVariations.
    destruct (fits_wf emptyX emptyY (coords v) grid Hwf) as [Efits|[Efits Hall]];
      rewrite Efits; [apply IH; exact Hothers|].
    destruct (markCells_wf emptyX emptyY true (coords v) grid Hwf)
      as (placed & Emark & Hwfp & _).
    { intros c Hc. apply Hall. exact Hc. }
    rewrite Emark. specialize (Hrec placed Hwfp).
    destruct (recurse placed) as [[[result|] final]| |]; simpl in Hrec; try exact I.
    + destruct Hrec as (steps & Hpath & Hsteps).
      destruct (placedRecord pieceId emptyX emptyY v) as [piece| |] eqn:Epiece;
        try exact I.
      simpl. exists ((piece, map (translate emptyX emptyY) (coords v)) :: steps).
      split; [|simpl; rewrite Hsteps; reflexivity].
      eapply path_place; eauto. apply Hincl. left. reflexivity.
    + subst final.
      rewrite (markCells_undo emptyX emptyY (coords v) grid placed Hwf Efits Emark).
      apply IH. exact Hothers.
Qed.

Lemma solveRecursively_inv (ids : list string) :
  forall grid, wfGrid grid -> solveInv table grid ids (solveRecursively table grid ids).
Proof.
  induction ids as [|pieceId restIds IH]; intros grid Hwf.
  - simpl. exists []. split; [constructor|reflexivity].
  - rewrite solveRecursively_eq. unfold solveBody.
    destruct (findEmpty grid) as [[[emptyX emptyY]|]| |] eqn:Eempty; try exact I.
    + destruct (table pieceId) as [variations|] eqn:Etable; [|exact I].
      apply (tryVariations_inv _ pieceId restIds emptyX emptyY variations grid);
        auto using incl_refl.
    + simpl. exists []. split; [apply path_full; exact Eempty|reflexivity].
Qed.

Lemma solveRecursively_finished (ids : list string) :
  forall grid, solveRecursively table grid ids <> Unfinished.
Proof.
  induction ids as [|pieceId restIds IH]; intros grid; [discriminate|].
  rewrite solveRecursively_eq. unfold solveBody.
  pose proof (findEmpty_finished grid) as He.
  destruct (findEmpty grid) as [[[emptyX emptyY]|]| |]; try discriminate; auto.
  destruct (table pieceId) as [variations|]; [|discriminate].
  apply tryVariations_finished. exact IH.
Qed.

Lemma solveRecursivelyFuel_enough (ids : list string) :
  forall fuel grid,
    (List.length ids < fuel)%nat ->
    solveRecursivelyFuel table fuel grid ids = solveRecursively table grid ids.
Proof.
  induction ids as [|pieceId restIds IH]; intros fuel grid Hfuel;
    (destruct fuel as [|fuel]; [inversion Hfuel|]).
  - reflexivity.
  - cbn [solveRecursivelyFuel]. rewrite solveRecursively_eq. unfold solveBody.
    destruct (findEmpty grid) as [[[emptyX emptyY]|]| |]; auto.
    destruct (table pieceId) as [variations|]; auto.
    apply tryVariations_ext. intros placed. apply IH. simpl in Hfuel. lia.
Qed.

Lemma searchPath_cells (grid final : Grid) (ids : list string)
    (steps : list (PlacedPiece * list Coordinate)) :
  searchPath table grid ids steps final -> Forall stepOk steps -> wfGrid grid ->
  wfGrid final /\
  (forall d, inGrid d = true ->
             cellAt final d
             = cellAt grid d || existsb (Coordinate_eqb d) (markedCells steps)) /\
  (forall c, In c (markedCells steps) -> inGrid c = true /\ cellAt grid c = false) /\
  NoDup (markedCells steps).
Proof.
  induction 1 as [grid|grid ids Hfull|grid pieceId restIds emptyX emptyY variations v placed
                  piece steps final Hempty Htable Hv Hfits Hmark Hrec Hpath IH];
    intros Hok Hwf.
  - split; [exact Hwf|]. split; [|split; [intros c []|constructor]].
    intros d _. simpl. rewrite orb_false_r. reflexivity.
  - split; [exact Hwf|]. split; [|split; [intros c []|constructor]].
    intros d _. simpl. rewrite orb_false_r. reflexivity.
  - inversion Hok as [|? ? Hstep Hok']; subst.
    destruct (fits_wf emptyX emptyY (coords v) grid Hwf) as [E|[_ Hall]]; [congruence|].
    destruct (markCells_wf emptyX emptyY true (coords v) grid Hwf)
      as (placed' & Emark & Hwfp & Hget).
    { intros c Hc. apply Hall. exact Hc. }
    rewrite Emark in Hmark. injection Hmark as ->.
    destruct (IH Hok' Hwfp) as (Hwff & Hfinal & Hfree & Hnd).
    unfold markedCells in *. cbn [List.concat map snd].
    set (cells := map (translate emptyX emptyY) (coords v)) in *.
    split; [exact Hwff|]. split; [|split].
    + intros d Hd. rewrite (Hfinal d Hd), (Hget d Hd), existsb_app.
      destruct (existsb (Coordinate_eqb d) cells); simpl; [|reflexivity].
      rewrite orb_true_r. reflexivity.
    + intros c Hc. apply in_app_or in Hc. destruct Hc as [Hc|Hc]; [apply Hall; exact Hc|].
      destruct (Hfree c Hc) as [Hin Hcell]. split; [exact Hin|].
      rewrite (Hget c Hin) in Hcell.
      destruct (existsb (Coordinate_eqb c) cells); [discriminate Hcell|exact Hcell].
    + apply NoDup_app; [apply Hstep|exact Hnd|].
      intros c Hc Hc'. destruct (Hfree c Hc') as [Hin Hcell].
      rewrite (Hget c Hin) in Hcell.
      apply existsb_Coordinate_In in Hc. rewrite Hc in Hcell. discriminate Hcell.
Qed.

(** The records follow the order of the piece ids; the search stops early
    only on a full grid. *)
Lemma searchPath_ids (grid final : Grid) (ids : list string)
    (steps : list (PlacedPiece * list Coordinate)) :
  searchPath table grid ids steps final ->
  exists rest,
    ids = map (fun step => id (fst step)) steps ++ rest /\
    (rest = [] \/ findEmpty final = Returns None).
Proof.
  induction 1 as [grid|grid ids Hfull|grid pieceId restIds emptyX emptyY variations v placed
                  piece steps final Hempty Htable Hv Hfits Hmark Hrec Hpath IH].
  - exists []. split; [reflexivity|left; reflexivity].
  - exists ids. split; [reflexivity|right; exact Hfull].
  - destruct IH as (rest & E & Hrest). exists rest. split; [|exact Hrest].
    simpl. rewrite (placedRecord_id _ _ _ _ _ Hrec), E. reflexivity.
Qed.

(** What [generateValidBoard] returns is what the solver returned for one of
    the shuffles. *)
Lemma generateValidBoard_returns (shuffledIds : nat -> list string)
    (stack : nat) :
  forall attempt solution,
    generateValidBoard table shuffledIds stack attempt = Returns solution ->
    exists k final,
      solveRecursively table emptyGrid (shuffledIds k) = Returns (Some solution, final).
Proof.
  induction stack as [|stack IH]; intros attempt solution H; [discriminate H|].
  cbn [generateValidBoard] in H.
  destruct (solveRecursively table emptyGrid (shuffledIds attempt))
    as [[[result|] final]| |] eqn:E; try discriminate H.
  - injection H as <-. exists attempt, final. exact E.
  - apply (IH _ _ H).
Qed.

Lemma generateValidBoard_retry (shuffledIds : nat -> list string)
    (solution : list PlacedPiece) (final : Grid) (failures : nat) :
  forall attempt stack,
    (forall k, (attempt <= k < attempt + failures)%nat ->
               exists back, solveRecursively table emptyGrid (shuffledIds k)
                            = Returns (None, back)) ->
    solveRecursively table emptyGrid (shuffledIds (attempt + failures)%nat)
      = Returns (Some solution, final) ->
    (failures < stack)%nat ->
    generateValidBoard table shuffledIds stack attempt = Returns solution.
Proof.
  induction failures as [|n IH]; intros attempt stack Hfail Hsolve Hroom.
  - destruct stack as [|stack]; [lia|].
    cbn [generateValidBoard]. rewrite Nat.add_0_r in Hsolve. rewrite Hsolve. reflexivity.
  - destruct stack as [|stack]; [lia|].
    cbn [generateValidBoard].
    destruct (Hfail attempt) as (back & E); [lia|]. rewrite E.
    apply (IH (S attempt) stack).
    + intros k Hk. apply Hfail. lia.
    + replace (S attempt + n)%nat with (attempt + S n)%nat by lia. exact Hsolve.
    + lia.
Qed.

(** When every shuffle that the stack has room for fails, the stack is used
    up. *)
Lemma generateValidBoard_exhausted (shuffledIds : nat -> list string) (stack : nat) :
  forall attempt,
    (forall k, (attempt <= k < attempt + stack)%nat ->
               exists back, solveRecursively table emptyGrid (shuffledIds k)
                            = Returns (None, back)) ->
    generateValidBoard table shuffledIds stack attempt = Throws.
Proof.
  induction stack as [|stack IH]; intros attempt Hfail; [reflexivity|].
  cbn [generateValidBoard].
  destruct (Hfail attempt) as (back & E); [lia|]. rewrite E.
  apply IH. intros k Hk. apply Hfail. lia.
Qed.

(** From here on the table is one that [precomputeVariations] builds. *)
Hypothesis Hbuilt : builtTable table.

(** Every entry of a built table is a rearrangement of the variations of a
    catalog piece, and every key outside the catalog holds none. *)
Lemma builtTable_lookup (pieceId : string)
    (variations : list PieceVariation) :
  table pieceId = Some variations ->
  exists def pushed,
    In def PIECE_DEFINITIONS /\ def_id def = pieceId /\
    pieceVariations def = Returns pushed /\ Permutation variations pushed.
Proof.
  intros Hlook. destruct Hbuilt as (sortRandom & Hperm & Hrun).
  unfold precomputeVariations in Hrun.
  destruct (forEach_table sortRandom PIECE_DEFINITIONS _ _ Hrun) as [Hout Hin].
  destruct (in_dec string_dec pieceId catalogIds) as [Hcat|Hcat].
  - destruct (catalogIds_In pieceId Hcat) as (def & Hdef & Eid).
    destruct (Hin catalogIds_NoDup def Hdef) as (pushed & Epushed & Etable).
    exists def, pushed. repeat split; try assumption.
    rewrite Eid in Etable. rewrite Etable in Hlook. injection Hlook as <-.
    apply Hperm.
  - rewrite (Hout pieceId Hcat) in Hlook. discriminate Hlook.
Qed.

Lemma builtTable_unknown (pieceId : string) :
  ~ In pieceId catalogIds -> table pieceId = None.
Proof.
  intros Hcat. destruct Hbuilt as (sortRandom & Hperm & Hrun).
  unfold precomputeVariations in Hrun.
  destruct (forEach_table sortRandom PIECE_DEFINITIONS _ _ Hrun) as [Hout _].
  apply (Hout pieceId Hcat).
Qed.

Lemma builtTable_catalog (def : PieceDef) :
  In def PIECE_DEFINITIONS ->
  exists variations pushed,
    table (def_id def) = Some variations /\
    pieceVariations def = Returns pushed /\
    Permutation variations pushed.
Proof.
  intros Hdef. destruct Hbuilt as (sortRandom & Hperm & Hrun).
  unfold precomputeVariations in Hrun.
  destruct (forEach_table sortRandom PIECE_DEFINITIONS _ _ Hrun) as [_ Hin].
  destruct (Hin catalogIds_NoDup def Hdef) as (pushed & Epushed & Etable).
  exists (sortRandom (def_id def) pushed), pushed.
  split; [exact Etable|]. split; [exact Epushed|apply Hperm].
Qed.

Lemma builtTable_variation (pieceId : string)
    (variations : list PieceVariation) (v : PieceVariation) :
  table pieceId = Some variations -> In v variations ->
  exists def,
    In def PIECE_DEFINITIONS /\ def_id def = pieceId /\ variationOkb def v = true.
Proof.
  intros Hlook Hv.
  destruct (builtTable_lookup pieceId variations Hlook)
    as (def & pushed & Hdef & Eid & Epushed & Hperm).
  exists def. repeat split; try assumption.
  pose proof catalogVariations_checked as Hall.
  unfold catalogVariationsOkb in Hall. rewrite forallb_forall in Hall.
  specialize (Hall def Hdef). rewrite Epushed in Hall.
  rewrite forallb_forall in Hall. apply Hall.
  apply (Permutation_in v Hperm Hv).
Qed.

Lemma searchPath_steps (grid final : Grid) (ids : list string)
    (steps : list (PlacedPiece * list Coordinate)) :
  searchPath table grid ids steps final -> Forall stepOk steps.
Proof.
  induction 1 as [| |grid pieceId restIds emptyX emptyY variations v placed
                                   piece steps final Hempty Htable Hv Hfits Hmark Hrec
                                   Hpath IH]; try constructor; [|exact IH].
  destruct (builtTable_variation pieceId variations v Htable Hv)
    as (def & Hdef & Eid & Hok).
  destruct (variationOkb_facts def v Hok) as (Hnorm & Hnd & Hlen).
  rewrite Eid in Hnorm.
  destruct (placedRecord_replay pieceId emptyX emptyY v piece Hnorm Hrec)
    as (Hid & _ & _ & Hlock & Hperm).
  unfold stepOk. simpl fst. simpl snd. rewrite Hid.
  split; [exact Hperm|]. split; [apply translate_NoDup; exact Hnd|].
  split; [|split; [|exact Hlock]].
  - rewrite length_map, Hlen. unfold sizeOf.
    rewrite <- Eid, (findDef_catalog def Hdef). reflexivity.
  - rewrite <- Eid. apply in_map. exact Hdef.
Qed.

(** A solution found from the empty grid for a rearrangement of the catalog
    ids places every piece, in the order of the ids, and its replayed cells
    are the cells of the grid, each once. *)
Lemma solved_board (ids : list string)
    (result : list PlacedPiece) (final : Grid) :
  Permutation ids catalogIds ->
  solveRecursively table emptyGrid ids = Returns (Some result, final) ->
  map id result = ids /\
  NoDup (flat_map pieceCells result) /\
  (forall c, In c (flat_map pieceCells result) <-> inGrid c = true) /\
  Forall (fun p => isLocked p = Some true) result.
Proof.
  intros Hperm Hsolve.
  pose proof (solveRecursively_inv ids emptyGrid emptyGrid_wf) as Hinv.
  rewrite Hsolve in Hinv. destruct Hinv as (steps & Hpath & Hsteps).
  pose proof (searchPath_steps _ _ _ _ Hpath) as Hok.
  destruct (searchPath_cells _ _ _ _ Hpath Hok emptyGrid_wf)
    as (Hwff & Hfinal & Hfree & Hnd).
  destruct (searchPath_ids _ _ _ _ Hpath) as (rest & Eids & Hrest).
  pose proof (stepOk_length steps Hok) as Hlen.
  pose proof (stepOk_replay steps Hok) as Hreplay. rewrite Hsteps in Hreplay.
  assert (Hincl : incl (markedCells steps) gridCells).
  { intros c Hc. apply gridCells_In. apply Hfree. exact Hc. }
  assert (Htotal : (totalSize (map (fun step => id (fst step)) steps)
                    + totalSize rest = 55)%nat).
  { rewrite <- totalSize_catalog, <- (totalSize_perm _ _ Hperm), Eids.
    unfold totalSize. rewrite map_app, list_sum_app. reflexivity. }
  assert (Erest : rest = []).
  { destruct Hrest as [E|Hfull]; [exact E|].
    assert (Hcover : incl gridCells (markedCells steps)).
    { intros d Hd. apply gridCells_In in Hd.
      pose proof (findEmpty_none final Hwff Hfull d Hd) as Hocc.
      rewrite (Hfinal d Hd), (emptyGrid_cell d Hd) in Hocc. simpl in Hocc.
      apply existsb_Coordinate_In. exact Hocc. }
    pose proof (NoDup_incl_length gridCells_NoDup Hcover) as Hge.
    rewrite gridCells_length, Hlen in Hge.
    destruct rest as [|r rest']; [reflexivity|]. exfalso.
    assert (Hr : In r catalogIds).
    { apply (Permutation_in r Hperm). rewrite Eids. apply in_or_app. right. left.
      reflexivity. }
    pose proof (sizeOf_catalog r Hr) as Hsize.
    unfold totalSize in Htotal, Hge. simpl in Htotal. lia. }
  subst rest. rewrite app_nil_r in Eids.
  unfold totalSize in Htotal. simpl in Htotal. rewrite Nat.add_0_r in Htotal.
  assert (Hcover : incl gridCells (markedCells steps)).
  { apply NoDup_length_incl; [exact Hnd| |exact Hincl].
    rewrite gridCells_length, Hlen. unfold totalSize. lia. }
  split; [|split; [|split]].
  - rewrite <- Hsteps, map_map. symmetry. exact Eids.
  - apply (Permutation_NoDup (Permutation_sym Hreplay)). exact Hnd.
  - intros c. rewrite <- gridCells_In. split; intros Hc.
    + apply Hincl. apply (Permutation_in c Hreplay). exact Hc.
    + apply (Permutation_in c (Permutation_sym Hreplay)). apply Hcover. exact Hc.
  - rewrite <- Hsteps. apply Forall_map. apply Forall_impl with (2 := Hok).
    intros step Hstep. apply Hstep.
Qed.

Lemma generateValidBoard_sound (shuffledIds : nat -> list string)
    (stack attempt : nat) (solution : list PlacedPiece) :
  (forall k, Permutation (shuffledIds k) catalogIds) ->
  generateValidBoard table shuffledIds stack attempt = Returns solution ->
  Permutation (map id solution) catalogIds /\
  NoDup (flat_map pieceCells solution) /\
  (forall c, In c (flat_map pieceCells solution) <-> inGrid c = true) /\
  Forall (fun p => isLocked p = Some true) solution.
Proof.
  intros Hshuffle H.
  destruct (generateValidBoard_returns shuffledIds stack attempt solution H)
    as (k & final & Hsolve).
  destruct (solved_board (shuffledIds k) solution final (Hshuffle k) Hsolve)
    as (Hids & Hnd & Hcover & Hlock).
  rewrite Hids. auto.
Qed.

End Search.

(** * Concrete runs *)

Lemma tableInOrder_built : builtTable tableInOrder.
Proof.
  exists (fun _ l => l). split; [intros; apply Permutation_refl|].
  unfold tableInOrder.
  destruct (precomputeVariations (fun _ l => l)) eqn:E;
    [reflexivity|vm_compute in E; discriminate E|vm_compute in E; discriminate E].
Qed.

Lemma solvableOrder_perm : Permutation solvableOrder catalogIds.
Proof. apply isPermutation_sound. vm_compute. reflexivity. Qed.

Lemma solvableOrder_solved :
  solveRecursively tableInOrder emptyGrid solvableOrder
  = Returns (Some exampleSolution, fullGrid).
Proof. vm_compute. reflexivity. Qed.

Lemma failingOrder_perm : Permutation failingOrder catalogIds.
Proof. apply isPermutation_sound. vm_compute. reflexivity. Qed.

Lemma failingOrder_fails :
  solveRecursively tableInOrder emptyGrid failingOrder = Returns (None, emptyGrid).
Proof. vm_compute. reflexivity. Qed.

(** * The full board and the round trip *)

(** C1: with the 12-piece catalog on the 5 by 11 grid, a list returned by
    [generateValidBoard] has exactly 12 entries, one for each catalog id and
    none twice; the absolute cells of its pieces (shape transformed by the
    stored rotation and flip, moved by the stored origin) are pairwise
    disjoint and are exactly the 55 cells of the grid. *)
Theorem generateValidBoard_full_tiling
    (table : VariationTable) (shuffledIds : nat -> list string)
    (stack attempt : nat) (solution : list PlacedPiece) :
  builtTable table ->
  (forall k, Permutation (shuffledIds k) catalogIds) ->
  generateValidBoard table shuffledIds stack attempt = Returns solution ->
  List.length solution = 12%nat /\
  Permutation (map id solution) catalogIds /\
  NoDup (map id solution) /\
  ForallOrdPairs disjointCells solution /\
  NoDup (flat_map pieceCells solution) /\
  List.length (flat_map pieceCells solution) = 55%nat /\
  (forall c, In c (flat_map pieceCells solution)
             <-> 0 <= x c < GRID_COLS /\ 0 <= y c < GRID_ROWS).
Proof.
  intros Hbuilt Hshuffle H.
  destruct (generateValidBoard_sound table Hbuilt shuffledIds stack attempt solution
              Hshuffle H) as (Hids & Hnd & Hcover & _).
  assert (Hperm : Permutation (flat_map pieceCells solution) gridCells).
  { apply NoDup_Permutation; [exact Hnd|apply gridCells_NoDup|].
    intros c. rewrite Hcover. symmetry. apply gridCells_In. }
  split; [|split; [|split; [|split; [|split; [|split]]]]].
  - rewrite <- (length_map id). rewrite (Permutation_length Hids). reflexivity.
  - exact Hids.
  - apply (Permutation_NoDup (Permutation_sym Hids)). apply catalogIds_NoDup.
  - apply NoDup_flat_map_disjoint. exact Hnd.
  - exact Hnd.
  - rewrite (Permutation_length Hperm). reflexivity.
  - intros c. rewrite Hcover. apply inGrid_bounds.
Qed.

Lemma generateValidBoard_full_tiling_witness :
  generateValidBoard tableInOrder (fun _ => solvableOrder) 1 0 = Returns exampleSolution
  /\ List.length exampleSolution = 12%nat
  /\ List.length (flat_map pieceCells exampleSolution) = 55%nat.
Proof.
  assert (H : generateValidBoard tableInOrder (fun _ => solvableOrder) 1 0
              = Returns exampleSolution) by (vm_compute; reflexivity).
  destruct (generateValidBoard_full_tiling tableInOrder (fun _ => solvableOrder) 1 0
              exampleSolution tableInOrder_built (fun _ => solvableOrder_perm) H)
    as (Hlen & _ & _ & _ & _ & Hcells & _).
  split; [exact H|]. split; [exact Hlen|exact Hcells].
Defined.

(** C4: for a solution that [solveRecursively] returns, every returned record,
    replayed as [getBoardGrid] does ([getTransformedCoordinates] of its id,
    rotation and flip, moved by its stored origin), gives exactly the cells
    that the search set to occupied when it placed that piece's variation at
    the selected empty cell. *)
Theorem solveRecursively_round_trip
    (table : VariationTable) (grid final : Grid) (ids : list string)
    (result : list PlacedPiece) :
  builtTable table -> wfGrid grid ->
  solveRecursively table grid ids = Returns (Some result, final) ->
  exists steps,
    searchPath table grid ids steps final /\
    map fst steps = result /\
    Forall (fun step =>
              Permutation (pieceCells (fst step)) (snd step) /\
              NoDup (snd step) /\
              forall c, In c (pieceCells (fst step)) <-> In c (snd step))
           steps.
Proof.
  intros Hbuilt Hwf Hsolve.
  pose proof (solveRecursively_inv table ids grid Hwf) as Hinv.
  rewrite Hsolve in Hinv. destruct Hinv as (steps & Hpath & Hsteps).
  exists steps. split; [exact Hpath|]. split; [exact Hsteps|].
  apply Forall_impl with (2 := searchPath_steps table Hbuilt _ _ _ _ Hpath).
  intros step (Hperm & Hnd & _). split; [exact Hperm|]. split; [exact Hnd|].
  intros c. split; intros Hc.
  - apply (Permutation_in c Hperm Hc).
  - apply (Permutation_in c (Permutation_sym Hperm) Hc).
Qed.

Lemma solveRecursively_round_trip_witness :
  exists steps,
    searchPath tableInOrder emptyGrid solvableOrder steps fullGrid /\
    map fst steps = exampleSolution /\
    Forall (fun step =>
              Permutation (pieceCells (fst step)) (snd step) /\
              NoDup (snd step) /\
              forall c, In c (pieceCells (fst step)) <-> In c (snd step))
           steps.
Proof.
  apply (solveRecursively_round_trip tableInOrder emptyGrid fullGrid solvableOrder
           exampleSolution tableInOrder_built emptyGrid_wf).
  vm_compute. reflexivity.
Defined.

(** * Termination of the search *)

(** C8: [solveRecursively] terminates on every grid and every finite list of
    piece ids.  Run with a bound on the depth of its recursion, the body
    returns or raises as soon as the bound exceeds the number of remaining
    ids, because the recursive call is on the tail of the list, and the loop
    over the variations of a piece at the selected cell is over a finite
    list; the answer is that of [solveRecursively]. *)
Theorem solveRecursively_terminates
    (table : VariationTable) (grid : Grid) (ids : list string) (fuel : nat) :
  (List.length ids < fuel)%nat ->
  solveRecursivelyFuel table fuel grid ids <> Unfinished /\
  solveRecursivelyFuel table fuel grid ids = solveRecursively table grid ids.
Proof.
  intros Hfuel. rewrite (solveRecursivelyFuel_enough table ids fuel grid Hfuel).
  split; [apply solveRecursively_finished|reflexivity].
Qed.

Lemma solveRecursively_terminates_witness :
  solveRecursivelyFuel tableInOrder 13 emptyGrid solvableOrder <> Unfinished /\
  solveRecursivelyFuel tableInOrder 13 emptyGrid solvableOrder
  = solveRecursively tableInOrder emptyGrid solvableOrder.
Proof.
  apply (solveRecursively_terminates tableInOrder emptyGrid solvableOrder 13).
  simpl. lia.
Defined.

(** * Retrying *)

Lemma failuresThenSolved_perm (failures k : nat) :
  Permutation (failuresThenSolved failures k) catalogIds.
Proof.
  unfold failuresThenSolved.
  destruct (Nat.ltb k failures); [apply failingOrder_perm | apply solvableOrder_perm].
Qed.

Lemma failuresThenSolved_fails (failures k : nat) :
  (k < failures)%nat ->
  solveRecursively tableInOrder emptyGrid (failuresThenSolved failures k)
  = Returns (None, emptyGrid).
Proof.
  intros Hk. unfold failuresThenSolved.
  apply Nat.ltb_lt in Hk. rewrite Hk. apply failingOrder_fails.
Qed.

Lemma failuresThenSolved_solved (failures : nat) :
  solveRecursively tableInOrder emptyGrid (failuresThenSolved failures failures)
  = Returns (Some exampleSolution, fullGrid).
Proof.
  unfold failuresThenSolved. rewrite Nat.ltb_irrefl. apply solvableOrder_solved.
Qed.

(** C3, as the code has it: after a shuffle that the solver cannot solve,
    [generateValidBoard] calls itself again with a fresh shuffle.  It keeps no
    count and has no cap of its own: the retries are nested calls, bounded
    only by the call stack of the engine.  When the first [failures] shuffles
    fail, the call returns the solution of the next shuffle if that one is
    solved and the stack has room for more than [failures] activations; when
    the stack has room for [failures] activations or fewer, it is used up
    first and the engine's [RangeError] reaches the caller. *)
Theorem generateValidBoard_retries_until_solved
    (table : VariationTable) (shuffledIds : nat -> list string)
    (failures stack : nat) :
  (forall k, (k < failures)%nat ->
             exists back, solveRecursively table emptyGrid (shuffledIds k)
                          = Returns (None, back)) ->
  ((stack <= failures)%nat ->
   generateValidBoard table shuffledIds stack 0 = Throws) /\
  (forall solution final,
     solveRecursively table emptyGrid (shuffledIds failures)
     = Returns (Some solution, final) ->
     (failures < stack)%nat ->
     generateValidBoard table shuffledIds stack 0 = Returns solution).
Proof.
  intros Hfail. split.
  - intros Hroom. apply generateValidBoard_exhausted.
    intros k Hk. apply Hfail. lia.
  - intros solution final Hsolve Hroom.
    apply (generateValidBoard_retry table shuffledIds solution final failures 0 stack).
    + intros k Hk. apply Hfail. lia.
    + exact Hsolve.
    + exact Hroom.
Qed.

Lemma generateValidBoard_retries_until_solved_witness :
  generateValidBoard tableInOrder twoFailuresThenSolved 2 0 = Throws /\
  generateValidBoard tableInOrder twoFailuresThenSolved 3 0 = Returns exampleSolution.
Proof.
  assert (Hfail : forall k, (k < 2)%nat ->
            exists back, solveRecursively tableInOrder emptyGrid (twoFailuresThenSolved k)
                         = Returns (None, back)).
  { intros k Hk. exists emptyGrid.
    destruct k as [|[|k]]; [vm_compute; reflexivity|vm_compute; reflexivity|lia]. }
  destruct (generateValidBoard_retries_until_solved tableInOrder twoFailuresThenSolved
              2 2 Hfail) as [Hthrows _].
  destruct (generateValidBoard_retries_until_solved tableInOrder twoFailuresThenSolved
              2 3 Hfail) as [_ Hreturns].
  split.
  - apply Hthrows. lia.
  - apply (Hreturns exampleSolution fullGrid); [vm_compute; reflexivity | lia].
Defined.

(** C3 as stated fails: the number of retries has no cap.  Whatever cap is
    named, there are shuffles, each a rearrangement of the catalog ids, whose
    first [cap + 1] fail, and with room on the stack for [cap + 2] activations
    [generateValidBoard] retries [cap + 1] times and returns the solution of
    the next shuffle.  Only the stack decides: with room for [cap + 1]
    activations the same shuffles end in the [RangeError]. *)
Lemma generateValidBoard_no_retry_cap :
  (forall failures k, Permutation (failuresThenSolved failures k) catalogIds) /\
  (forall cap : nat,
     (forall k, (k <= cap)%nat ->
                solveRecursively tableInOrder emptyGrid (failuresThenSolved (S cap) k)
                = Returns (None, emptyGrid)) /\
     generateValidBoard tableInOrder (failuresThenSolved (S cap)) (S (S cap)) 0
     = Returns exampleSolution /\
     generateValidBoard tableInOrder (failuresThenSolved (S cap)) (S cap) 0 = Throws).
Proof.
  split; [apply failuresThenSolved_perm|].
  intros cap.
  assert (Hfail : forall k, (k < S cap)%nat ->
            exists back,
              solveRecursively tableInOrder emptyGrid (failuresThenSolved (S cap) k)
              = Returns (None, back)).
  { intros k Hk. exists emptyGrid. apply failuresThenSolved_fails. exact Hk. }
  split; [|split].
  - intros k Hk. apply failuresThenSolved_fails. lia.
  - apply (generateValidBoard_retry tableInOrder (failuresThenSolved (S cap))
             exampleSolution fullGrid (S cap) 0 (S (S cap))).
    + intros k Hk. apply Hfail. lia.
    + apply failuresThenSolved_solved.
    + lia.
  - apply generateValidBoard_exhausted. intros k Hk. apply Hfail. lia.
Qed.

(** * The size of the cache *)

Lemma sameShapes_In (a b : list (list Coordinate)) :
  sameShapes a b = true -> forall shape, In shape a <-> In shape b.
Proof.
  unfold sameShapes. intros H. apply andb_prop in H. destruct H as [Hab Hba].
  rewrite forallb_forall in Hab, Hba.
  assert (Hsub : forall l l' s, (forall s, In s l -> existsb (coordsEqb s) l' = true) ->
                                In s l -> In s l').
  { intros l l' s Hall Hs. specialize (Hall s Hs). apply existsb_exists in Hall.
    destruct Hall as (s' & Hs' & E). unfold coordsEqb in E.
    destruct (list_eq_dec Coordinate_eq_dec s s') as [->|]; [exact Hs'|discriminate E]. }
  intros shape. split; [apply (Hsub a b) | apply (Hsub b a)]; assumption.
Qed.

(** C6: for every catalog piece, the list that [precomputeVariations] stores
    has between 1 and 8 entries, no two with equal normalized coordinate
    sequences, and as many entries as there are distinct normalized shapes
    among the 8 combinations of flip and rotation, the shapes stored being
    exactly those shapes; a piece that is its own half turn has exactly 4.
    The orbit is taken by the transform as the specification words it, over
    the 8 combinations written out. *)
Theorem precomputeVariations_orbit (table : VariationTable) (def : PieceDef) :
  builtTable table -> In def PIECE_DEFINITIONS ->
  exists variations,
    table (def_id def) = Some variations /\
    (1 <= List.length variations <= 8)%nat /\
    NoDup (map coords variations) /\
    List.length variations = List.length (distinctShapes (initialShape def)) /\
    (forall shape, In shape (map coords variations)
                   <-> In shape (orbitSpec (initialShape def))) /\
    (halfTurnSymmetric (initialShape def) -> List.length variations = 4%nat).
Proof.
  intros Hbuilt Hdef.
  destruct (builtTable_catalog table Hbuilt def Hdef)
    as (variations & pushed & Etable & Epushed & Hperm).
  exists variations. split; [exact Etable|].
  pose proof cacheOkb_checked as Hall. rewrite forallb_forall in Hall.
  specialize (Hall def Hdef). unfold cacheOkb in Hall. rewrite Epushed in Hall.
  cbv zeta in Hall. rewrite !andb_true_iff in Hall.
  destruct Hall as [[[[[H1 H8] Hnd] Hcount] Hsame] Hsym].
  apply Nat.leb_le in H1, H8. apply Nat.eqb_eq in Hcount.
  rewrite (Permutation_length Hperm).
  split; [lia|]. split; [|split; [exact Hcount|split]].
  - apply (Permutation_NoDup (Permutation_map coords (Permutation_sym Hperm))).
    apply (distinctb_NoDup shape_eq_dec). exact Hnd.
  - intros shape. rewrite <- (sameShapes_In _ _ Hsame shape). split; intros Hin.
    + exact (Permutation_in shape (Permutation_map coords Hperm) Hin).
    + exact (Permutation_in shape (Permutation_map coords (Permutation_sym Hperm)) Hin).
  - intros Hhalf. unfold halfTurnSymmetric in Hhalf.
    destruct (shape_eq_dec _ _) as [_|Hne]; [|contradiction].
    apply Nat.eqb_eq. exact Hsym.
Qed.

Lemma precomputeVariations_orbit_witness :
  halfTurnSymmetric [pt 0 0; pt 1 0; pt 1 1; pt 2 1] /\
  exists variations,
    tableInOrder "K"%string = Some variations /\
    NoDup (map coords variations) /\
    List.length variations = 4%nat.
Proof.
  assert (Hhalf : halfTurnSymmetric [pt 0 0; pt 1 0; pt 1 1; pt 2 1])
    by (vm_compute; reflexivity).
  split; [exact Hhalf|].
  destruct (precomputeVariations_orbit tableInOrder
              (mkPieceDef "K" "shadow-[0_0_15px_#3b82f6] bg-[#3b82f6] border-[#93c5fd]"
                 [pt 0 0; pt 1 0; pt 1 1; pt 2 1])
              tableInOrder_built)
    as (variations & Etable & _ & Hnd & _ & _ & Hfour).
  - simpl. do 3 right. left. reflexivity.
  - exists variations. split; [exact Etable|]. split; [exact Hnd|].
    apply Hfour. exact Hhalf.
Defined.

(** * Levels *)

Lemma lockedCount_range (levelNum : Z) : 3 <= lockedCount levelNum <= 10.
Proof. unfold lockedCount, maxLocked, minLocked. lia. Qed.



(** On the levels from -1000 to 2000 the binary64 evaluation of the formula
    gives the integer that the exact evaluation gives. *)
Lemma lockedCount_double_agrees :
  forallb (fun n => PrimFloat.eqb (lockedCountDouble (doubleOfZ n))
                                  (doubleOfZ (lockedCount n)))
          checkedLevels = true.
Proof. vm_compute. reflexivity. Qed.


(** * Bounding boxes *)

Lemma Math_min_spec (first : Z) (rest : list Z) :
  (forall v, In v (first :: rest) -> Math_min first rest <= v) /\
  In (Math_min first rest) (first :: rest).
Proof.
  unfold Math_min. revert first. induction rest as [|r rest IH]; intros first.
  - simpl. split; [intros v [<-|[]]; lia|left; reflexivity].
  - cbn [fold_left]. destruct (IH (Z.min first r)) as [Hle Hin]. split.
    + intros v Hv. assert (Hm : fold_left Z.min rest (Z.min first r) <= Z.min first r)
        by (apply Hle; left; reflexivity).
      destruct Hv as [<-|[<-|Hv]]; [lia|lia|apply Hle; right; exact Hv].
    + destruct Hin as [E|Hin]; [|right; right; exact Hin].
      rewrite <- E. destruct (Z.min_spec first r) as [[_ ->]|[_ ->]];
        [left; reflexivity|right; left; reflexivity].
Qed.

Lemma Math_max_spec (first : Z) (rest : list Z) :
  (forall v, In v (first :: rest) -> v <= Math_max first rest) /\
  In (Math_max first rest) (first :: rest).
Proof.
  unfold Math_max. revert first. induction rest as [|r rest IH]; intros first.
  - simpl. split; [intros v [<-|[]]; lia|left; reflexivity].
  - cbn [fold_left]. destruct (IH (Z.max first r)) as [Hle Hin]. split.
    + intros v Hv. assert (Hm : Z.max first r <= fold_left Z.max rest (Z.max first r))
        by (apply Hle; left; reflexivity).
      destruct Hv as [<-|[<-|Hv]]; [lia|lia|apply Hle; right; exact Hv].
    + destruct Hin as [E|Hin]; [|right; right; exact Hin].
      rewrite <- E. destruct (Z.max_spec first r) as [[_ ->]|[_ ->]];
        [right; left; reflexivity|left; reflexivity].
Qed.

(** The box of a non-empty list holds every cell, and is tight: its four
    sides are each reached by some cell. *)
Lemma getPieceBounds_box (coords : list Coordinate) :
  coords <> [] ->
  let b := getPieceBounds (Some coords) in
  (forall c, In c coords ->
             minX b <= x c <= minX b + width b - 1 /\
             minY b <= y c <= minY b + height b - 1) /\
  (exists c, In c coords /\ x c = minX b) /\
  (exists c, In c coords /\ x c = minX b + width b - 1) /\
  (exists c, In c coords /\ y c = minY b) /\
  (exists c, In c coords /\ y c = minY b + height b - 1).
Proof.
  destruct coords as [|c0 rest]; [congruence|]. intros _. cbn zeta.
  cbn [getPieceBounds minX minY width height].
  destruct (Math_min_spec (x c0) (map x rest)) as [Hminx Hminx_in].
  destruct (Math_max_spec (x c0) (map x rest)) as [Hmaxx Hmaxx_in].
  destruct (Math_min_spec (y c0) (map y rest)) as [Hminy Hminy_in].
  destruct (Math_max_spec (y c0) (map y rest)) as [Hmaxy Hmaxy_in].
  change (x c0 :: map x rest) with (map x (c0 :: rest)) in *.
  change (y c0 :: map y rest) with (map y (c0 :: rest)) in *.
  split; [|repeat split].
  - intros c Hc.
    pose proof (Hminx _ (in_map x _ _ Hc)). pose proof (Hmaxx _ (in_map x _ _ Hc)).
    pose proof (Hminy _ (in_map y _ _ Hc)). pose proof (Hmaxy _ (in_map y _ _ Hc)).
    lia.
  - apply in_map_iff in Hminx_in. destruct Hminx_in as (c & E & Hc).
    exists c. split; [exact Hc|exact E].
  - apply in_map_iff in Hmaxx_in. destruct Hmaxx_in as (c & E & Hc).
    exists c. split; [exact Hc|lia].
  - apply in_map_iff in Hminy_in. destruct Hminy_in as (c & E & Hc).
    exists c. split; [exact Hc|exact E].
  - apply in_map_iff in Hmaxy_in. destruct Hmaxy_in as (c & E & Hc).
    exists c. split; [exact Hc|lia].
Qed.

Lemma Math_min_shift (d first : Z) (rest : list Z) :
  Math_min (d + first) (map (Z.add d) rest) = d + Math_min first rest.
Proof.
  unfold Math_min. revert first. induction rest as [|r rest IH]; intros first;
    [reflexivity|].
  cbn [map fold_left]. rewrite <- IH. f_equal. lia.
Qed.

Lemma Math_max_shift (d first : Z) (rest : list Z) :
  Math_max (d + first) (map (Z.add d) rest) = d + Math_max first rest.
Proof.
  unfold Math_max. revert first. induction rest as [|r rest IH]; intros first;
    [reflexivity|].
  cbn [map fold_left]. rewrite <- IH. f_equal. lia.
Qed.

Lemma boxCells_In (b : Bounds) (c : Coordinate) :
  minX b <= x c <= minX b + width b - 1 ->
  minY b <= y c <= minY b + height b - 1 ->
  In c (boxCells b).
Proof.
  intros Hx Hy. unfold boxCells. apply in_flat_map.
  exists (Z.to_nat (y c - minY b)). split; [apply in_seq; lia|].
  apply in_map_iff. exists (Z.to_nat (x c - minX b)). split; [|apply in_seq; lia].
  destruct c as [cx cy]. unfold pt. simpl in *. f_equal; lia.
Qed.

Lemma boxCells_length (b : Bounds) :
  List.length (boxCells b) = (Z.to_nat (width b) * Z.to_nat (height b))%nat.
Proof.
  unfold boxCells.
  assert (H : forall h start,
             List.length
               (flat_map (fun row => map (fun col => pt (minX b + Z.of_nat col)
                                                        (minY b + Z.of_nat row))
                                         (seq 0 (Z.to_nat (width b))))
                         (seq start h))
             = (Z.to_nat (width b) * h)%nat).
  { induction h as [|h IH]; intros start; simpl; [lia|].
    rewrite length_app, length_map, length_seq, IH. lia. }
  apply H.
Qed.

(** * Reading order and the sort *)

Lemma compareYX_opp (a b : Coordinate) : compareYX a b = - compareYX b a.
Proof.
  unfold compareYX.
  destruct (Z.eqb_spec (y a - y b) 0); destruct (Z.eqb_spec (y b - y a) 0); lia.
Qed.

Lemma leYX_iff (a b : Coordinate) :
  leYX a b <-> y a < y b \/ (y a = y b /\ x a <= x b).
Proof.
  unfold leYX, compareYX. destruct (Z.eqb_spec (y a - y b) 0); lia.
Qed.

Lemma leYX_trans (a b c : Coordinate) : leYX a b -> leYX b c -> leYX a c.
Proof. rewrite !leYX_iff. lia. Qed.

Lemma leYX_antisym (a b : Coordinate) : leYX a b -> leYX b a -> a = b.
Proof.
  rewrite !leYX_iff. intros H1 H2. destruct a as [ax ay], b as [bx b_y].
  simpl in *. f_equal; lia.
Qed.

Lemma insertSorted_sorted (c : Coordinate) (sorted : list Coordinate) :
  StronglySorted leYX sorted -> StronglySorted leYX (insertSorted c sorted).
Proof.
  induction 1 as [|h t Ht IH Hh]; simpl; [repeat constructor|].
  destruct (Z.ltb_spec (compareYX c h) 0) as [Hlt|Hge].
  - constructor; [constructor; assumption|].
    assert (Hch : leYX c h) by (unfold leYX; lia).
    constructor; [exact Hch|].
    apply Forall_impl with (2 := Hh). intros d Hd. apply (leYX_trans c h d Hch Hd).
  - constructor; [exact IH|].
    assert (Hhc : leYX h c) by (unfold leYX; rewrite compareYX_opp; lia).
    apply (Permutation_Forall (Permutation_sym (insertSorted_perm c t))).
    constructor; assumption.
Qed.

Lemma sortYX_sorted (l : list Coordinate) : StronglySorted leYX (sortYX l).
Proof.
  unfold sortYX.
  assert (H : forall acc, StronglySorted leYX acc ->
              StronglySorted leYX (fold_left (fun sorted c => insertSorted c sorted) l acc)).
  { induction l as [|c rest IH]; intros acc Hacc; simpl; [exact Hacc|].
    apply IH. apply insertSorted_sorted. exact Hacc. }
  apply H. constructor.
Qed.

(** Two sorted lists with the same elements are the same list. *)
Lemma sorted_unique (l l' : list Coordinate) :
  StronglySorted leYX l -> StronglySorted leYX l' -> Permutation l l' -> l = l'.
Proof.
  intros Hl. revert l'. induction Hl as [|a t Ht IH Ha]; intros l' Hl' Hperm.
  - apply Permutation_nil in Hperm. subst. reflexivity.
  - destruct Hl' as [|b t' Ht' Hb].
    + apply Permutation_sym, Permutation_nil in Hperm. discriminate Hperm.
    + assert (E : a = b).
      { assert (Hab : In a (b :: t')) by (apply (Permutation_in a Hperm); left; reflexivity).
        assert (Hba : In b (a :: t))
          by (apply (Permutation_in b (Permutation_sym Hperm)); left; reflexivity).
        rewrite Forall_forall in Ha, Hb.
        destruct Hab as [E|Hab]; [symmetry; exact E|].
        destruct Hba as [E|Hba]; [exact E|].
        apply leYX_antisym; [apply Ha; exact Hba|apply Hb; exact Hab]. }
      subst b. f_equal. apply IH; [exact Ht'|].
      apply (Permutation_cons_inv Hperm).
Qed.

Lemma sortYX_perm_eq (l l' : list Coordinate) :
  Permutation l l' -> sortYX l = sortYX l'.
Proof.
  intros H. apply sorted_unique; try apply sortYX_sorted.
  apply perm_trans with l; [apply sortYX_perm|].
  apply perm_trans with l'; [exact H|apply Permutation_sym, sortYX_perm].
Qed.

Lemma sortYX_of_sorted (l : list Coordinate) :
  StronglySorted leYX l -> sortYX l = l.
Proof.
  intros H. apply sorted_unique; [apply sortYX_sorted|exact H|apply sortYX_perm].
Qed.

Lemma translate_sorted (dx dy : Z) (l : list Coordinate) :
  StronglySorted leYX l -> StronglySorted leYX (map (translate dx dy) l).
Proof.
  induction 1 as [|a t Ht IH Ha]; simpl; constructor; [exact IH|].
  apply Forall_map. apply Forall_impl with (2 := Ha).
  intros c. rewrite !leYX_iff. unfold translate. simpl. lia.
Qed.

Lemma sortYX_translate (dx dy : Z) (l : list Coordinate) :
  sortYX (map (translate dx dy) l) = map (translate dx dy) (sortYX l).
Proof.
  apply sorted_unique.
  - apply sortYX_sorted.
  - apply translate_sorted, sortYX_sorted.
  - apply perm_trans with (map (translate dx dy) l); [apply sortYX_perm|].
    apply Permutation_map, Permutation_sym, sortYX_perm.
Qed.

(** * What the bounding box and the normalization guarantee *)

(** X1: the box of a non-empty list of cells holds every cell and is tight,
    each of its four sides being reached by a cell; a missing or empty list
    gives the box of one cell at the origin. *)
Theorem getPieceBounds_tight (coords : list Coordinate) :
  coords <> [] ->
  (forall c, In c coords ->
             minX (getPieceBounds (Some coords)) <= x c
               <= minX (getPieceBounds (Some coords))
                  + width (getPieceBounds (Some coords)) - 1 /\
             minY (getPieceBounds (Some coords)) <= y c
               <= minY (getPieceBounds (Some coords))
                  + height (getPieceBounds (Some coords)) - 1) /\
  (exists c, In c coords /\ x c = minX (getPieceBounds (Some coords))) /\
  (exists c, In c coords /\
             x c = minX (getPieceBounds (Some coords))
                   + width (getPieceBounds (Some coords)) - 1) /\
  (exists c, In c coords /\ y c = minY (getPieceBounds (Some coords))) /\
  (exists c, In c coords /\
             y c = minY (getPieceBounds (Some coords))
                   + height (getPieceBounds (Some coords)) - 1) /\
  getPieceBounds None = mkBounds 0 0 1 1 /\
  getPieceBounds (Some []) = mkBounds 0 0 1 1.
Proof.
  intros Hne. destruct (getPieceBounds_box coords Hne) as (H1 & H2 & H3 & H4 & H5).
  repeat split; try assumption; apply H1; assumption.
Qed.

Lemma getPieceBounds_tight_witness :
  (exists c, In c [pt 2 5; pt (-1) 7; pt 0 6] /\ x c = -1) /\
  getPieceBounds (Some [pt 2 5; pt (-1) 7; pt 0 6]) = mkBounds (-1) 5 4 3.
Proof.
  destruct (getPieceBounds_tight [pt 2 5; pt (-1) 7; pt 0 6]) as (_ & H & _).
  - discriminate.
  - split; [exact H|reflexivity].
Defined.

Lemma getPieceBounds_positive (coords : option (list Coordinate)) :
  1 <= width (getPieceBounds coords) /\ 1 <= height (getPieceBounds coords).
Proof.
  destruct coords as [[|c rest]|]; [simpl; lia| |simpl; lia].
  destruct (getPieceBounds_box (c :: rest)) as (Hall & _); [discriminate|].
  specialize (Hall c (or_introl eq_refl)). lia.
Qed.

(** X2: cells that are all different never outnumber the cells of their
    box, whose sides are at least 1, also for the empty list. *)
Theorem getPieceBounds_area (coords : list Coordinate) :
  NoDup coords ->
  1 <= width (getPieceBounds (Some coords)) /\
  1 <= height (getPieceBounds (Some coords)) /\
  Z.of_nat (List.length coords)
  <= width (getPieceBounds (Some coords)) * height (getPieceBounds (Some coords)).
Proof.
  intros Hnd. destruct (getPieceBounds_positive (Some coords)) as [Hw Hh].
  split; [exact Hw|]. split; [exact Hh|].
  destruct coords as [|c rest]; [simpl; lia|].
  destruct (getPieceBounds_box (c :: rest)) as (Hall & _); [discriminate|].
  assert (Hincl : incl (c :: rest) (boxCells (getPieceBounds (Some (c :: rest))))).
  { intros d Hd. destruct (Hall d Hd) as [Hx Hy]. apply boxCells_In; assumption. }
  pose proof (NoDup_incl_length Hnd Hincl) as Hlen.
  rewrite boxCells_length in Hlen. nia.
Qed.

Lemma getPieceBounds_area_witness :
  Z.of_nat (List.length (getTransformedCoordinates "G" 90 true))
  <= width (getPieceBounds (Some (getTransformedCoordinates "G" 90 true)))
     * height (getPieceBounds (Some (getTransformedCoordinates "G" 90 true))).
Proof.
  apply (getPieceBounds_area (getTransformedCoordinates "G" 90 true)).
  apply (distinctb_NoDup Coordinate_eq_dec). vm_compute. reflexivity.
Defined.

(** X3: moving every cell by the same offset moves the corner of the box by
    that offset and leaves its width and height as they are. *)
Theorem getPieceBounds_translate (dx dy : Z) (coords : list Coordinate) :
  coords <> [] ->
  getPieceBounds (Some (map (translate dx dy) coords))
  = mkBounds (dx + minX (getPieceBounds (Some coords)))
             (dy + minY (getPieceBounds (Some coords)))
             (width (getPieceBounds (Some coords)))
             (height (getPieceBounds (Some coords))).
Proof.
  destruct coords as [|c rest]; [congruence|]. intros _.
  cbn [map getPieceBounds minX minY width height translate x y].
  assert (Ex : map x (map (translate dx dy) rest) = map (Z.add dx) (map x rest))
    by (rewrite !map_map; reflexivity).
  assert (Ey : map y (map (translate dx dy) rest) = map (Z.add dy) (map y rest))
    by (rewrite !map_map; reflexivity).
  rewrite Ex, Ey, !Math_min_shift, !Math_max_shift. f_equal; lia.
Qed.

Lemma getPieceBounds_translate_witness :
  getPieceBounds (Some (map (translate 3 (-2)) [pt 2 5; pt (-1) 7; pt 0 6]))
  = mkBounds 2 3 4 3.
Proof.
  rewrite (getPieceBounds_translate 3 (-2) [pt 2 5; pt (-1) 7; pt 0 6]).
  - reflexivity.
  - discriminate.
Defined.

Lemma normalizeCoords_sorted_form (l : list Coordinate) :
  normalizeCoords l
  = match sortYX l with
    | [] => Throws
    | first :: _ => Returns (map (translate (- x first) (- y first)) (sortYX l))
    end.
Proof.
  unfold normalizeCoords. destruct (sortYX l) as [|first rest]; [reflexivity|].
  f_equal. apply map_ext. intros c. unfold translate. f_equal; lia.
Qed.

(** X4: [normalizeCoords] sees neither the order of the cells nor where the
    shape lies: any rearrangement of any translate of a list is normalized to
    the same result. *)
Theorem normalizeCoords_canonical (dx dy : Z) (l l' : list Coordinate) :
  Permutation l' (map (translate dx dy) l) ->
  normalizeCoords l' = normalizeCoords l.
Proof.
  intros Hperm. rewrite !normalizeCoords_sorted_form.
  rewrite (sortYX_perm_eq _ _ Hperm), sortYX_translate.
  destruct (sortYX l) as [|first rest]; [reflexivity|].
  cbn [map]. rewrite map_map. f_equal. f_equal.
  - unfold translate. simpl. f_equal; lia.
  - apply map_ext. intros c. unfold translate. simpl. f_equal; lia.
Qed.

Lemma normalizeCoords_canonical_witness :
  normalizeCoords [pt 5 1; pt 4 2; pt 4 1] = normalizeCoords [pt 0 0; pt 1 0; pt 0 1].
Proof.
  apply (normalizeCoords_canonical 4 1 [pt 0 0; pt 1 0; pt 0 1] [pt 5 1; pt 4 2; pt 4 1]).
  simpl. apply perm_trans with [pt 5 1; pt 4 1; pt 4 2].
  - apply perm_skip. apply perm_swap.
  - apply perm_swap.
Defined.

(** X5: [normalizeCoords] is idempotent: a normalized list is normalized to
    itself. *)
Theorem normalizeCoords_idempotent (l n : list Coordinate) :
  normalizeCoords l = Returns n -> normalizeCoords n = Returns n.
Proof.
  rewrite normalizeCoords_sorted_form. intros H.
  pose proof (sortYX_sorted l) as Hsorted.
  destruct (sortYX l) as [|first rest] eqn:E; [discriminate H|].
  injection H as H. rewrite <- H. clear H.
  rewrite normalizeCoords_sorted_form.
  pose proof (sortYX_of_sorted _ (translate_sorted (- x first) (- y first) _ Hsorted))
    as Hs.
  cbn [map] in Hs. rewrite Hs.
  cbn [map]. rewrite map_map. f_equal. f_equal.
  - unfold translate. simpl. f_equal; lia.
  - apply map_ext. intros c. unfold translate. simpl. f_equal; lia.
Qed.

Lemma normalizeCoords_idempotent_witness :
  normalizeCoords [pt 0 0; pt (-1) 1; pt 0 1] = Returns [pt 0 0; pt (-1) 1; pt 0 1].
Proof.
  apply (normalizeCoords_idempotent [pt 5 1; pt 4 2; pt 5 2]). reflexivity.
Defined.

(** X6: on the empty list [normalizeCoords] raises; on any other list it
    returns as many cells as it was given, the first of them (0,0), all of
    them at or after (0,0) in reading order, and together the given cells
    moved so that the first cell in reading order lies on (0,0). *)
Theorem normalizeCoords_anchor (l : list Coordinate) :
  l <> [] ->
  normalizeCoords [] = Throws /\
  exists first rest,
    In first l /\
    (forall c, In c l -> leYX first c) /\
    normalizeCoords l = Returns (pt 0 0 :: rest) /\
    Permutation (pt 0 0 :: rest) (map (translate (- x first) (- y first)) l) /\
    List.length (pt 0 0 :: rest) = List.length l /\
    (forall c, In c (pt 0 0 :: rest) -> 0 < y c \/ (y c = 0 /\ 0 <= x c)).
Proof.
  intros Hne. split; [reflexivity|].
  pose proof (sortYX_sorted l) as Hsorted. pose proof (sortYX_perm l) as Hperm.
  rewrite normalizeCoords_sorted_form.
  destruct (sortYX l) as [|first rest] eqn:E.
  - apply Permutation_nil in Hperm. contradiction.
  - assert (Hfirst : forall c, In c l -> leYX first c).
    { intros c Hc. apply (Permutation_in c (Permutation_sym Hperm)) in Hc.
      inversion Hsorted as [|? ? _ Hall]; subst. rewrite Forall_forall in Hall.
      destruct Hc as [<-|Hc]; [apply leYX_iff; lia|apply Hall; exact Hc]. }
    exists first, (map (translate (- x first) (- y first)) rest).
    split; [apply (Permutation_in first Hperm); left; reflexivity|].
    split; [exact Hfirst|].
    assert (E0 : translate (- x first) (- y first) first = pt 0 0).
    { unfold translate, pt. f_equal; lia. }
    cbn [map]. rewrite E0. split; [reflexivity|].
    rewrite <- E0.
    change (translate (- x first) (- y first) first
              :: map (translate (- x first) (- y first)) rest)
      with (map (translate (- x first) (- y first)) (first :: rest)).
    split; [apply Permutation_map; exact Hperm|].
    split; [rewrite length_map; apply (Permutation_length Hperm)|].
    intros c Hc. apply in_map_iff in Hc. destruct Hc as (d & <- & Hd).
    apply (Permutation_in d Hperm) in Hd. specialize (Hfirst d Hd).
    apply leYX_iff in Hfirst. unfold translate. simpl. lia.
Qed.

Lemma normalizeCoords_anchor_witness :
  exists first rest,
    In first [pt 5 1; pt 4 2; pt 5 2] /\
    normalizeCoords [pt 5 1; pt 4 2; pt 5 2] = Returns (pt 0 0 :: rest).
Proof.
  destruct (normalizeCoords_anchor [pt 5 1; pt 4 2; pt 5 2]) as (_ & first & rest & H1 & _ & H3 & _).
  - discriminate.
  - exists first, rest. split; assumption.
Defined.

(** * More on the transform *)

Lemma rotationCount_negative (rotation : Z) : rotation < 0 -> rotationCount rotation = O.
Proof.
  intros H. unfold rotationCount.
  assert (Hrem : -360 < Z.rem rotation 360 <= 0).
  { pose proof (Z.rem_bound_abs rotation 360). pose proof (Z.rem_nonpos rotation 360).
    lia. }
  assert (Hq : (Z.rem rotation 360 + 89) / 90 <= 0).
  { apply Z.lt_succ_r. apply Z.div_lt_upper_bound; lia. }
  lia.
Qed.

Lemma rotationCount_period (rotation : Z) :
  0 <= rotation -> rotationCount (rotation + 360) = rotationCount rotation.
Proof.
  intros H. unfold rotationCount. rewrite !Z.rem_mod_nonneg; try lia.
  replace (rotation + 360) with (rotation + 1 * 360) by lia.
  rewrite Z.mod_add; [reflexivity|lia].
Qed.

(** X7: a negative angle turns nothing: [getTransformedCoordinates] gives for
    it what it gives for the angle 0 (so -90 is not 270); from 0 upwards the
    angle counts modulo 360. *)
Theorem getTransformedCoordinates_angle
    (pieceId : string) (negative rotation : Z) (isFlipped : bool) :
  negative < 0 -> 0 <= rotation ->
  getTransformedCoordinates pieceId negative isFlipped
    = getTransformedCoordinates pieceId 0 isFlipped /\
  getTransformedCoordinates pieceId (rotation + 360) isFlipped
    = getTransformedCoordinates pieceId rotation isFlipped.
Proof.
  intros Hneg Hrot. unfold getTransformedCoordinates.
  rewrite (rotationCount_negative negative Hneg), (rotationCount_period rotation Hrot).
  split; reflexivity.
Qed.

Lemma getTransformedCoordinates_angle_witness :
  getTransformedCoordinates "L" (-90) false = [pt 0 0; pt 1 0; pt 0 1] /\
  getTransformedCoordinates "L" 270 false = [pt 0 0; pt 0 (-1); pt 1 0] /\
  getTransformedCoordinates "L" 450 false = getTransformedCoordinates "L" 90 false.
Proof.
  destruct (getTransformedCoordinates_angle "L" (-90) 90 false) as [H1 H2]; try lia.
  split; [rewrite H1; reflexivity|]. split; [reflexivity|exact H2].
Defined.

Lemma NoDup_map_injective {A B : Type} (f : A -> B) (l : list A) :
  (forall a b, f a = f b -> a = b) -> NoDup l -> NoDup (map f l).
Proof.
  intros Hinj. induction 1 as [|a l Ha Hl IH]; simpl; constructor; [|exact IH].
  intros Hin. apply in_map_iff in Hin. destruct Hin as (b & E & Hb).
  apply Hinj in E. subst b. contradiction.
Qed.

Lemma quarterTurn_injective (a b : Coordinate) : quarterTurn a = quarterTurn b -> a = b.
Proof.
  destruct a as [ax ay], b as [bx b_y]. unfold quarterTurn. simpl.
  intros E. injection E as E1 E2. f_equal; lia.
Qed.

Lemma rotatePoint_injective (n : nat) (a b : Coordinate) :
  rotatePoint a n = rotatePoint b n -> a = b.
Proof.
  revert a b. induction n as [|n IH]; intros a b E; [exact E|].
  simpl in E. apply IH in E. apply (quarterTurn_injective a b E).
Qed.

Lemma catalog_shapes_NoDup (def : PieceDef) :
  In def PIECE_DEFINITIONS -> NoDup (initialShape def).
Proof.
  intros H.
  assert (Hall : forallb (fun d => distinctb Coordinate_eq_dec (initialShape d))
                         PIECE_DEFINITIONS = true) by (vm_compute; reflexivity).
  rewrite forallb_forall in Hall.
  apply (distinctb_NoDup Coordinate_eq_dec). apply Hall. exact H.
Qed.

Lemma getTransformedCoordinates_NoDup (pieceId : string) (rotation : Z) (isFlipped : bool) :
  NoDup (getTransformedCoordinates pieceId rotation isFlipped).
Proof.
  unfold getTransformedCoordinates.
  destruct (findDef pieceId) as [def|] eqn:E; [|constructor].
  apply findDef_some in E. destruct E as [Hdef _].
  apply NoDup_map_injective; [intros a b; apply rotatePoint_injective|].
  apply NoDup_map_injective; [|apply catalog_shapes_NoDup; exact Hdef].
  intros [ax ay] [bx b_y] E. simpl in E. injection E as E1 E2.
  destruct isFlipped; f_equal; lia.
Qed.

(** X8: whatever the angle and the flip, the transform of a catalog piece
    has as many cells as the piece's shape, no two of them equal. *)
Theorem getTransformedCoordinates_shape
    (def : PieceDef) (rotation : Z) (isFlipped : bool) :
  In def PIECE_DEFINITIONS ->
  List.length (getTransformedCoordinates (def_id def) rotation isFlipped)
    = List.length (initialShape def) /\
  NoDup (getTransformedCoordinates (def_id def) rotation isFlipped).
Proof.
  intros Hdef. split; [|apply getTransformedCoordinates_NoDup].
  unfold getTransformedCoordinates. rewrite (findDef_catalog def Hdef).
  rewrite !length_map. reflexivity.
Qed.

Lemma getTransformedCoordinates_shape_witness :
  List.length (getTransformedCoordinates "H" 135 true) = 5%nat /\
  NoDup (getTransformedCoordinates "H" 135 true).
Proof.
  apply (getTransformedCoordinates_shape
           (mkPieceDef "H" "shadow-[0_0_15px_#84cc16] bg-[#84cc16] border-[#bef264]"
              [pt 0 0; pt 1 0; pt 1 1; pt 2 1; pt 3 1]) 135 true).
  simpl. do 11 right. left. reflexivity.
Defined.

(** X9: from a stored rotation among 0, 90, 180, 270, the next rotation
    [(rotation + 90) % 360] turns every transformed cell by one quarter turn
    [(x, y) -> (-y, x)], for every piece id and flip. *)
Theorem getTransformedCoordinates_next_rotation
    (pieceId : string) (rotation : Z) (isFlipped : bool) :
  In rotation rotations ->
  getTransformedCoordinates pieceId (Z.rem (rotation + 90) 360) isFlipped
    = map quarterTurn (getTransformedCoordinates pieceId rotation isFlipped).
Proof.
  intros Hrot. unfold getTransformedCoordinates.
  destruct (findDef pieceId) as [def|]; [|reflexivity].
  rewrite !map_map. apply map_ext. intros p.
  generalize (mkCoordinate (if isFlipped then - x p else x p) (y p)). intros [a b].
  each_member Hrot
    ltac:(subst rotation;
          match goal with
          | |- rotatePoint _ (rotationCount ?r1) = quarterTurn (rotatePoint _ (rotationCount ?r2)) =>
              let n1 := eval vm_compute in (rotationCount r1) in
              let n2 := eval vm_compute in (rotationCount r2) in
              change (rotationCount r1) with n1; change (rotationCount r2) with n2
          end;
          unfold quarterTurn; simpl; f_equal; lia).
Qed.

Lemma getTransformedCoordinates_next_rotation_witness :
  getTransformedCoordinates "J" 0 true
    = map quarterTurn (getTransformedCoordinates "J" 270 true).
Proof.
  apply (getTransformedCoordinates_next_rotation "J" 270 true).
  simpl. do 3 right. left. reflexivity.
Defined.

(** * More on the search *)

Lemma scanRow_seq (grid : Grid) (row : nat) :
  wfGrid grid -> (row < Z.to_nat GRID_ROWS)%nat ->
  forall n start,
    (scanRow grid row (seq start n) = Returns None /\
     forall col, (start <= col < start + n)%nat -> nth col (nth row grid []) false = true)
    \/
    (exists col,
        scanRow grid row (seq start n) = Returns (Some col) /\
        (start <= col < start + n)%nat /\
        nth col (nth row grid []) false = false /\
        forall before, (start <= before < col)%nat ->
                       nth before (nth row grid []) false = true).
Proof.
  intros Hwf Hrow. induction n as [|n IH]; intros start.
  - left. split; [reflexivity|]. intros col Hcol. lia.
  - cbn [seq scanRow]. rewrite (readCell_nat grid row start Hwf Hrow).
    destruct (nth start (nth row grid []) false) eqn:Ecell.
    + destruct (IH (S start)) as [[E Hall]|(col & E & Hcol & Hfree & Hbefore)].
      * left. split; [exact E|]. intros col Hcol.
        destruct (Nat.eq_dec col start) as [->|Hne]; [exact Ecell|apply Hall; lia].
      * right. exists col. split; [exact E|]. split; [lia|]. split; [exact Hfree|].
        intros before Hb.
        destruct (Nat.eq_dec before start) as [->|Hne]; [exact Ecell|apply Hbefore; lia].
    + right. exists start. split; [reflexivity|]. split; [lia|]. split; [exact Ecell|].
      intros before Hb. lia.
Qed.

Lemma scanRows_seq (grid : Grid) :
  wfGrid grid ->
  forall n start,
    (start + n <= Z.to_nat GRID_ROWS)%nat ->
    (scanRows grid (seq start n) = Returns None /\
     forall row col, (start <= row < start + n)%nat -> (col < Z.to_nat GRID_COLS)%nat ->
                     nth col (nth row grid []) false = true)
    \/
    (exists row col,
        scanRows grid (seq start n) = Returns (Some (Z.of_nat col, Z.of_nat row)) /\
        (start <= row < start + n)%nat /\ (col < Z.to_nat GRID_COLS)%nat /\
        nth col (nth row grid []) false = false /\
        forall r c, (c < Z.to_nat GRID_COLS)%nat ->
                    (start <= r < row)%nat \/ (r = row /\ (c < col)%nat) ->
                    nth c (nth r grid []) false = true).
Proof.
  intros Hwf. induction n as [|n IH]; intros start Hn.
  - left. split; [reflexivity|]. intros row col Hrow. lia.
  - cbn [seq scanRows].
    destruct (scanRow_seq grid start Hwf) with (n := Z.to_nat GRID_COLS) (start := O)
      as [[E Hall]|(col & E & Hcol & Hfree & Hbefore)]; [lia| |]; rewrite E.
    + destruct (IH (S start)) as [[E' Hall']|(row & col & E' & Hrow & Hcol & Hfree & Hbefore)];
        [lia| |].
      * left. split; [exact E'|]. intros row col Hrow Hcol.
        destruct (Nat.eq_dec row start) as [->|Hne]; [apply Hall; lia|apply Hall'; lia].
      * right. exists row, col. split; [exact E'|]. split; [lia|]. split; [exact Hcol|].
        split; [exact Hfree|]. intros r c Hc Hr.
        destruct (Nat.eq_dec r start) as [->|Hne]; [apply Hall; lia|apply Hbefore; lia].
    + right. exists start, col. split; [reflexivity|]. split; [lia|]. split; [lia|].
      split; [exact Hfree|]. intros r c Hc [Hr|[-> Hlt]]; [lia|apply Hbefore; lia].
Qed.

(** X10: on a grid of 5 rows of 11 cells the scan of [solveRecursively]
    selects the first empty cell in reading order: the selected cell is empty
    and every cell of an earlier row, or earlier in its row, is occupied; it
    selects none only when every cell is occupied. *)
Theorem findEmpty_first (grid : Grid) :
  wfGrid grid ->
  (findEmpty grid = Returns None /\
   forall d, inGrid d = true -> cellAt grid d = true)
  \/
  (exists emptyX emptyY,
      findEmpty grid = Returns (Some (emptyX, emptyY)) /\
      inGrid (pt emptyX emptyY) = true /\
      cellAt grid (pt emptyX emptyY) = false /\
      forall d, inGrid d = true ->
                y d < emptyY \/ (y d = emptyY /\ x d < emptyX) ->
                cellAt grid d = true).
Proof.
  intros Hwf. unfold findEmpty.
  destruct (scanRows_seq grid Hwf (Z.to_nat GRID_ROWS) O)
    as [[E Hall]|(row & col & E & Hrow & Hcol & Hfree & Hbefore)]; [lia| |].
  - left. split; [exact E|]. intros d Hd. apply inGrid_bounds in Hd.
    unfold cellAt. apply Hall; unfold GRID_ROWS, GRID_COLS in *; lia.
  - right. exists (Z.of_nat col), (Z.of_nat row). split; [exact E|].
    unfold GRID_ROWS, GRID_COLS in *. split; [|split].
    + apply inGrid_bounds. unfold GRID_ROWS, GRID_COLS. simpl. lia.
    + unfold cellAt. simpl. rewrite !Nat2Z.id. exact Hfree.
    + intros d Hd Hlt. apply inGrid_bounds in Hd. unfold GRID_ROWS, GRID_COLS in Hd.
      unfold cellAt. apply Hbefore; lia.
Qed.

Lemma findEmpty_first_witness :
  findEmpty [[true; true; true; true; true; true; true; true; true; true; true];
             [true; true; true; false; true; true; false; true; true; true; true];
             [false; true; true; true; true; true; true; true; true; true; true];
             [true; true; true; true; true; true; true; true; true; true; true];
             [true; true; true; true; true; true; true; true; true; true; true]]
  = Returns (Some (3, 1)).
Proof.
  destruct (findEmpty_first
              [[true; true; true; true; true; true; true; true; true; true; true];
               [true; true; true; false; true; true; false; true; true; true; true];
               [false; true; true; true; true; true; true; true; true; true; true];
               [true; true; true; true; true; true; true; true; true; true; true];
               [true; true; true; true; true; true; true; true; true; true; true]])
    as [[E _]|(emptyX & emptyY & E & _)].
  - split; [reflexivity|]. repeat constructor.
  - vm_compute in E. discriminate E.
  - reflexivity.
Defined.

(** X11: backtracking leaves no trace: when [solveRecursively] returns
    [null] on a grid of 5 rows of 11 cells, the grid is cell for cell what it
    was before the call, whatever the table of variations. *)
Theorem solveRecursively_null_restores
    (table : VariationTable) (grid back : Grid) (ids : list string) :
  wfGrid grid ->
  solveRecursively table grid ids = Returns (None, back) ->
  back = grid.
Proof.
  intros Hwf H. pose proof (solveRecursively_inv table ids grid Hwf) as Hinv.
  rewrite H in Hinv. exact Hinv.
Qed.

Lemma solveRecursively_null_restores_witness :
  solveRecursively tableInOrder emptyGrid failingOrder = Returns (None, emptyGrid).
Proof.
  assert (H : exists back,
             solveRecursively tableInOrder emptyGrid failingOrder = Returns (None, back)).
  { eexists. vm_compute. reflexivity. }
  destruct H as (back & H).
  rewrite H. f_equal. f_equal.
  apply (solveRecursively_null_restores tableInOrder emptyGrid back failingOrder
           emptyGrid_wf H).
Defined.

Lemma findEmpty_returns (grid : Grid) :
  wfGrid grid -> exists r, findEmpty grid = Returns r.
Proof.
  intros Hwf. unfold findEmpty.
  destruct (scanRows_seq grid Hwf (Z.to_nat GRID_ROWS) O)
    as [[E _]|(row & col & E & _)]; [lia| |]; eexists; exact E.
Qed.

Lemma normalizeCoords_nonempty (l n : list Coordinate) :
  normalizeCoords l = Returns n -> exists first rest, sortYX l = first :: rest.
Proof.
  unfold normalizeCoords. destruct (sortYX l) as [|first rest]; [discriminate|].
  intros _. exists first, rest. reflexivity.
Qed.

Lemma placedRecord_returns (table : VariationTable) (pieceId : string)
    (variations : list PieceVariation) (v : PieceVariation) (emptyX emptyY : Z) :
  builtTable table -> table pieceId = Some variations -> In v variations ->
  exists piece, placedRecord pieceId emptyX emptyY v = Returns piece.
Proof.
  intros Hbuilt Htable Hv.
  destruct (builtTable_variation table Hbuilt pieceId variations v Htable Hv)
    as (def & _ & Eid & Hok).
  destruct (variationOkb_facts def v Hok) as (Hnorm & _). rewrite Eid in Hnorm.
  destruct (normalizeCoords_nonempty _ _ Hnorm) as (first & rest & E).
  unfold placedRecord. rewrite E. eexists. reflexivity.
Qed.

(** What a call on a well-formed grid is known to do: it returns, and
    [solveInv] holds of what it returns. *)
Lemma tryVariations_returns (table : VariationTable)
    (recurse : Grid -> outcome SolverResult)
    (pieceId : string) (restIds : list string) (emptyX emptyY : Z)
    (variations : list PieceVariation) :
  builtTable table -> table pieceId = Some variations ->
  (forall placed, wfGrid placed ->
     exists r, recurse placed = Returns r /\ solveInv table placed restIds (Returns r)) ->
  forall vs grid, incl vs variations -> wfGrid grid ->
    exists r, tryVariations recurse pieceId emptyX emptyY vs grid = Returns r.
Proof.
  intros Hbuilt Htable Hrec. induction vs as [|v others IH]; intros grid Hincl Hwf.
  - eexists. reflexivity.
  - assert (Hothers : incl others variations)
      by (intros w Hw; apply Hincl; right; exact Hw).
    cbn [tryVariations].
    destruct (fits_wf emptyX emptyY (coords v) grid Hwf) as [Efits|[Efits Hall]];
      rewrite Efits; [apply IH; assumption|].
    destruct (markCells_wf emptyX emptyY true (coords v) grid Hwf)
      as (placed & Emark & Hwfp & _).
    { intros c Hc. apply Hall. exact Hc. }
    rewrite Emark. destruct (Hrec placed Hwfp) as ([[result|] final] & Er & Hinv);
      rewrite Er.
    + destruct (placedRecord_returns table pieceId variations v emptyX emptyY
                  Hbuilt Htable) as (piece & Ep); [apply Hincl; left; reflexivity|].
      rewrite Ep. eexists. reflexivity.
    + simpl in Hinv. subst final.
      rewrite (markCells_undo emptyX emptyY (coords v) grid placed Hwf Efits Emark).
      apply IH; assumption.
Qed.

Lemma solveRecursively_returns (table : VariationTable) (ids : list string) :
  builtTable table -> Forall (fun pieceId => In pieceId catalogIds) ids ->
  forall grid, wfGrid grid ->
    exists r, solveRecursively table grid ids = Returns r.
Proof.
  intros Hbuilt. induction ids as [|pieceId restIds IH]; intros Hids grid Hwf.
  - eexists. reflexivity.
  - inversion Hids as [|? ? Hid Hrest]; subst.
    rewrite solveRecursively_eq. unfold solveBody.
    destruct (findEmpty_returns grid Hwf) as ([[emptyX emptyY]|] & E); rewrite E;
      [|eexists; reflexivity].
    destruct (catalogIds_In pieceId Hid) as (def & Hdef & Eid).
    destruct (builtTable_catalog table Hbuilt def Hdef) as (variations & _ & Etable & _).
    rewrite Eid in Etable. rewrite Etable.
    apply (tryVariations_returns table _ pieceId restIds emptyX emptyY variations
             Hbuilt Etable); [|apply incl_refl|exact Hwf].
    intros placed Hwfp. destruct (IH Hrest placed Hwfp) as (r & Er).
    exists r. split; [exact Er|]. rewrite <- Er.
    apply solveRecursively_inv. exact Hwfp.
Qed.

(** With a built table and shuffles of the catalog ids, [generateValidBoard]
    returns, or every shuffle that the stack has room for fails and the stack
    is used up. *)
Lemma generateValidBoard_outcome (table : VariationTable)
    (shuffledIds : nat -> list string) (stack : nat) :
  builtTable table ->
  (forall k, Permutation (shuffledIds k) catalogIds) ->
  forall attempt,
    (exists solution,
        generateValidBoard table shuffledIds stack attempt = Returns solution) \/
    (generateValidBoard table shuffledIds stack attempt = Throws /\
     forall k, (attempt <= k < attempt + stack)%nat ->
               exists back, solveRecursively table emptyGrid (shuffledIds k)
                            = Returns (None, back)).
Proof.
  intros Hbuilt Hshuffle.
  induction stack as [|stack IH]; intros attempt.
  - right. split; [reflexivity|]. intros k Hk. lia.
  - cbn [generateValidBoard].
    destruct (solveRecursively_returns table (shuffledIds attempt) Hbuilt)
      with (grid := emptyGrid) as ([[result|] final] & E).
    + apply Forall_forall. intros pieceId Hin.
      apply (Permutation_in pieceId (Hshuffle attempt) Hin).
    + apply emptyGrid_wf.
    + rewrite E. left. exists result. reflexivity.
    + rewrite E. destruct (IH (S attempt)) as [Hret|[Hthrows Hfail]].
      * left. exact Hret.
      * right. split; [exact Hthrows|]. intros k Hk.
        destruct (Nat.eq_dec k attempt) as [->|Hne].
        -- exists final. exact E.
        -- apply Hfail. lia.
Qed.

(** X12: with a table that [precomputeVariations] builds and ids of the
    catalog, [solveRecursively] on a grid of 5 rows of 11 cells never raises:
    it returns a solution or [null].  [generateValidBoard] returns a solution
    or raises, and it raises for one reason only, the used-up call stack:
    exactly when every shuffle that the stack has room for has failed. *)
Theorem solver_raises_only_on_full_stack
    (table : VariationTable) (grid : Grid) (ids : list string)
    (shuffledIds : nat -> list string) (stack attempt : nat) :
  builtTable table -> wfGrid grid ->
  Forall (fun pieceId => In pieceId catalogIds) ids ->
  (forall k, Permutation (shuffledIds k) catalogIds) ->
  (exists r, solveRecursively table grid ids = Returns r) /\
  ((exists solution,
       generateValidBoard table shuffledIds stack attempt = Returns solution) \/
   generateValidBoard table shuffledIds stack attempt = Throws) /\
  (generateValidBoard table shuffledIds stack attempt = Throws <->
   forall k, (attempt <= k < attempt + stack)%nat ->
             exists back, solveRecursively table emptyGrid (shuffledIds k)
                          = Returns (None, back)).
Proof.
  intros Hbuilt Hwf Hids Hshuffle.
  split; [apply solveRecursively_returns; assumption|].
  destruct (generateValidBoard_outcome table shuffledIds stack Hbuilt Hshuffle attempt)
    as [(solution & Hret)|[Hthrows Hfail]].
  - split; [left; exists solution; exact Hret|]. split.
    + intros H. rewrite Hret in H. discriminate H.
    + intros Hfail.
      rewrite (generateValidBoard_exhausted table shuffledIds stack attempt Hfail) in Hret.
      discriminate Hret.
  - split; [right; exact Hthrows|]. split; [intros _; exact Hfail|intros _; exact Hthrows].
Qed.

Lemma solver_raises_only_on_full_stack_witness :
  (exists r, solveRecursively tableInOrder emptyGrid ["K"; "K"; "A"]%string = Returns r) /\
  generateValidBoard tableInOrder twoFailuresThenSolved 2 0 = Throws /\
  exists solution,
    generateValidBoard tableInOrder twoFailuresThenSolved 3 0 = Returns solution.
Proof.
  assert (Hperm : forall k, Permutation (twoFailuresThenSolved k) catalogIds).
  { intros k. apply failuresThenSolved_perm. }
  assert (Hids : Forall (fun pieceId => In pieceId catalogIds) ["K"; "K"; "A"]%string).
  { repeat constructor; simpl; tauto. }
  destruct (solver_raises_only_on_full_stack tableInOrder emptyGrid ["K"; "K"; "A"]%string
              twoFailuresThenSolved 2 0 tableInOrder_built emptyGrid_wf Hids Hperm)
    as (Hsolver & _ & Hthrows).
  destruct (solver_raises_only_on_full_stack tableInOrder emptyGrid ["K"; "K"; "A"]%string
              twoFailuresThenSolved 3 0 tableInOrder_built emptyGrid_wf Hids Hperm)
    as (_ & [Hret|Hbad] & Hiff).
  - split; [exact Hsolver|]. split; [|exact Hret].
    apply Hthrows. intros k Hk. exists emptyGrid.
    apply failuresThenSolved_fails. lia.
  - exfalso. destruct Hiff as [Hall _].
    destruct (Hall Hbad 2%nat) as (back & E); [lia|].
    unfold twoFailuresThenSolved in E. rewrite failuresThenSolved_solved in E.
    discriminate E.
Defined.

(** The loop finds a solution when one of the variations it goes through
    fits and leads to one. *)
Lemma tryVariations_complete (table : VariationTable)
    (recurse : Grid -> outcome SolverResult)
    (pieceId : string) (restIds : list string) (emptyX emptyY : Z)
    (variations : list PieceVariation) (grid placed : Grid) (v : PieceVariation) :
  builtTable table -> table pieceId = Some variations -> wfGrid grid ->
  (forall g, wfGrid g ->
     exists r, recurse g = Returns r /\ solveInv table g restIds (Returns r)) ->
  fits grid emptyX emptyY (coords v) = Returns true ->
  markCells grid emptyX emptyY (coords v) true = Returns placed ->
  (exists result final, recurse placed = Returns (Some result, final)) ->
  forall vs, incl vs variations -> In v vs ->
    exists result final,
      tryVariations recurse pieceId emptyX emptyY vs grid = Returns (Some result, final).
Proof.
  intros Hbuilt Htable Hwf Hrec Hfits Hmark (result0 & final0 & Hsolved).
  induction vs as [|w others IH]; intros Hincl Hin; [destruct Hin|].
  assert (Hothers : incl others variations)
    by (intros u Hu; apply Hincl; right; exact Hu).
  assert (Hw : In w variations) by (apply Hincl; left; reflexivity).
  cbn [tryVariations].
  destruct (fits_wf emptyX emptyY (coords w) grid Hwf) as [Efits|[Efits Hall]];
    rewrite Efits.
  - destruct Hin as [->|Hin]; [congruence|]. apply IH; assumption.
  - destruct (markCells_wf emptyX emptyY true (coords w) grid Hwf)
      as (placedw & Emark & Hwfp & _).
    { intros c Hc. apply Hall. exact Hc. }
    rewrite Emark.
    destruct (placedRecord_returns table pieceId variations w emptyX emptyY
                Hbuilt Htable Hw) as (piece & Ep).
    destruct (Hrec placedw Hwfp) as ([[result|] final] & Er & Hinv); rewrite Er.
    + rewrite Ep. eexists. eexists. reflexivity.
    + simpl in Hinv. subst final.
      rewrite (markCells_undo emptyX emptyY (coords w) grid placedw Hwf Efits Emark).
      destruct Hin as [->|Hin]; [|apply IH; assumption].
      rewrite Hmark in Emark. injection Emark as ->. congruence.
Qed.

Lemma searchPath_complete (table : VariationTable) (grid final : Grid)
    (ids : list string) (steps : list (PlacedPiece * list Coordinate)) :
  builtTable table ->
  searchPath table grid ids steps final ->
  wfGrid grid -> Forall (fun pieceId => In pieceId catalogIds) ids ->
  exists result final',
    solveRecursively table grid ids = Returns (Some result, final').
Proof.
  intros Hbuilt.
  induction 1 as [grid|grid ids Hfull|grid pieceId restIds emptyX emptyY variations v placed
                  piece steps final Hempty Htable Hv Hfits Hmark Hrec Hpath IH];
    intros Hwf Hids.
  - eexists. eexists. reflexivity.
  - rewrite solveRecursively_eq. unfold solveBody.
    destruct ids; [eexists; eexists; reflexivity|].
    rewrite Hfull. eexists. eexists. reflexivity.
  - inversion Hids as [|? ? Hid Hrest]; subst.
    rewrite solveRecursively_eq. unfold solveBody. rewrite Hempty, Htable.
    destruct (fits_wf emptyX emptyY (coords v) grid Hwf) as [E|[_ Hall]]; [congruence|].
    destruct (markCells_wf emptyX emptyY true (coords v) grid Hwf)
      as (placed' & Emark & Hwfp & _).
    { intros c Hc. apply Hall. exact Hc. }
    rewrite Emark in Hmark. injection Hmark as ->.
    apply (tryVariations_complete table _ pieceId restIds emptyX emptyY variations
             grid placed v Hbuilt Htable Hwf); auto using incl_refl.
    intros g Hg. destruct (solveRecursively_returns table restIds Hbuilt Hrest g Hg)
      as (r & Er).
    exists r. split; [exact Er|]. rewrite <- Er. apply solveRecursively_inv. exact Hg.
Qed.

(** * Completeness of the search *)

Lemma readsBeforeb_spec (a b : Coordinate) :
  readsBeforeb a b = true <-> readsBefore a b.
Proof.
  unfold readsBeforeb, readsBefore.
  rewrite orb_true_iff, andb_true_iff, !Z.ltb_lt, Z.eqb_eq. tauto.
Qed.

Lemma readsBefore_total (a b : Coordinate) : a = b \/ readsBefore a b \/ readsBefore b a.
Proof.
  destruct a as [ax ay], b as [bx b_y]. unfold readsBefore. cbn [x y].
  destruct (Z.eq_dec ax bx) as [->|Hx], (Z.eq_dec ay b_y) as [->|Hy].
  - left. reflexivity.
  - right. lia.
  - right. lia.
  - right. lia.
Qed.

Lemma readsBefore_asym (a b : Coordinate) : readsBefore a b -> readsBefore b a -> False.
Proof. unfold readsBefore. lia. Qed.

Lemma readsBefore_irrefl (a : Coordinate) : ~ readsBefore a a.
Proof. unfold readsBefore. lia. Qed.

Lemma firstFree_unique (occupied : Coordinate -> bool) (e e' : Coordinate) :
  firstFree occupied e -> firstFree occupied e' -> e = e'.
Proof.
  intros (Hin & Hfree & Hbefore) (Hin' & Hfree' & Hbefore').
  destruct (readsBefore_total e e') as [E|[H|H]]; [exact E| |].
  - rewrite (Hbefore' e Hin H) in Hfree. discriminate Hfree.
  - rewrite (Hbefore e' Hin' H) in Hfree'. discriminate Hfree'.
Qed.

Lemma firstCell_spec (shape : list Coordinate) (first : Coordinate) :
  firstCell shape = Some first ->
  In first shape /\ forall c, In c shape -> c = first \/ readsBefore first c.
Proof.
  unfold firstCell. intros H. apply find_some in H. destruct H as [Hin Hall].
  split; [exact Hin|]. rewrite forallb_forall in Hall.
  intros c Hc. specialize (Hall c Hc). apply orb_true_iff in Hall.
  destruct Hall as [E|Hlt].
  - left. apply Coordinate_eqb_eq. exact E.
  - right. apply readsBeforeb_spec. exact Hlt.
Qed.

Lemma first_cell_unique (shape : list Coordinate) (a b : Coordinate) :
  In a shape -> (forall c, In c shape -> c = a \/ readsBefore a c) ->
  In b shape -> (forall c, In c shape -> c = b \/ readsBefore b c) ->
  a = b.
Proof.
  intros Ha Hmina Hb Hminb.
  destruct (Hmina b Hb) as [E|Hab]; [symmetry; exact E|].
  destruct (Hminb a Ha) as [E|Hba]; [exact E|].
  destruct (readsBefore_asym a b Hab Hba).
Qed.

Lemma sameCells_In (a b : list Coordinate) :
  sameCells a b = true -> forall c, In c a <-> In c b.
Proof.
  unfold sameCells. intros H. apply andb_prop in H. destruct H as [Hab Hba].
  rewrite forallb_forall in Hab, Hba.
  intros c. split; intros Hc.
  - apply existsb_Coordinate_In. apply Hab. exact Hc.
  - apply existsb_Coordinate_In. apply Hba. exact Hc.
Qed.

Lemma existsb_Coordinate_same (d : Coordinate) (l l' : list Coordinate) :
  (forall c, In c l <-> In c l') ->
  existsb (Coordinate_eqb d) l = existsb (Coordinate_eqb d) l'.
Proof.
  intros Hsame.
  destruct (existsb (Coordinate_eqb d) l) eqn:E1;
    destruct (existsb (Coordinate_eqb d) l') eqn:E2; try reflexivity.
  - apply existsb_Coordinate_In in E1. apply Hsame in E1.
    apply existsb_Coordinate_In in E1. congruence.
  - apply existsb_Coordinate_In in E2. apply Hsame in E2.
    apply existsb_Coordinate_In in E2. congruence.
Qed.

Lemma orientationsOkb_checked : orientationsOkb = true.
Proof. vm_compute. reflexivity. Qed.

Lemma fits_complete (emptyX emptyY : Z) (cs : list Coordinate) (grid : Grid) :
  wfGrid grid ->
  (forall c, In c (map (translate emptyX emptyY) cs) ->
             inGrid c = true /\ cellAt grid c = false) ->
  fits grid emptyX emptyY cs = Returns true.
Proof.
  intros Hwf Hall.
  destruct (fits_wf emptyX emptyY cs grid Hwf) as [Hfalse|[Htrue _]]; [|exact Htrue].
  exfalso. induction cs as [|c rest IH]; [discriminate Hfalse|].
  simpl fits in Hfalse. simpl map in Hall.
  change (emptyX + x c) with (x (translate emptyX emptyY c)) in Hfalse.
  change (emptyY + y c) with (y (translate emptyX emptyY c)) in Hfalse.
  destruct (Hall (translate emptyX emptyY c) (or_introl eq_refl)) as [Hin Hfree].
  rewrite inGrid_outOfGrid, Hin in Hfalse. cbn [negb] in Hfalse.
  rewrite (readCell_wf grid _ Hwf Hin), Hfree in Hfalse.
  apply IH; [|exact Hfalse].
  intros d Hd. apply Hall. right. exact Hd.
Qed.

Lemma findEmpty_cases (grid : Grid) :
  wfGrid grid ->
  (findEmpty grid = Returns None /\
   forall d, inGrid d = true -> cellAt grid d = true)
  \/
  (exists e,
      findEmpty grid = Returns (Some (x e, y e)) /\ firstFree (cellAt grid) e).
Proof.
  intros Hwf. unfold findEmpty.
  destruct (scanRows_seq grid Hwf (Z.to_nat GRID_ROWS) O)
    as [[E Hall]|(row & col & E & Hrow & Hcol & Hfree & Hbefore)]; [lia| |].
  - left. split; [exact E|]. intros d Hd. apply inGrid_bounds in Hd.
    unfold cellAt. apply Hall; unfold GRID_ROWS, GRID_COLS in *; lia.
  - right. exists (pt (Z.of_nat col) (Z.of_nat row)). split; [exact E|].
    unfold GRID_ROWS, GRID_COLS in *. split; [|split].
    + apply inGrid_bounds. unfold GRID_ROWS, GRID_COLS. simpl. lia.
    + unfold cellAt. simpl. rewrite !Nat2Z.id. exact Hfree.
    + intros d Hd Hlt. apply inGrid_bounds in Hd. unfold GRID_ROWS, GRID_COLS in Hd.
      unfold readsBefore in Hlt. cbn [x y pt] in Hlt.
      unfold cellAt. apply Hbefore; lia.
Qed.

(** A placement in order, as geometry has it, is a path that the search can
    take. *)
Lemma placeable_searchPath (table : VariationTable) (occupied : Coordinate -> bool)
    (ids : list string) :
  builtTable table ->
  placeable occupied ids ->
  forall grid,
    wfGrid grid ->
    (forall d, inGrid d = true -> cellAt grid d = occupied d) ->
    exists steps final, searchPath table grid ids steps final.
Proof.
  intros Hbuilt.
  induction 1 as [occupied|occupied ids Hfull
                 |occupied def isFlipped rotation e cells restIds
                    Hdef Ho Hfree Hanchor Hcells Hrest IH];
    intros grid Hwf Hocc.
  - exists [], grid. apply path_done.
  - exists [], grid. apply path_full.
    destruct (findEmpty_cases grid Hwf) as [[E _]|(e & _ & Hin & Hfree & _)]; [exact E|].
    rewrite (Hocc e Hin), (Hfull e Hin) in Hfree. discriminate Hfree.
  - destruct (findEmpty_cases grid Hwf) as [[_ Hall]|(e' & Eempty & Hfree')].
    { destruct Hfree as (Hin & Hf & _).
      rewrite <- (Hocc e Hin), (Hall e Hin) in Hf. discriminate Hf. }
    assert (Ee : e' = e).
    { apply (firstFree_unique occupied); [|exact Hfree].
      destruct Hfree' as (Hin' & Hf' & Hb'). split; [exact Hin'|].
      split; [rewrite <- (Hocc e' Hin'); exact Hf'|].
      intros d Hd Hlt. rewrite <- (Hocc d Hd). apply Hb'; assumption. }
    subst e'.
    destruct (builtTable_catalog table Hbuilt def Hdef)
      as (variations & pushed & Etable & Epushed & Hperm).
    pose proof orientationsOkb_checked as Hok. unfold orientationsOkb in Hok.
    rewrite forallb_forall in Hok. specialize (Hok def Hdef).
    rewrite forallb_forall in Hok. specialize (Hok (isFlipped, rotation) Ho).
    unfold orientationOkb in Hok. cbn [fst snd] in Hok. cbv zeta in Hok.
    destruct (firstCell (transformSpec (initialShape def) rotation isFlipped))
      as [first0|] eqn:Efirst; [|discriminate Hok].
    rewrite Epushed in Hok. apply existsb_exists in Hok.
    destruct Hok as (v & Hv & Hsame).
    apply firstCell_spec in Efirst. destruct Efirst as [Hin0 Hmin0].
    destruct Hanchor as (first & Hin1 & Hmin1 & Ecells).
    assert (E : first = first0)
      by (apply (first_cell_unique _ _ _ Hin1 Hmin1 Hin0 Hmin0)).
    subst first0.
    assert (Hset : forall c, In c (map (translate (x e) (y e)) (coords v)) <-> In c cells).
    { intros c. rewrite Ecells, !in_map_iff. split.
      - intros (n & En & Hn). apply (sameCells_In _ _ Hsame) in Hn.
        apply in_map_iff in Hn. destruct Hn as (s & Es & Hs).
        exists s. split; [|exact Hs]. subst c n.
        unfold translate. cbn [x y]. f_equal; lia.
      - intros (s & Es & Hs).
        exists (translate (- x first) (- y first) s). split.
        + subst c. unfold translate. cbn [x y]. f_equal; lia.
        + apply (sameCells_In _ _ Hsame). apply in_map. exact Hs. }
    assert (Hroom : forall c, In c (map (translate (x e) (y e)) (coords v)) ->
                              inGrid c = true /\ cellAt grid c = false).
    { intros c Hc. apply Hset in Hc. destruct (Hcells c Hc) as [Hg Hf].
      split; [exact Hg|]. rewrite (Hocc c Hg). exact Hf. }
    pose proof (fits_complete (x e) (y e) (coords v) grid Hwf Hroom) as Efits.
    destruct (markCells_wf (x e) (y e) true (coords v) grid Hwf) as (placed & Emark & Hwfp & Hget).
    { intros c Hc. apply (Hroom c Hc). }
    assert (Hvin : In v variations)
      by (apply (Permutation_in v (Permutation_sym Hperm) Hv)).
    destruct (placedRecord_returns table (def_id def) variations v (x e) (y e)
                Hbuilt Etable Hvin) as (piece & Erecord).
    destruct (IH placed Hwfp) as (steps & final & Hpath).
    { intros d Hd. rewrite (Hget d Hd).
      rewrite (existsb_Coordinate_same d _ _ Hset).
      destruct (existsb (Coordinate_eqb d) cells); [symmetry; apply orb_true_r|].
      rewrite orb_false_r. apply Hocc. exact Hd. }
    eexists. exists final.
    apply (path_place table grid (def_id def) restIds (x e) (y e) variations v placed
             piece steps final Eempty Etable Hvin Efits Emark Erecord Hpath).
Qed.

Lemma orientation_In (o : bool * Z) :
  existsb (fun o' => Bool.eqb (fst o') (fst o) && (snd o' =? snd o)) orientations = true ->
  In o orientations.
Proof.
  intros H. apply existsb_exists in H. destruct H as ([f r] & Hin & E).
  destruct o as [f' r']. cbn [fst snd] in E. apply andb_prop in E. destruct E as [Ef Er].
  apply Bool.eqb_prop in Ef. apply Z.eqb_eq in Er. subst. exact Hin.
Qed.

Lemma planOkb_sound (ids : list string) :
  forall (occupied : Coordinate -> bool) (plan : list (bool * Z)),
    planOkb occupied ids plan = true -> placeable occupied ids.
Proof.
  induction ids as [|pieceId restIds IH]; intros occupied plan H; [apply placeable_none|].
  cbn [planOkb] in H.
  destruct (find (fun d => negb (occupied d)) gridCells) as [e|] eqn:Efind.
  2:{ apply placeable_full. intros d Hd. apply gridCells_In in Hd.
      pose proof (find_none _ _ Efind d Hd) as Hn. apply negb_false_iff in Hn. exact Hn. }
  destruct plan as [|[isFlipped rotation] restPlan]; [discriminate H|].
  destruct (findDef pieceId) as [def|] eqn:Edef; [|discriminate H].
  cbn [fst snd] in H. cbv zeta in H.
  destruct (firstCell (transformSpec (initialShape def) rotation isFlipped))
    as [first|] eqn:Efirst; [|discriminate H].
  rewrite !andb_true_iff in H. destruct H as [[[Ho Hbefore] Hcells] Hrest].
  apply findDef_some in Edef. destruct Edef as [Hdef <-].
  apply find_some in Efind. destruct Efind as [Hein Hefree].
  apply firstCell_spec in Efirst. destruct Efirst as [Hfin Hfmin].
  rewrite forallb_forall in Hbefore, Hcells.
  apply (placeable_piece occupied def isFlipped rotation e
           (map (translate (x e - x first) (y e - y first))
                (transformSpec (initialShape def) rotation isFlipped))).
  - exact Hdef.
  - apply (orientation_In (isFlipped, rotation)). exact Ho.
  - split; [apply gridCells_In; exact Hein|].
    split; [apply negb_true_iff; exact Hefree|].
    intros d Hd Hlt. apply gridCells_In in Hd. specialize (Hbefore d Hd).
    apply readsBeforeb_spec in Hlt. rewrite Hlt in Hbefore. exact Hbefore.
  - exists first. split; [exact Hfin|]. split; [exact Hfmin|reflexivity].
  - intros c Hc. specialize (Hcells c Hc). apply andb_prop in Hcells.
    destruct Hcells as [Hg Hf]. split; [exact Hg|]. apply negb_true_iff. exact Hf.
  - apply (IH _ restPlan). exact Hrest.
Qed.

(** X13: the search is complete.  With a built table, catalog ids and a grid
    of 5 rows of 11 cells, [solveRecursively] returns a solution whenever the
    pieces can be placed in the given order, each in one of its 8
    orientations with its first cell in reading order on the first free cell
    of the grid and all its cells on the grid and free; so it returns [null]
    only when no such placement exists.  The placement is said of cells and
    shapes alone. *)
Theorem solveRecursively_complete
    (table : VariationTable) (grid : Grid) (ids : list string) :
  builtTable table -> wfGrid grid ->
  Forall (fun pieceId => In pieceId catalogIds) ids ->
  (placeable (cellAt grid) ids ->
   exists result final, solveRecursively table grid ids = Returns (Some result, final))
  /\
  (forall back, solveRecursively table grid ids = Returns (None, back) ->
                ~ placeable (cellAt grid) ids).
Proof.
  intros Hbuilt Hwf Hids.
  assert (Hcomplete : placeable (cellAt grid) ids ->
            exists result final,
              solveRecursively table grid ids = Returns (Some result, final)).
  { intros Hplace.
    destruct (placeable_searchPath table (cellAt grid) ids Hbuilt Hplace grid Hwf)
      as (steps & final & Hpath); [reflexivity|].
    apply (searchPath_complete table grid final ids steps Hbuilt Hpath Hwf Hids). }
  split; [exact Hcomplete|].
  intros back Hnull Hplace.
  destruct (Hcomplete Hplace) as (result & final & E).
  rewrite E in Hnull. discriminate Hnull.
Qed.

Lemma solveRecursively_complete_witness :
  (exists v rest,
      tableInOrder "B"%string = Some (v :: rest) /\
      var_rotation v = 0 /\
      fits emptyGrid 0 0 (coords v) = Returns true) /\
  exists final,
    solveRecursively tableInOrder emptyGrid ["B"; "G"]%string
    = Returns (Some [mkPlacedPiece "B" 2 2 180 false (Some true);
                     mkPlacedPiece "G" 4 0 0 true (Some true)], final).
Proof.
  split.
  { eexists. eexists. split; [vm_compute; reflexivity|].
    split; [reflexivity | vm_compute; reflexivity]. }
  destruct (solveRecursively_complete tableInOrder emptyGrid ["B"; "G"]%string
              tableInOrder_built emptyGrid_wf) as [Hcomplete _].
  - repeat constructor; simpl; tauto.
  - destruct Hcomplete as (result & final & E).
    + apply (planOkb_sound _ _ [(false, 180); (true, 0)]). vm_compute. reflexivity.
    + exists final. rewrite E. vm_compute in E. injection E as <- _. reflexivity.
Defined.

Lemma existsb_Coordinate_perm (d : Coordinate) (l l' : list Coordinate) :
  Permutation l l' ->
  existsb (Coordinate_eqb d) l = existsb (Coordinate_eqb d) l'.
Proof.
  intros Hperm.
  destruct (existsb (Coordinate_eqb d) l) eqn:E1;
    destruct (existsb (Coordinate_eqb d) l') eqn:E2; try reflexivity.
  - apply existsb_Coordinate_In in E1. apply (Permutation_in d Hperm) in E1.
    apply existsb_Coordinate_In in E1. congruence.
  - apply existsb_Coordinate_In in E2. apply (Permutation_in d (Permutation_sym Hperm)) in E2.
    apply existsb_Coordinate_In in E2. congruence.
Qed.

(** X14: what a solution means on any starting grid.  When [solveRecursively]
    returns a solution on a grid of 5 rows of 11 cells, the returned pieces
    carry the leading ids of the list in order, their replayed cells are
    pairwise different, inside the grid and were free before the call; the
    grid afterwards is the grid before with exactly those cells occupied; and
    ids are left over only if the grid has become full. *)
Theorem solveRecursively_sound
    (table : VariationTable) (grid final : Grid) (ids : list string)
    (result : list PlacedPiece) :
  builtTable table -> wfGrid grid ->
  solveRecursively table grid ids = Returns (Some result, final) ->
  wfGrid final /\
  NoDup (flat_map pieceCells result) /\
  (forall c, In c (flat_map pieceCells result) ->
             inGrid c = true /\ cellAt grid c = false) /\
  (forall d, inGrid d = true ->
             cellAt final d
             = cellAt grid d || existsb (Coordinate_eqb d) (flat_map pieceCells result)) /\
  exists rest,
    ids = map id result ++ rest /\
    (rest = [] \/ forall d, inGrid d = true -> cellAt final d = true).
Proof.
  intros Hbuilt Hwf Hsolve.
  pose proof (solveRecursively_inv table ids grid Hwf) as Hinv.
  rewrite Hsolve in Hinv. destruct Hinv as (steps & Hpath & Hsteps).
  pose proof (searchPath_steps table Hbuilt _ _ _ _ Hpath) as Hok.
  destruct (searchPath_cells table _ _ _ _ Hpath Hok Hwf) as (Hwff & Hfinal & Hfree & Hnd).
  destruct (searchPath_ids table _ _ _ _ Hpath) as (rest & Eids & Hrest).
  pose proof (stepOk_replay steps Hok) as Hreplay. rewrite Hsteps in Hreplay.
  split; [exact Hwff|]. split; [|split; [|split]].
  - apply (Permutation_NoDup (Permutation_sym Hreplay)). exact Hnd.
  - intros c Hc. apply Hfree. apply (Permutation_in c Hreplay Hc).
  - intros d Hd. rewrite (Hfinal d Hd). f_equal.
    apply existsb_Coordinate_perm. apply Permutation_sym. exact Hreplay.
  - exists rest. split.
    + rewrite Eids, <- Hsteps, map_map. reflexivity.
    + destruct Hrest as [E|Hfull]; [left; exact E|right].
      apply findEmpty_none; assumption.
Qed.

Lemma solveRecursively_sound_witness :
  NoDup (flat_map pieceCells [mkPlacedPiece "A" 2 1 0 false (Some true);
                              mkPlacedPiece "D" 4 1 0 false (Some true)]) /\
  exists rest,
    ["A"; "D"]%string
    = map id [mkPlacedPiece "A" 2 1 0 false (Some true);
              mkPlacedPiece "D" 4 1 0 false (Some true)] ++ rest.
Proof.
  assert (Hwf : wfGrid
            [[true; true; true; true; true; true; true; true; true; true; true];
             [true; true; false; false; false; false; false; false; false; false; false];
             [false; false; false; false; false; false; false; false; false; false; false];
             [false; false; false; false; false; false; false; false; false; false; false];
             [false; false; false; false; false; false; false; false; false; false; false]]).
  { split; [reflexivity|]. repeat constructor. }
  destruct (solveRecursively_sound tableInOrder
              [[true; true; true; true; true; true; true; true; true; true; true];
               [true; true; false; false; false; false; false; false; false; false; false];
               [false; false; false; false; false; false; false; false; false; false; false];
               [false; false; false; false; false; false; false; false; false; false; false];
               [false; false; false; false; false; false; false; false; false; false; false]]
              [[true; true; true; true; true; true; true; true; true; true; true];
               [true; true; true; true; true; true; true; true; false; false; false];
               [false; false; true; true; true; false; false; false; false; false; false];
               [false; false; true; false; false; false; false; false; false; false; false];
               [false; false; false; false; false; false; false; false; false; false; false]]
              ["A"; "D"]%string
              [mkPlacedPiece "A" 2 1 0 false (Some true);
               mkPlacedPiece "D" 4 1 0 false (Some true)]
              tableInOrder_built Hwf) as (_ & Hnd & _ & _ & rest & E & _).
  - vm_compute. reflexivity.
  - split; [exact Hnd|]. exists rest. exact E.
Defined.

Lemma normalizeCoords_head (l n : list Coordinate) :
  normalizeCoords l = Returns n -> exists rest, n = pt 0 0 :: rest.
Proof.
  rewrite normalizeCoords_sorted_form.
  destruct (sortYX l) as [|first rest]; [discriminate|].
  intros H. injection H as <-. eexists. cbn [map]. f_equal.
  unfold translate, pt. f_equal; lia.
Qed.

(** X15: the first piece of a solution covers the cell that the scan
    selected: with a built table, the first returned record carries the first
    id of the list and its replayed cells include the selected empty cell. *)
Theorem solveRecursively_first_piece
    (table : VariationTable) (grid final : Grid) (ids : list string)
    (piece : PlacedPiece) (result : list PlacedPiece) :
  builtTable table -> wfGrid grid ->
  solveRecursively table grid ids = Returns (Some (piece :: result), final) ->
  exists emptyX emptyY restIds,
    findEmpty grid = Returns (Some (emptyX, emptyY)) /\
    ids = id piece :: restIds /\
    In (pt emptyX emptyY) (pieceCells piece).
Proof.
  intros Hbuilt Hwf Hsolve.
  pose proof (solveRecursively_inv table ids grid Hwf) as Hinv.
  rewrite Hsolve in Hinv. destruct Hinv as (steps & Hpath & Hsteps).
  destruct Hpath as [grid|grid ids Hfull|grid pieceId restIds emptyX emptyY variations v
                     placed piece' steps final Hempty Htable Hv Hfits Hmark Hrec Hpath];
    try discriminate Hsteps.
  simpl in Hsteps. injection Hsteps as -> Hsteps.
  exists emptyX, emptyY, restIds. split; [exact Hempty|].
  destruct (builtTable_variation table Hbuilt pieceId variations v Htable Hv)
    as (def & _ & Eid & Hok).
  destruct (variationOkb_facts def v Hok) as (Hnorm & _). rewrite Eid in Hnorm.
  destruct (placedRecord_replay pieceId emptyX emptyY v piece Hnorm Hrec)
    as (Hid & _ & _ & _ & Hperm).
  split; [rewrite Hid; reflexivity|].
  apply (Permutation_in _ (Permutation_sym Hperm)).
  destruct (normalizeCoords_head _ _ Hnorm) as (rest & E). rewrite E.
  left. unfold translate, pt. simpl. f_equal; lia.
Qed.

Lemma solveRecursively_first_piece_witness :
  exists emptyX emptyY restIds,
    findEmpty emptyGrid = Returns (Some (emptyX, emptyY)) /\
    solvableOrder = "L"%string :: restIds /\
    In (pt emptyX emptyY) [pt 0 0; pt 1 0; pt 0 1].
Proof.
  apply (solveRecursively_first_piece tableInOrder emptyGrid fullGrid solvableOrder
           (mkPlacedPiece "L" 0 0 0 false (Some true)) (tl exampleSolution)
           tableInOrder_built emptyGrid_wf).
  vm_compute. reflexivity.
Defined.

(** * The board built from the placed pieces *)

Lemma wfBoard_row (board : Board) (row : nat) :
  wfBoard board -> (row < Z.to_nat GRID_ROWS)%nat ->
  nth_error board row = Some (nth row board []) /\
  List.length (nth row board []) = Z.to_nat GRID_COLS.
Proof.
  intros [Hrows Hcols] Hr.
  assert (E : nth_error board row = Some (nth row board [])).
  { apply nth_error_nth'. lia. }
  split; [exact E|].
  rewrite Forall_forall in Hcols. apply Hcols.
  apply nth_error_In with (n := row). exact E.
Qed.

Lemma setBoardCell_wf (board : Board) (c : Coordinate) (v : option string) :
  wfBoard board -> inGrid c = true ->
  wfBoard (setBoardCell board c v) /\
  forall d, inGrid d = true ->
            boardCell (setBoardCell board c v) d
            = if Coordinate_eqb d c then v else boardCell board d.
Proof.
  intros Hwf Hc. pose proof Hc as Hb. apply inGrid_bounds in Hb.
  destruct (wfBoard_row board (Z.to_nat (y c)) Hwf) as [E Hlen]; [lia|].
  destruct Hwf as [Hrows Hcols]. unfold setBoardCell. split.
  - split.
    + rewrite arraySet_length; [exact Hrows|lia].
    + apply arraySet_Forall; [lia|exact Hcols|].
      rewrite arraySet_length; [exact Hlen|lia].
  - intros d Hd. unfold boardCell.
    rewrite <- (coordinate_nat_eq c d Hc Hd).
    rewrite arraySet_nth; [|lia].
    destruct (Nat.eqb_spec (Z.to_nat (y d)) (Z.to_nat (y c))) as [Ey|Ey]; simpl.
    + rewrite arraySet_nth; [|lia]. rewrite Ey. reflexivity.
    + reflexivity.
Qed.

(** Writing the cells of one piece. *)
Lemma paint_wf (v : option string) (cells : list Coordinate) :
  forall board, wfBoard board ->
    wfBoard (fold_left (fun grid c => if inGrid c then setBoardCell grid c v else grid)
                       cells board) /\
    forall d, inGrid d = true ->
      boardCell (fold_left (fun grid c => if inGrid c then setBoardCell grid c v else grid)
                           cells board) d
      = if existsb (Coordinate_eqb d) cells then v else boardCell board d.
Proof.
  induction cells as [|c rest IH]; intros board Hwf.
  - split; [exact Hwf|]. intros d _. reflexivity.
  - cbn [fold_left existsb]. destruct (inGrid c) eqn:Ec.
    + destruct (setBoardCell_wf board c v Hwf Ec) as [Hwf1 Hget1].
      destruct (IH _ Hwf1) as [Hwf2 Hget2]. split; [exact Hwf2|].
      intros d Hd. rewrite (Hget2 d Hd), (Hget1 d Hd).
      destruct (existsb (Coordinate_eqb d) rest), (Coordinate_eqb d c); reflexivity.
    + destruct (IH _ Hwf) as [Hwf2 Hget2]. split; [exact Hwf2|].
      intros d Hd. rewrite (Hget2 d Hd).
      destruct (Coordinate_eqb d c) eqn:E; [|reflexivity].
      apply Coordinate_eqb_eq in E. subst d. congruence.
Qed.

Lemma paintAll_wf (placed : list PlacedPiece) :
  forall board, wfBoard board ->
    wfBoard (fold_left
               (fun grid piece =>
                  fold_left (fun grid c => if inGrid c
                                           then setBoardCell grid c (Some (id piece))
                                           else grid)
                            (pieceCells piece) grid)
               placed board) /\
    forall d, inGrid d = true ->
      boardCell (fold_left
                   (fun grid piece =>
                      fold_left (fun grid c => if inGrid c
                                               then setBoardCell grid c (Some (id piece))
                                               else grid)
                                (pieceCells piece) grid)
                   placed board) d
      = fold_left (fun acc piece => if covers piece d then Some (id piece) else acc)
                  placed (boardCell board d).
Proof.
  induction placed as [|p rest IH]; intros board Hwf.
  - split; [exact Hwf|]. intros d _. reflexivity.
  - cbn [fold_left].
    destruct (paint_wf (Some (id p)) (pieceCells p) board Hwf) as [Hwf1 Hget1].
    destruct (IH _ Hwf1) as [Hwf2 Hget2]. split; [exact Hwf2|].
    intros d Hd. rewrite (Hget2 d Hd), (Hget1 d Hd). reflexivity.
Qed.

Lemma emptyBoard_wf : wfBoard emptyBoard.
Proof. split; [reflexivity|]. vm_compute. repeat constructor. Qed.

Lemma emptyBoard_cell (d : Coordinate) : inGrid d = true -> boardCell emptyBoard d = None.
Proof.
  intros Hd. apply gridCells_In in Hd.
  assert (H : forallb (fun c => match boardCell emptyBoard c with None => true | _ => false end)
                      gridCells = true) by (vm_compute; reflexivity).
  rewrite forallb_forall in H. specialize (H d Hd).
  destruct (boardCell emptyBoard d); [discriminate H|reflexivity].
Qed.

Lemma covers_In (piece : PlacedPiece) (c : Coordinate) :
  covers piece c = true <-> In c (pieceCells piece).
Proof. apply existsb_Coordinate_In. Qed.

Lemma lastCovering_none (placed : list PlacedPiece) (d : Coordinate) :
  (forall p, In p placed -> ~ In d (pieceCells p)) ->
  forall acc,
    fold_left (fun acc piece => if covers piece d then Some (id piece) else acc) placed acc
    = acc.
Proof.
  induction placed as [|p rest IH]; intros Hnone acc; [reflexivity|].
  cbn [fold_left]. destruct (covers p d) eqn:E.
  - apply covers_In in E. exfalso. apply (Hnone p); [left; reflexivity|exact E].
  - apply IH. intros q Hq. apply Hnone. right. exact Hq.
Qed.

Lemma getBoardGrid_cells (placed : list PlacedPiece) :
  wfBoard (getBoardGrid placed) /\
  forall d, inGrid d = true ->
    boardCell (getBoardGrid placed) d
    = fold_left (fun acc piece => if covers piece d then Some (id piece) else acc)
                placed None.
Proof.
  unfold getBoardGrid. cbv zeta.
  destruct (paintAll_wf placed emptyBoard emptyBoard_wf) as [Hwf Hget].
  split; [exact Hwf|]. intros d Hd.
  change (repeat (repeat None (Z.to_nat GRID_COLS)) (Z.to_nat GRID_ROWS)) with emptyBoard.
  rewrite (Hget d Hd), (emptyBoard_cell d Hd). reflexivity.
Qed.

Lemma getBoardGrid_last_cell
    (before after : list PlacedPiece) (piece : PlacedPiece) (d : Coordinate) :
  inGrid d = true ->
  In d (pieceCells piece) ->
  (forall q, In q after -> ~ In d (pieceCells q)) ->
  boardCell (getBoardGrid (before ++ piece :: after)) d = Some (id piece).
Proof.
  intros Hd Hcov Hafter.
  destruct (getBoardGrid_cells (before ++ piece :: after)) as [_ Hget].
  rewrite (Hget d Hd), fold_left_app. cbn [fold_left].
  apply covers_In in Hcov. rewrite Hcov.
  apply lastCovering_none. exact Hafter.
Qed.

(** X16: [getBoardGrid] always returns 5 rows of 11 cells, whatever pieces
    it is given.  A cell of the grid that no piece covers holds [null]; a
    cell that pieces cover holds the id of the last piece in the list that
    covers it. *)
Theorem getBoardGrid_last_writer
    (before after : list PlacedPiece) (piece : PlacedPiece) (d : Coordinate) :
  inGrid d = true ->
  In d (pieceCells piece) ->
  (forall q, In q after -> ~ In d (pieceCells q)) ->
  wfBoard (getBoardGrid (before ++ piece :: after)) /\
  boardCell (getBoardGrid (before ++ piece :: after)) d = Some (id piece) /\
  forall placed,
    wfBoard (getBoardGrid placed) /\
    ((forall q, In q placed -> ~ In d (pieceCells q)) ->
     boardCell (getBoardGrid placed) d = None).
Proof.
  intros Hd Hcov Hafter. split; [apply getBoardGrid_cells|]. split.
  - apply getBoardGrid_last_cell; assumption.
  - intros placed. destruct (getBoardGrid_cells placed) as [Hwf Hget].
    split; [exact Hwf|]. intros Hnone. rewrite (Hget d Hd).
    apply lastCovering_none. exact Hnone.
Qed.

Lemma getBoardGrid_last_writer_witness :
  boardCell (getBoardGrid [mkPlacedPiece "L" 1 1 0 false None;
                           mkPlacedPiece "J" 1 1 0 false None;
                           mkPlacedPiece "Q" 1 1 0 false None;
                           mkPlacedPiece "K" 5 3 0 false None]) (pt 2 1)
  = Some "J"%string.
Proof.
  destruct (getBoardGrid_last_writer
              [mkPlacedPiece "L" 1 1 0 false None]
              [mkPlacedPiece "Q" 1 1 0 false None; mkPlacedPiece "K" 5 3 0 false None]
              (mkPlacedPiece "J" 1 1 0 false None) (pt 2 1)) as (_ & H & _).
  - reflexivity.
  - simpl. right. left. reflexivity.
  - intros q Hq Hin. simpl in Hq. destruct Hq as [<-|[<-|[]]].
    + vm_compute in Hin. exact Hin.
    + vm_compute in Hin.
      repeat (destruct Hin as [Hin|Hin]; [discriminate Hin|]). exact Hin.
  - exact H.
Defined.

Lemma offGrid_inGrid (c : Coordinate) : ~ offGrid c <-> inGrid c = true.
Proof.
  rewrite <- outOfGrid_true, inGrid_outOfGrid.
  destruct (inGrid c); simpl; split; congruence.
Qed.

Lemma occupied_boardCell (board : Board) (c : Coordinate) :
  wfBoard board -> inGrid c = true ->
  (occupied board c <-> boardCell board c <> None).
Proof.
  intros Hwf Hc. pose proof Hc as Hb. apply offGrid_inGrid in Hb.
  destruct (wfBoard_cell board c Hwf Hb) as (row & cell & Erow & Ecell).
  unfold occupied, boardCell.
  rewrite (nth_error_nth _ _ [] Erow), (nth_error_nth _ _ None Ecell).
  split.
  - intros (row' & s & Erow' & Ecell'). congruence.
  - intros Hne. destruct cell as [s|]; [|congruence].
    exists row, s. split; assumption.
Qed.

Lemma lastCovering_null_iff (placed : list PlacedPiece) (d : Coordinate) :
  forall acc,
    fold_left (fun acc piece => if covers piece d then Some (id piece) else acc) placed acc
    = None
    <-> acc = None /\ ~ In d (flat_map pieceCells placed).
Proof.
  induction placed as [|p rest IH]; intros acc.
  - simpl. tauto.
  - cbn [fold_left flat_map]. rewrite IH, in_app_iff. destruct (covers p d) eqn:E.
    + apply covers_In in E. split; [intros [H _]; discriminate H|tauto].
    + assert (Hn : ~ In d (pieceCells p)).
      { intros H. apply covers_In in H. congruence. }
      tauto.
Qed.

Lemma getBoardGrid_occupied (placed : list PlacedPiece) (d : Coordinate) :
  inGrid d = true ->
  (occupied (getBoardGrid placed) d <-> In d (flat_map pieceCells placed)).
Proof.
  intros Hd. destruct (getBoardGrid_cells placed) as [Hwf Hget].
  rewrite (occupied_boardCell _ d Hwf Hd), (Hget d Hd).
  pose proof (lastCovering_null_iff placed d None) as H.
  destruct (in_dec Coordinate_eq_dec d (flat_map pieceCells placed)) as [Hin|Hout].
  - split; [intros _; exact Hin|]. intros _ E. apply H in E. tauto.
  - split; [|contradiction]. intros Hne. exfalso. apply Hne. apply H. tauto.
Qed.

Lemma isValidPlacement_getBoardGrid (pieceId : string) (gridX gridY rotation : Z)
    (isFlipped : bool) (placed : list PlacedPiece) :
  (isValidPlacement pieceId gridX gridY rotation isFlipped (Some (getBoardGrid placed))
   = Returns true /\
   forall c, In c (targetCells pieceId gridX gridY rotation isFlipped) ->
             inGrid c = true /\ ~ In c (flat_map pieceCells placed))
  \/
  (isValidPlacement pieceId gridX gridY rotation isFlipped (Some (getBoardGrid placed))
   = Returns false /\
   exists c, In c (targetCells pieceId gridX gridY rotation isFlipped) /\
             (inGrid c = false \/ In c (flat_map pieceCells placed))).
Proof.
  destruct (getBoardGrid_cells placed) as [Hwf _].
  unfold isValidPlacement, targetCells.
  destruct (checkCoords_wf (getBoardGrid placed) gridX gridY
              (getTransformedCoordinates pieceId rotation isFlipped) Hwf)
    as [[E (c & Hc & Hbad)]|[E Hall]].
  - right. split; [exact E|]. exists c. split; [exact Hc|].
    destruct (inGrid c) eqn:Ein; [right|left; reflexivity].
    destruct Hbad as [Hoff|Hocc].
    + apply offGrid_inGrid in Ein. contradiction.
    + apply (getBoardGrid_occupied placed c Ein). exact Hocc.
  - left. split; [exact E|]. intros c Hc. destruct (Hall c Hc) as [Hoff Hocc].
    apply offGrid_inGrid in Hoff. split; [exact Hoff|].
    intros Hin. apply Hocc. apply (getBoardGrid_occupied placed c Hoff). exact Hin.
Qed.

(** X17: validating against the board of the placed pieces.
    [isValidPlacement] on [getBoardGrid placedPieces] never raises; it
    returns true exactly when every cell the placement asks for lies in the
    grid and is a cell of none of the placed pieces. *)
Theorem isValidPlacement_on_board (pieceId : string) (gridX gridY rotation : Z)
    (isFlipped : bool) (placed : list PlacedPiece) :
  exists valid,
    isValidPlacement pieceId gridX gridY rotation isFlipped (Some (getBoardGrid placed))
    = Returns valid /\
    (valid = true <->
     forall c, In c (targetCells pieceId gridX gridY rotation isFlipped) ->
               inGrid c = true /\ ~ In c (flat_map pieceCells placed)).
Proof.
  destruct (isValidPlacement_getBoardGrid pieceId gridX gridY rotation isFlipped placed)
    as [[E Hall]|[E (c & Hc & Hbad)]].
  - exists true. split; [exact E|]. split; [intros _; exact Hall|reflexivity].
  - exists false. split; [exact E|]. split; [discriminate|].
    intros Hall. exfalso. destruct (Hall c Hc) as [Hin Hfree].
    destruct Hbad as [Hoff|Hocc]; [congruence|contradiction].
Qed.

Lemma NoDup_flat_map_later (l1 l2 : list PlacedPiece) (p : PlacedPiece) (d : Coordinate) :
  NoDup (flat_map pieceCells (l1 ++ p :: l2)) ->
  In d (pieceCells p) ->
  forall q, In q l2 -> ~ In d (pieceCells q).
Proof.
  intros Hnd Hd q Hq Hin. rewrite flat_map_app in Hnd.
  apply NoDup_app_remove_l in Hnd. cbn [flat_map] in Hnd.
  apply (NoDup_app_disjoint _ _ d Hnd Hd).
  apply in_flat_map. exists q. split; assumption.
Qed.

(** X18: the board of a generated solution has no empty cell: every cell of
    the grid holds the id of a piece of the solution, the piece whose replayed
    cells contain it. *)
Theorem generateValidBoard_board_full
    (table : VariationTable) (shuffledIds : nat -> list string)
    (stack attempt : nat) (solution : list PlacedPiece) (d : Coordinate) :
  builtTable table ->
  (forall k, Permutation (shuffledIds k) catalogIds) ->
  generateValidBoard table shuffledIds stack attempt = Returns solution ->
  inGrid d = true ->
  exists piece,
    In piece solution /\ In d (pieceCells piece) /\
    boardCell (getBoardGrid solution) d = Some (id piece).
Proof.
  intros Hbuilt Hshuffle H Hd.
  destruct (generateValidBoard_sound table Hbuilt shuffledIds stack attempt solution
              Hshuffle H) as (_ & Hnd & Hcover & _).
  apply Hcover in Hd as Hin. apply in_flat_map in Hin.
  destruct Hin as (piece & Hpiece & Hcell).
  exists piece. split; [exact Hpiece|]. split; [exact Hcell|].
  destruct (in_split piece solution Hpiece) as (l1 & l2 & E). subst solution.
  apply getBoardGrid_last_cell; [exact Hd|exact Hcell|].
  apply (NoDup_flat_map_later l1 l2 piece d Hnd Hcell).
Qed.

Lemma generateValidBoard_board_full_witness :
  exists piece,
    In piece exampleSolution /\ In (pt 7 3) (pieceCells piece) /\
    boardCell (getBoardGrid exampleSolution) (pt 7 3) = Some (id piece).
Proof.
  apply (generateValidBoard_board_full tableInOrder (fun _ => solvableOrder) 1 0
           exampleSolution (pt 7 3) tableInOrder_built (fun _ => solvableOrder_perm)).
  - vm_compute. reflexivity.
  - reflexivity.
Defined.

(** * Levels, continued *)

Lemma Math_round_level (levelNum : Z) :
  Math_round (inject_Z maxLocked
              - (inject_Z (levelNum - 1) / inject_Z 99) * inject_Z (maxLocked - minLocked))%Q
  = (2093 - 14 * levelNum) / 198.
Proof.
  unfold Math_round.
  assert (E : (inject_Z maxLocked
               - (inject_Z (levelNum - 1) / inject_Z 99) * inject_Z (maxLocked - minLocked)
               + (1 # 2) == (2093 - 14 * levelNum) # 198)%Q).
  { unfold Qeq, maxLocked, minLocked. cbn -[Z.mul Z.add Z.sub Z.opp]. lia. }
  rewrite (Qfloor_comp _ _ E). reflexivity.
Qed.

Lemma lockedCount_closed (levelNum : Z) :
  lockedCount levelNum = Z.max 3 (Z.min 10 ((2093 - 14 * levelNum) / 198)).
Proof. unfold lockedCount. cbv zeta. rewrite Math_round_level. reflexivity. Qed.

(** X19: the number of locked pieces of a level is
    [floor ((2093 - 14 * levelNum) / 198)] clamped into 3..10; it never
    grows with the level, is 10 up to level 8 and 3 from level 93 on, and on
    the levels 1..100 of the game the clamp changes nothing. *)
Theorem lockedCount_levels (levelNum : Z) :
  lockedCount levelNum = Z.max 3 (Z.min 10 ((2093 - 14 * levelNum) / 198)) /\
  (forall harder, levelNum <= harder -> lockedCount harder <= lockedCount levelNum) /\
  (lockedCount levelNum = 10 <-> levelNum <= 8) /\
  (lockedCount levelNum = 3 <-> 93 <= levelNum) /\
  (1 <= levelNum <= 100 ->
   lockedCount levelNum
   = Math_round (10 - (inject_Z (levelNum - 1) / 99) * (10 - 3))%Q).
Proof.
  split; [apply lockedCount_closed|].
  split.
  { intros harder Hle. rewrite !lockedCount_closed.
    assert ((2093 - 14 * harder) / 198 <= (2093 - 14 * levelNum) / 198)
      by (apply Z.div_le_mono; lia).
    lia. }
  rewrite lockedCount_closed.
  pose proof (Z.div_mod (2093 - 14 * levelNum) 198 ltac:(lia)) as Hdiv.
  pose proof (Z.mod_pos_bound (2093 - 14 * levelNum) 198 ltac:(lia)) as Hmod.
  split; [lia|]. split; [lia|].
  intros Hlevel.
  change (Math_round (10 - (inject_Z (levelNum - 1) / 99) * (10 - 3))%Q)
    with (Math_round (inject_Z maxLocked
                      - (inject_Z (levelNum - 1) / inject_Z 99)
                        * inject_Z (maxLocked - minLocked))%Q).
  rewrite Math_round_level. lia.
Qed.

Lemma lockedCount_levels_witness :
  lockedCount 50 = Math_round (10 - (inject_Z (50 - 1) / 99) * (10 - 3))%Q /\
  lockedCount 60 <= lockedCount 50.
Proof.
  destruct (lockedCount_levels 50) as (_ & Hmono & _ & _ & Hgame).
  split; [apply Hgame; lia | apply Hmono; lia].
Defined.

Lemma lock_cells (p : PlacedPiece) : pieceCells (lock p) = pieceCells p.
Proof. reflexivity. Qed.

Lemma flat_map_lock (l : list PlacedPiece) :
  flat_map pieceCells (map lock l) = flat_map pieceCells l.
Proof.
  induction l as [|p l IH]; [reflexivity|].
  cbn [map flat_map]. rewrite IH, lock_cells. reflexivity.
Qed.

Lemma map_id_lock (l : list PlacedPiece) : map id (map lock l) = map id l.
Proof. rewrite map_map. apply map_ext. reflexivity. Qed.

Lemma Permutation_flat_map_cells (l l' : list PlacedPiece) :
  Permutation l l' ->
  Permutation (flat_map pieceCells l) (flat_map pieceCells l').
Proof.
  induction 1 as [|p l l' _ IH|p q l|l l' l'' _ IH1 _ IH2]; cbn [flat_map].
  - constructor.
  - apply Permutation_app_head. exact IH.
  - rewrite !app_assoc. apply Permutation_app_tail. apply Permutation_app_comm.
  - exact (Permutation_trans IH1 IH2).
Qed.

(** X20: every generated level can be completed.  The pieces returned by
    [generateLevel] are pieces of the full board it generated, now locked, and
    the pieces it removed complete them: together they use every catalog id
    once and cover every cell of the grid once.  In particular the locked
    pieces have different ids, lie on the grid and do not overlap. *)
Theorem generateLevel_solvable
    (table : VariationTable) (shuffledIds : nat -> list string)
    (shuffleSolution : list PlacedPiece -> list PlacedPiece)
    (stack : nat) (levelNum : Z) (puzzleSetup : list PlacedPiece) :
  builtTable table ->
  (forall k, Permutation (shuffledIds k) catalogIds) ->
  (forall l, Permutation (shuffleSolution l) l) ->
  generateLevel table shuffledIds shuffleSolution stack levelNum = Returns puzzleSetup ->
  exists removed,
    Permutation (map id (puzzleSetup ++ removed)) catalogIds /\
    NoDup (flat_map pieceCells (puzzleSetup ++ removed)) /\
    (forall c, In c (flat_map pieceCells (puzzleSetup ++ removed)) <-> inGrid c = true) /\
    NoDup (map id puzzleSetup) /\
    NoDup (flat_map pieceCells puzzleSetup) /\
    (forall c, In c (flat_map pieceCells puzzleSetup) -> inGrid c = true).
Proof.
  intros Hbuilt Hshuffle Hpick H.
  unfold generateLevel in H.
  destruct (generateValidBoard table shuffledIds stack 0) as [fullSolution| |] eqn:Hboard;
    try discriminate.
  injection H as H.
  destruct (generateValidBoard_sound table Hbuilt shuffledIds stack 0 fullSolution
              Hshuffle Hboard) as (Hids & Hnd & Hcover & _).
  pose proof (lockedCount_range levelNum) as Hrange.
  unfold slice0 in H.
  destruct (Z.ltb_spec (lockedCount levelNum) 0) as [Hneg|_]; [lia|].
  set (kept := Z.to_nat (lockedCount levelNum)) in H.
  set (shuffled := shuffleSolution fullSolution) in H.
  assert (Hsplit : Permutation (firstn kept shuffled ++ skipn kept shuffled) fullSolution).
  { rewrite firstn_skipn. apply Hpick. }
  assert (Hall_ids : Permutation (map id (puzzleSetup ++ skipn kept shuffled)) catalogIds).
  { rewrite <- H, map_app, map_id_lock, <- map_app.
    rewrite <- Hids. apply Permutation_map. exact Hsplit. }
  assert (Hall_cells : Permutation (flat_map pieceCells (puzzleSetup ++ skipn kept shuffled))
                                   (flat_map pieceCells fullSolution)).
  { rewrite <- H, flat_map_app, flat_map_lock, <- flat_map_app.
    apply Permutation_flat_map_cells. exact Hsplit. }
  assert (Hall_nd : NoDup (flat_map pieceCells (puzzleSetup ++ skipn kept shuffled))).
  { apply (Permutation_NoDup (Permutation_sym Hall_cells)). exact Hnd. }
  exists (skipn kept shuffled).
  split; [exact Hall_ids|]. split; [exact Hall_nd|].
  split.
  { intros c. rewrite <- Hcover. split; intros Hc.
    - exact (Permutation_in c Hall_cells Hc).
    - exact (Permutation_in c (Permutation_sym Hall_cells) Hc). }
  split.
  { pose proof (Permutation_NoDup (Permutation_sym Hall_ids) catalogIds_NoDup) as Hn.
    rewrite map_app in Hn. exact (NoDup_app_remove_r _ _ Hn). }
  split.
  { rewrite flat_map_app in Hall_nd. exact (NoDup_app_remove_r _ _ Hall_nd). }
  intros c Hc. apply Hcover. apply (Permutation_in c Hall_cells).
  rewrite flat_map_app. apply in_or_app. left. exact Hc.
Qed.

Lemma generateLevel_solvable_witness :
  exists puzzleSetup removed,
    generateLevel tableInOrder (fun _ => solvableOrder) (fun l => rev l) 1 42
    = Returns puzzleSetup /\
    Permutation (map id (puzzleSetup ++ removed)) catalogIds /\
    NoDup (flat_map pieceCells puzzleSetup).
Proof.
  eexists.
  assert (H : generateLevel tableInOrder (fun _ => solvableOrder) (fun l => rev l) 1 42
              = Returns (map lock (slice0 (rev exampleSolution) (lockedCount 42)))).
  { vm_compute. reflexivity. }
  destruct (generateLevel_solvable tableInOrder (fun _ => solvableOrder)
              (fun l => rev l) 1 42 _ tableInOrder_built
              (fun _ => solvableOrder_perm)
              (fun l => Permutation_sym (Permutation_rev l)) H)
    as (removed & Hids & _ & _ & _ & Hnd & _).
  exists removed. split; [exact H|]. split; [exact Hids | exact Hnd].
Defined.

(** * The board interaction *)

Lemma rem_wrap (a : Z) :
  (if Z.rem a 360 <? 0 then Z.rem a 360 + 360 else Z.rem a 360) = a mod 360.
Proof.
  pose proof (Z.quot_rem' a 360) as Hqr.
  pose proof (Z.rem_bound_abs a 360 ltac:(lia)) as Habs.
  destruct (Z.ltb_spec (Z.rem a 360) 0) as [Hneg|Hpos].
  - apply (Z.mod_unique a 360 (Z.quot a 360 - 1)); lia.
  - apply (Z.mod_unique a 360 (Z.quot a 360)); lia.
Qed.

(** X21: [rotatePiece] changes only the rotation of the drag, to
    [(rotation + dir) mod 360], which lies in 0..359 also when the wheel
    turns backwards ([dir = -90]); on the rotations 0, 90, 180, 270 a turn by
    90 or -90 gives one of them again and the opposite turn undoes it. *)
Theorem rotatePiece_wraps (dir : Z) (prev : DragState) :
  exists next,
    rotatePiece dir (Some prev) = Some next /\
    next = withRotation prev ((drag_rotation prev + dir) mod 360) /\
    0 <= drag_rotation next < 360 /\
    (In (drag_rotation prev) rotations -> In dir [90; -90] ->
     In (drag_rotation next) rotations /\
     rotatePiece (- dir) (Some next) = Some prev).
Proof.
  eexists. split; [reflexivity|]. cbv zeta. rewrite rem_wrap.
  split; [reflexivity|]. split.
  { cbn [withRotation drag_rotation]. apply Z.mod_pos_bound. lia. }
  intros Hrot Hdir. destruct prev as [pid rot fl cx cy ox oy ai ptr].
  cbn [drag_rotation] in Hrot.
  each_member Hrot ltac:(each_member Hdir ltac:(subst rot dir; split;
                           [vm_compute; tauto | reflexivity])).
Qed.

Lemma rotatePiece_wraps_witness :
  exists next,
    rotatePiece (-90) (Some (mkDragState "L" 0 false 0 0 0 0 0 1)) = Some next /\
    drag_rotation next = 270 /\
    rotatePiece 90 (Some next) = Some (mkDragState "L" 0 false 0 0 0 0 0 1).
Proof.
  destruct (rotatePiece_wraps (-90) (mkDragState "L" 0 false 0 0 0 0 0 1))
    as (next & Hnext & Hform & _ & Hback).
  exists next. split; [exact Hnext|]. split.
  - rewrite Hform. reflexivity.
  - apply Hback; simpl; tauto.
Defined.

Lemma pieceCells_target (p : PlacedPiece) :
  pieceCells p = targetCells (id p) (px p) (py p) (rotation p) (isFlipped p).
Proof. reflexivity. Qed.

Lemma pieceCells_NoDup (p : PlacedPiece) : NoDup (pieceCells p).
Proof.
  rewrite pieceCells_target. unfold targetCells.
  apply translate_NoDup. apply getTransformedCoordinates_NoDup.
Qed.

Lemma legalBoard_nil : legalBoard [].
Proof. split; [constructor|]. split; [constructor|]. intros c []. Qed.

Lemma legalBoard_perm (l l' : list PlacedPiece) :
  Permutation l l' -> legalBoard l -> legalBoard l'.
Proof.
  intros Hperm (Hids & Hnd & Hin). split; [|split].
  - exact (Permutation_NoDup (Permutation_map id Hperm) Hids).
  - exact (Permutation_NoDup (Permutation_flat_map_cells l l' Hperm) Hnd).
  - intros c Hc. apply Hin.
    exact (Permutation_in c (Permutation_sym (Permutation_flat_map_cells l l' Hperm)) Hc).
Qed.

Lemma legalBoard_cons (p : PlacedPiece) (l : list PlacedPiece) :
  legalBoard (p :: l) <->
  legalBoard l /\ ~ In (id p) (map id l) /\
  (forall c, In c (pieceCells p) ->
             inGrid c = true /\ ~ In c (flat_map pieceCells l)).
Proof.
  unfold legalBoard. cbn [map flat_map]. split.
  - intros (Hids & Hnd & Hin). inversion Hids as [|? ? Hnotin Hids']; subst.
    split; [|split].
    + split; [exact Hids'|]. split; [exact (NoDup_app_remove_l _ _ Hnd)|].
      intros c Hc. apply Hin. apply in_or_app. right. exact Hc.
    + exact Hnotin.
    + intros c Hc. split.
      * apply Hin. apply in_or_app. left. exact Hc.
      * exact (NoDup_app_disjoint _ _ c Hnd Hc).
  - intros ((Hids & Hnd & Hin) & Hnotin & Hp). split; [|split].
    + constructor; assumption.
    + apply NoDup_app; [apply pieceCells_NoDup|exact Hnd|].
      intros c Hc. exact (proj2 (Hp c Hc)).
    + intros c Hc. apply in_app_or in Hc. destruct Hc as [Hc|Hc].
      * exact (proj1 (Hp c Hc)).
      * exact (Hin c Hc).
Qed.

Lemma legalBoard_middle (l1 l2 : list PlacedPiece) (p : PlacedPiece) :
  legalBoard (l1 ++ p :: l2) <->
  legalBoard (l1 ++ l2) /\ ~ In (id p) (map id (l1 ++ l2)) /\
  (forall c, In c (pieceCells p) ->
             inGrid c = true /\ ~ In c (flat_map pieceCells (l1 ++ l2))).
Proof.
  rewrite <- legalBoard_cons. split; apply legalBoard_perm.
  - apply Permutation_sym. apply Permutation_middle.
  - apply Permutation_middle.
Qed.


Lemma filter_other_ids (pieceId : string) (l : list PlacedPiece) :
  ~ In pieceId (map id l) ->
  filter (fun x => negb (String.eqb (id x) pieceId)) l = l.
Proof.
  induction l as [|q l IH]; intros H; [reflexivity|].
  cbn [filter]. cbn [map] in H.
  destruct (String.eqb_spec (id q) pieceId) as [E|_].
  - exfalso. apply H. left. exact E.
  - cbn [negb]. rewrite IH; [reflexivity|]. intros Hin. apply H. right. exact Hin.
Qed.


Lemma map_other_ids (pieceId : string) (f : PlacedPiece -> PlacedPiece)
    (l : list PlacedPiece) :
  ~ In pieceId (map id l) ->
  map (fun x => if String.eqb (id x) pieceId then f x else x) l = l.
Proof.
  induction l as [|q l IH]; intros H; [reflexivity|].
  cbn [map] in *.
  destruct (String.eqb_spec (id q) pieceId) as [E|_].
  - exfalso. apply H. left. exact E.
  - rewrite IH; [reflexivity|]. intros Hin. apply H. right. exact Hin.
Qed.

Lemma legalBoard_split_ids (l1 l2 : list PlacedPiece) (p : PlacedPiece) :
  legalBoard (l1 ++ p :: l2) ->
  ~ In (id p) (map id l1) /\ ~ In (id p) (map id l2).
Proof.
  intros H. apply legalBoard_middle in H. destruct H as (_ & Hid & _).
  rewrite map_app in Hid. split; intros Hin; apply Hid; apply in_or_app; tauto.
Qed.

(** X22: a double click on a placed piece ([handlePlacedRotate]) keeps a
    legal board legal.  It either leaves the pieces as they are, and always
    does for a locked piece, or it replaces the clicked piece, in place, by
    the same piece turned to [(rotation + 90) % 360]; no other piece
    changes. *)
Theorem handlePlacedRotate_legal (placed : list PlacedPiece) (p : PlacedPiece) :
  legalBoard placed -> In p placed ->
  exists placed',
    handlePlacedRotate placed p = Returns placed' /\
    legalBoard placed' /\
    (isLocked p = Some true -> placed' = placed) /\
    (placed' = placed \/
     exists before after,
       placed = before ++ p :: after /\
       placed' = before ++ rotated p (Z.rem (rotation p + 90) 360) :: after).
Proof.
  intros Hlegal Hp. unfold handlePlacedRotate.
  destruct (truthy (isLocked p)) eqn:Hlock.
  { exists placed. split; [reflexivity|]. split; [exact Hlegal|]. tauto. }
  assert (Hunlocked : isLocked p = Some true -> False).
  { intros E. rewrite E in Hlock. discriminate Hlock. }
  destruct (in_split p placed Hp) as (l1 & l2 & ->).
  destruct (legalBoard_split_ids l1 l2 p Hlegal) as [H1 H2].
  assert (Hfilter : filter (fun x => negb (String.eqb (id x) (id p))) (l1 ++ p :: l2)
                    = l1 ++ l2).
  { rewrite filter_app. cbn [filter]. rewrite String.eqb_refl. cbn [negb].
    rewrite !filter_other_ids by assumption. reflexivity. }
  rewrite Hfilter. cbv zeta.
  set (nextRot := Z.rem (rotation p + 90) 360).
  destruct (isValidPlacement_getBoardGrid (id p) (px p) (py p) nextRot (isFlipped p)
              (l1 ++ l2)) as [[E Hfree]|[E _]]; rewrite E.
  - eexists. split; [reflexivity|].
    assert (Hmap : map (fun x => if String.eqb (id x) (id p) then rotated x nextRot else x)
                       (l1 ++ p :: l2)
                   = l1 ++ rotated p nextRot :: l2).
    { rewrite map_app. cbn [map]. rewrite String.eqb_refl.
      rewrite !map_other_ids by assumption. reflexivity. }
    rewrite Hmap. split; [|split].
    + apply legalBoard_middle. apply legalBoard_middle in Hlegal.
      destruct Hlegal as (Hrest & Hid & _).
      split; [exact Hrest|]. split; [exact Hid|exact Hfree].
    + intros Hl. destruct (Hunlocked Hl).
    + right. exists l1, l2. split; reflexivity.
  - exists (l1 ++ p :: l2). split; [reflexivity|]. split; [exact Hlegal|]. tauto.
Qed.

Lemma legalBoardb_sound (placed : list PlacedPiece) :
  legalBoardb placed = true -> legalBoard placed.
Proof.
  unfold legalBoardb. intros H.
  apply andb_prop in H. destruct H as [H Hgrid].
  apply andb_prop in H. destruct H as [Hids Hcells].
  split; [exact (distinctb_NoDup string_dec _ Hids)|].
  split; [exact (distinctb_NoDup Coordinate_eq_dec _ Hcells)|].
  rewrite forallb_forall in Hgrid. exact Hgrid.
Qed.

Lemma handlePlacedRotate_legal_witness :
  exists placed',
    handlePlacedRotate [mkPlacedPiece "L" 1 0 0 false (Some false)]
                       (mkPlacedPiece "L" 1 0 0 false (Some false))
    = Returns placed' /\
    legalBoard placed'.
Proof.
  destruct (handlePlacedRotate_legal [mkPlacedPiece "L" 1 0 0 false (Some false)]
              (mkPlacedPiece "L" 1 0 0 false (Some false)))
    as (placed' & Hret & Hlegal & _).
  - apply legalBoardb_sound. vm_compute. reflexivity.
  - left. reflexivity.
  - exists placed'. split; [exact Hret | exact Hlegal].
Defined.

Lemma insertId_perm (s : string) (l : list string) : Permutation (insertId s l) (s :: l).
Proof.
  induction l as [|h t IH]; [apply Permutation_refl|].
  cbn [insertId]. destruct (localeLe s h); [apply Permutation_refl|].
  apply perm_trans with (h :: s :: t); [apply perm_skip; exact IH | apply perm_swap].
Qed.

Lemma sortIds_perm (l : list string) : Permutation (sortIds l) l.
Proof.
  induction l as [|h t IH]; [constructor|].
  cbn [sortIds fold_right]. apply perm_trans with (h :: sortIds t).
  - apply insertId_perm.
  - apply perm_skip. exact IH.
Qed.

Lemma existsb_eqb_In (s : string) (ids : list string) :
  existsb (String.eqb s) ids = true <-> In s ids.
Proof.
  rewrite existsb_exists. split.
  - intros (t & Ht & E). apply String.eqb_eq in E. subst t. exact Ht.
  - intros H. exists s. split; [exact H | apply String.eqb_refl].
Qed.

Lemma bankPieceIds_In (placed : list PlacedPiece) (drag : option DragState) (s : string) :
  In s (bankPieceIds placed drag) <->
  In s catalogIds /\ ~ In s (map id placed) /\
  (forall d, drag = Some d -> drag_pieceId d <> s).
Proof.
  unfold bankPieceIds. cbv zeta.
  split.
  - intros H. apply (Permutation_in s (sortIds_perm _)) in H.
    apply in_map_iff in H. destruct H as (def & E & Hdef).
    apply filter_In in Hdef. destruct Hdef as [Hdef Hout].
    apply filter_In in Hdef. destruct Hdef as [Hdef _].
    subst s. split; [apply in_map; exact Hdef|].
    apply negb_true_iff in Hout.
    assert (Hnot : ~ In (def_id def)
                     (map id placed ++ match drag with
                                       | Some d => [drag_pieceId d]
                                       | None => []
                                       end)).
    { intros Hin. apply existsb_eqb_In in Hin. rewrite Hin in Hout. discriminate Hout. }
    split.
    + intros Hin. apply Hnot. apply in_or_app. left. exact Hin.
    + intros d -> E. apply Hnot. apply in_or_app. right. left. exact E.
  - intros (Hcat & Hplaced & Hdrag).
    apply (Permutation_in s (Permutation_sym (sortIds_perm _))).
    apply in_map_iff in Hcat. destruct Hcat as (def & E & Hdef).
    apply in_map_iff. exists def. split; [exact E|].
    apply filter_In. split.
    + apply filter_In. split; [exact Hdef|].
      apply existsb_eqb_In. apply in_map. exact Hdef.
    + apply negb_true_iff. destruct (existsb _ _) eqn:Hex; [|reflexivity].
      exfalso. apply existsb_eqb_In in Hex. rewrite E in Hex.
      apply in_app_or in Hex. destruct Hex as [Hin|Hin]; [exact (Hplaced Hin)|].
      destruct drag as [d|]; [|destruct Hin].
      destruct Hin as [Hin|[]]. exact (Hdrag d eq_refl Hin).
Qed.




Lemma getTransformedCoordinates_length (pieceId : string) (rotation : Z) (isFlipped : bool) :
  List.length (getTransformedCoordinates pieceId rotation isFlipped) = sizeOf pieceId.
Proof.
  unfold getTransformedCoordinates, sizeOf.
  destruct (findDef pieceId); [|reflexivity]. rewrite !length_map. reflexivity.
Qed.





Lemma legalBoard_snoc (placed : list PlacedPiece) (p : PlacedPiece) :
  legalBoard placed -> ~ In (id p) (map id placed) ->
  (forall c, In c (pieceCells p) ->
             inGrid c = true /\ ~ In c (flat_map pieceCells placed)) ->
  legalBoard (placed ++ [p]).
Proof.
  intros Hlegal Hid Hfree.
  apply (legalBoard_perm (p :: placed)).
  - change (p :: placed) with ([p] ++ placed). apply Permutation_app_comm.
  - apply legalBoard_cons. split; [exact Hlegal|]. split; assumption.
Qed.

(** X25: releasing the pointer ([handleUp]) keeps a legal board legal,
    provided the preview is the one [handleMove] computed for the piece as it
    is now turned.  The pointer of the drag ends the drag and clears the
    preview; it appends the dragged piece, unlocked, at the preview when the
    preview is marked valid, and otherwise leaves the board as it was. *)
Theorem handleUp_drop (s : AppState) (e : PointerEvent) :
  legalBoard (placedPieces s) -> dragging s ->
  legalBoard (placedPieces (handleUp s e)) /\
  dragging (handleUp s e) /\
  (forall d, dragState s = Some d -> pointerId e = drag_pointerId d ->
     dragState (handleUp s e) = None /\ ghostState (handleUp s e) = None /\
     placedPieces (handleUp s e)
     = match ghostState s with
       | Some g =>
           if ghost_isValid g
           then placedPieces s
                ++ [mkPlacedPiece (drag_pieceId d) (ghost_x g) (ghost_y g)
                                  (drag_rotation d) (drag_isFlipped d) (Some false)]
           else placedPieces s
       | None => placedPieces s
       end).
Proof.
  intros Hlegal Hdrag.
  destruct s as [placed drag ghost]. unfold handleUp.
  cbn [dragState placedPieces ghostState] in *.
  destruct drag as [d|].
  2:{ cbn [placedPieces dragState]. split; [exact Hlegal|]. split; [exact I|].
      intros d E. discriminate E. }
  destruct (pointerId e =? drag_pointerId d) eqn:Hptr; cbn [negb].
  2:{ cbn [placedPieces dragState]. split; [exact Hlegal|]. split; [exact Hdrag|].
      intros d' Ed E. injection Ed as <-. apply Z.eqb_neq in Hptr. contradiction. }
  cbn [placedPieces dragState ghostState].
  split; [|split; [exact I|]].
  - unfold dragging in Hdrag. cbn [dragState placedPieces ghostState] in Hdrag.
    destruct Hdrag as [Hout Hfresh].
    destruct ghost as [g|]; [|exact Hlegal].
    destruct (ghost_isValid g) eqn:Hvalid; [|exact Hlegal].
    apply legalBoard_snoc; [exact Hlegal|exact Hout|].
    exact (Hfresh eq_refl).
  - intros d' E _. injection E as <-. split; [reflexivity|]. split; reflexivity.
Qed.

Lemma handleUp_drop_witness :
  legalBoard
    (placedPieces
       (handleUp (mkAppState [] (Some (mkDragState "I" 0 false 20 20 0 0 0 1))
                             (Some (mkGhostState 0 0 true)))
                 (mkPointerEvent 20 20 1))) /\
  placedPieces
    (handleUp (mkAppState [] (Some (mkDragState "I" 0 false 20 20 0 0 0 1))
                          (Some (mkGhostState 0 0 true)))
              (mkPointerEvent 20 20 1))
  = [mkPlacedPiece "I" 0 0 0 false (Some false)].
Proof.
  destruct (handleUp_drop (mkAppState [] (Some (mkDragState "I" 0 false 20 20 0 0 0 1))
                                      (Some (mkGhostState 0 0 true)))
              (mkPointerEvent 20 20 1)) as (Hlegal & _ & _).
  - apply legalBoardb_sound. reflexivity.
  - split; [intros []|]. intros _ c Hc. split; [|intros []].
    cbn in Hc. decompose [or] Hc; try contradiction; subst c; reflexivity.
  - split; [exact Hlegal | reflexivity].
Defined.

(** X26: [handleUp] trusts the preview and does not check the placement
    again.  A turn of the dragged piece ([rotatePiece]) leaves the preview of
    the last move in place, marked valid for the piece as it was turned
    before; releasing the pointer then appends the turned piece at the old
    position.  Piece I previewed at (0, 0) on the empty board, turned by 90
    and released, is placed with a cell at x = -1, off the grid. *)
Theorem handleUp_trusts_preview :
  exists (s moved : AppState) (e : PointerEvent) (rect : DOMRect),
    legalBoard (placedPieces s) /\ dragging s /\
    handleMove false 40 (Some rect) s e = Returns moved /\
    dragging moved /\
    ~ dragging (mkAppState (placedPieces moved) (rotatePiece 90 (dragState moved))
                           (ghostState moved)) /\
    ~ legalBoard
        (placedPieces
           (handleUp (mkAppState (placedPieces moved) (rotatePiece 90 (dragState moved))
                                 (ghostState moved)) e)).
Proof.
  exists (mkAppState [] (Some (mkDragState "I" 0 false 0 0 0 0 0 1)) None).
  exists (mkAppState [] (Some (mkDragState "I" 0 false 20 20 0 0 0 1))
                     (Some (mkGhostState 0 0 true))).
  exists (mkPointerEvent 20 20 1), (mkDOMRect 0 450 0 204).
  split; [exact legalBoard_nil|].
  split; [split; [intros []|exact I]|].
  split; [vm_compute; reflexivity|].
  split.
  { split; [intros []|]. intros _ c Hc. split; [|intros []].
    cbn in Hc. decompose [or] Hc; try contradiction; subst c; reflexivity. }
  split.
  - intros [_ Hfresh]. cbn in Hfresh.
    destruct (Hfresh eq_refl (pt (-1) 0)) as [Hgrid _]; [tauto|].
    discriminate Hgrid.
  - intros (_ & _ & Hgrid).
    assert (H : inGrid (pt (-1) 0) = true).
    { apply Hgrid. cbn. tauto. }
    discriminate H.
Qed.

Lemma NoDup_map_filter {A B : Type} (f : A -> B) (g : A -> bool) (l : list A) :
  NoDup (map f l) -> NoDup (map f (filter g l)).
Proof.
  induction l as [|a l IH]; intros H; [constructor|].
  cbn [map] in H. inversion H as [|? ? Hnotin Hnd]; subst.
  cbn [filter]. destruct (g a); [|exact (IH Hnd)].
  cbn [map]. constructor; [|exact (IH Hnd)].
  intros Hin. apply Hnotin. apply in_map_iff in Hin. destruct Hin as (b & E & Hb).
  apply filter_In in Hb. apply in_map_iff. exists b. tauto.
Qed.

Lemma totalSize_app (a b : list string) :
  totalSize (a ++ b) = (totalSize a + totalSize b)%nat.
Proof. unfold totalSize. rewrite map_app, list_sum_app. reflexivity. Qed.

Lemma totalSize_incl (a b : list string) :
  NoDup a -> incl a b -> (totalSize a <= totalSize b)%nat.
Proof.
  revert b. induction a as [|h t IH]; intros b Hnd Hincl; [cbn; lia|].
  inversion Hnd as [|? ? Hnotin Hnd']; subst.
  destruct (in_split h b (Hincl h (or_introl eq_refl))) as (b1 & b2 & ->).
  assert (Hrest : incl t (b1 ++ b2)).
  { intros s Hs. pose proof (Hincl s (or_intror Hs)) as Hin.
    apply in_app_or in Hin. apply in_or_app.
    destruct Hin as [Hin|[E|Hin]]; [tauto| |tauto].
    subst s. contradiction. }
  specialize (IH (b1 ++ b2) Hnd' Hrest).
  rewrite totalSize_app in *. unfold totalSize, list_sum in *.
  cbn [map fold_right] in *. lia.
Qed.

Lemma cells_length (placed : list PlacedPiece) :
  List.length (flat_map pieceCells placed) = totalSize (map id placed).
Proof.
  induction placed as [|p l IH]; [reflexivity|].
  cbn [flat_map map]. rewrite length_app, IH.
  unfold pieceCells at 1. rewrite length_map, getTransformedCoordinates_length.
  reflexivity.
Qed.

Lemma totalSize_off_catalog (l : list string) :
  (forall s, In s l -> ~ In s catalogIds) -> totalSize l = 0%nat.
Proof.
  induction l as [|s l IH]; intros H; [reflexivity|].
  change (totalSize (s :: l)) with (sizeOf s + totalSize l)%nat.
  rewrite IH by (intros t Ht; apply H; right; exact Ht).
  unfold sizeOf. rewrite (findDef_unknown s (H s (or_introl eq_refl))). reflexivity.
Qed.

Lemma totalSize_filter (f : string -> bool) (l : list string) :
  (totalSize l = totalSize (filter f l) + totalSize (filter (fun s => negb (f s)) l))%nat.
Proof.
  induction l as [|s l IH]; [reflexivity|].
  cbn [filter].
  destruct (f s); cbn [negb];
    repeat match goal with
           | |- context [totalSize (?a :: ?r)] =>
               change (totalSize (a :: r)) with (sizeOf a + totalSize r)%nat
           end; lia.
Qed.

Lemma forallb_false {A : Type} (f : A -> bool) (l : list A) :
  forallb f l = false -> exists a, In a l /\ f a = false.
Proof.
  induction l as [|a l IH]; intros H; [discriminate H|].
  cbn [forallb] in H. destruct (f a) eqn:E.
  - destruct (IH H) as (b & Hb & Eb). exists b. split; [right; exact Hb|exact Eb].
  - exists a. split; [left; reflexivity|exact E].
Qed.

Lemma totalSize_remove (s : string) :
  In s catalogIds ->
  (totalSize (filter (fun t => negb (String.eqb t s)) catalogIds) + sizeOf s = 55)%nat.
Proof.
  intros H. unfold catalogIds in H. cbn [map PIECE_DEFINITIONS def_id] in H.
  each_member H ltac:(subst s; reflexivity).
Qed.

(** X27: the inventory ([bankPieceIds]) lists, each once, exactly the catalog
    ids that are neither placed nor being dragged.  The completion message is
    rendered when the inventory is empty and nothing is loading.  On a legal
    board with nothing dragged that means that every cell of the grid is
    covered.  But a dragged piece counts as placed: while the last piece is
    dragged, not yet on the board, the message is rendered although a cell of
    the grid is still free. *)
Theorem bankPieceIds_complete (placed : list PlacedPiece) (drag : option DragState) :
  NoDup (bankPieceIds placed drag) /\
  (forall s, In s (bankPieceIds placed drag) <->
             In s catalogIds /\ ~ In s (map id placed) /\
             (forall d, drag = Some d -> drag_pieceId d <> s)) /\
  (legalBoard placed -> completeShown false placed drag = true ->
   match drag with
   | None => forall c, inGrid c = true <-> In c (flat_map pieceCells placed)
   | Some d =>
       (In (drag_pieceId d) (map id placed) \/ ~ In (drag_pieceId d) catalogIds ->
        forall c, inGrid c = true <-> In c (flat_map pieceCells placed)) /\
       (In (drag_pieceId d) catalogIds -> ~ In (drag_pieceId d) (map id placed) ->
        exists c, inGrid c = true /\ ~ In c (flat_map pieceCells placed))
   end).
Proof.
  split; [|split].
  - unfold bankPieceIds. cbv zeta.
    apply (Permutation_NoDup (Permutation_sym (sortIds_perm _))).
    apply NoDup_map_filter. apply NoDup_map_filter. exact catalogIds_NoDup.
  - apply bankPieceIds_In.
  - intros (Hids & Hnd & Hgrid) Hshown.
    unfold completeShown in Hshown. apply andb_prop in Hshown.
    destruct Hshown as [Hempty _]. apply Nat.eqb_eq in Hempty.
    apply length_zero_iff_nil in Hempty.
    assert (Hfull : incl catalogIds (map id placed) ->
                    forall c, inGrid c = true <-> In c (flat_map pieceCells placed)).
    { intros Hall c.
      pose proof (totalSize_incl _ _ catalogIds_NoDup Hall) as Hsize.
      rewrite totalSize_catalog, <- cells_length in Hsize.
      split; [|apply Hgrid].
      intros Hc. apply gridCells_In in Hc. revert c Hc.
      apply (NoDup_length_incl Hnd).
      + rewrite gridCells_length. exact Hsize.
      + intros c Hc. apply gridCells_In. apply Hgrid. exact Hc. }
    assert (Hin : forall s, In s catalogIds -> ~ In s (map id placed) ->
                            exists d, drag = Some d /\ drag_pieceId d = s).
    { intros s Hs Hout. destruct drag as [d|].
      - destruct (string_dec (drag_pieceId d) s) as [E|Hne]; [exists d; tauto|].
        exfalso.
        assert (Hbank : In s (bankPieceIds placed (Some d))).
        { apply bankPieceIds_In. split; [exact Hs|]. split; [exact Hout|].
          intros d' E. injection E as <-. exact Hne. }
        rewrite Hempty in Hbank. destruct Hbank.
      - exfalso.
        assert (Hbank : In s (bankPieceIds placed None)).
        { apply bankPieceIds_In. split; [exact Hs|]. split; [exact Hout|].
          intros d E. discriminate E. }
        rewrite Hempty in Hbank. destruct Hbank. }
    destruct drag as [d|].
    + split.
      * intros Hcase. apply Hfull. intros s Hs.
        destruct (in_dec string_dec s (map id placed)) as [Hon|Hout]; [exact Hon|].
        exfalso. destruct (Hin s Hs Hout) as (d' & E & Es). injection E as <-.
        subst s. destruct Hcase as [Hon|Hoff]; [exact (Hout Hon)|exact (Hoff Hs)].
      * intros Hcat Hout.
        set (onBoard := fun s => existsb (String.eqb s) catalogIds).
        assert (Hcount : (List.length (flat_map pieceCells placed) < 55)%nat).
        { rewrite cells_length, (totalSize_filter onBoard).
          rewrite (totalSize_off_catalog (filter (fun s => negb (onBoard s)) (map id placed))).
          2:{ intros s Hs. apply filter_In in Hs. destruct Hs as [_ Hs].
              apply negb_true_iff in Hs. intros Hc. apply existsb_eqb_In in Hc.
              unfold onBoard in Hs. rewrite Hc in Hs. discriminate Hs. }
          pose proof (totalSize_remove (drag_pieceId d) Hcat) as Hrem.
          pose proof (sizeOf_catalog (drag_pieceId d) Hcat) as Hpos.
          assert (Hle : (totalSize (filter onBoard (map id placed))
                         <= totalSize (filter (fun t => negb (String.eqb t (drag_pieceId d)))
                                              catalogIds))%nat).
          { apply totalSize_incl.
            - apply NoDup_filter. exact Hids.
            - intros s Hs. apply filter_In in Hs. destruct Hs as [Hs Hc].
              apply filter_In. split; [apply existsb_eqb_In; exact Hc|].
              apply negb_true_iff. apply String.eqb_neq. intros E. subst s.
              exact (Hout Hs). }
          lia. }
        destruct (forallb (fun c => existsb (Coordinate_eqb c)
                                            (flat_map pieceCells placed)) gridCells)
          eqn:Hall.
        -- exfalso. rewrite forallb_forall in Hall.
           assert (Hincl : incl gridCells (flat_map pieceCells placed)).
           { intros c Hc. apply existsb_Coordinate_In. apply Hall. exact Hc. }
           pose proof (NoDup_incl_length gridCells_NoDup Hincl) as Hlen.
           rewrite gridCells_length in Hlen. lia.
        -- apply forallb_false in Hall.
           destruct Hall as (c & Hc & Hfree). exists c.
           split; [apply gridCells_In; exact Hc|].
           intros Hon. apply existsb_Coordinate_In in Hon. rewrite Hon in Hfree.
           discriminate Hfree.
    + apply Hfull. intros s Hs.
      destruct (in_dec string_dec s (map id placed)) as [Hon|Hout]; [exact Hon|].
      exfalso. destruct (Hin s Hs Hout) as (d & E & _). discriminate E.
Qed.

Lemma bankPieceIds_complete_witness :
  In (pt 7 3) (flat_map pieceCells exampleSolution) /\
  completeShown false (tl exampleSolution) (Some (mkDragState "L" 0 false 0 0 0 0 0 1))
  = true /\
  exists c, inGrid c = true /\ ~ In c (flat_map pieceCells (tl exampleSolution)).
Proof.
  destruct (bankPieceIds_complete exampleSolution None) as (_ & _ & Hfull).
  destruct (bankPieceIds_complete (tl exampleSolution)
              (Some (mkDragState "L" 0 false 0 0 0 0 0 1))) as (_ & _ & Hdrag).
  split; [|split].
  - apply Hfull.
    + apply legalBoardb_sound. vm_compute. reflexivity.
    + vm_compute. reflexivity.
    + reflexivity.
  - vm_compute. reflexivity.
  - destruct Hdrag as [_ Hfree].
    + apply legalBoardb_sound. vm_compute. reflexivity.
    + vm_compute. reflexivity.
    + apply Hfree.
      * vm_compute. tauto.
      * intros Hon. vm_compute in Hon.
        repeat (destruct Hon as [Hon|Hon]; [discriminate Hon|]). exact Hon.
Defined.

(** X28: a placed piece is drawn on its cells.  The offset that [App] gives
    the box of a placed piece and the offset that [Piece] gives a sphere
    inside the box add up to the pixel origin of the grid cell the sphere
    occupies, [cell * (gridCellSize + GRID_GAP)], with the axes swapped in
    portrait; and every sphere lies inside the box of its piece. *)
Theorem placed_sphere_on_cell (isPortrait : bool) (gridCellSize : Z)
    (p : PlacedPiece) (c : Coordinate) :
  0 <= gridCellSize ->
  In c (getTransformedCoordinates (id p) (rotation p) (isFlipped p)) ->
  let coords := getTransformedCoordinates (id p) (rotation p) (isFlipped p) in
  let box := App_placedBox isPortrait gridCellSize p in
  let sphere := Piece_sphere isPortrait gridCellSize GRID_GAP coords c in
  let size := Piece_box isPortrait gridCellSize GRID_GAP coords in
  let cell := translate (px p) (py p) c in
  In cell (pieceCells p) /\
  fst box + fst sphere
  = (if isPortrait then y cell else x cell) * (gridCellSize + GRID_GAP) /\
  snd box + snd sphere
  = (if isPortrait then x cell else y cell) * (gridCellSize + GRID_GAP) /\
  0 <= fst sphere /\ fst sphere + gridCellSize <= fst size /\
  0 <= snd sphere /\ snd sphere + gridCellSize <= snd size.
Proof.
  intros Hsize Hc. cbv zeta.
  split.
  { unfold pieceCells. apply in_map_iff. exists c. split; [reflexivity|exact Hc]. }
  assert (Hne : getTransformedCoordinates (id p) (rotation p) (isFlipped p) <> []).
  { intros E. rewrite E in Hc. destruct Hc. }
  destruct (getPieceBounds_box _ Hne) as (Hbox & _).
  specialize (Hbox c Hc). cbv zeta in Hbox.
  unfold App_placedBox, Piece_sphere, Piece_box, GRID_GAP. cbv zeta.
  set (b := getPieceBounds
              (Some (getTransformedCoordinates (id p) (rotation p) (isFlipped p)))) in *.
  destruct Hbox as [Hx Hy].
  destruct isPortrait; cbn [fst snd translate x y]; repeat split; nia.
Qed.

Lemma placed_sphere_on_cell_witness :
  fst (App_placedBox false 40 (mkPlacedPiece "G" 3 1 0 false None))
  + fst (Piece_sphere false 40 GRID_GAP (getTransformedCoordinates "G" 0 false) (pt 0 1))
  = 3 * 41.
Proof.
  destruct (placed_sphere_on_cell false 40 (mkPlacedPiece "G" 3 1 0 false None) (pt 0 1))
    as (_ & Hleft & _).
  - lia.
  - cbn. tauto.
  - exact Hleft.
Defined.

Lemma Qfloor_min (a b : Q) : Qfloor (Qmin a b) = Z.min (Qfloor a) (Qfloor b).
Proof.
  destruct (Q.min_spec a b) as [[Hlt E]|[Hle E]]; rewrite (Qfloor_comp _ _ E).
  - pose proof (Qfloor_resp_le a b (Qlt_le_weak _ _ Hlt)). lia.
  - pose proof (Qfloor_resp_le b a Hle). lia.
Qed.

Lemma updateSize_closed (portrait : bool) (containerWidth containerHeight : Z) :
  updateSize portrait containerWidth containerHeight
  = let padding := if containerWidth <? 768 then 24 else 112 in
    let cols := if portrait then 5 else 11 in
    let rows := if portrait then 11 else 5 in
    Z.max 20 (Z.min ((containerWidth - padding - (cols - 1)) / cols)
                    ((containerHeight - padding - (rows - 1)) / rows)).
Proof.
  unfold updateSize, Math_floor. cbv zeta. rewrite Qfloor_min.
  destruct portrait, (containerWidth <? 768);
    unfold GRID_ROWS, GRID_COLS, GRID_GAP, Qfloor, Qdiv, Qmult, Qinv, inject_Z;
    cbn [Qnum Qden Pos.mul];
    rewrite !Z.mul_1_r; reflexivity.
Qed.

(** X29: the cell size chosen by [updateSize] is at least 20.  Whenever a
    board of 20-pixel cells fits the section inside its padding, the board
    drawn with the chosen size ([cols] cells and [cols - 1] gaps across,
    [rows] and [rows - 1] down, swapped in portrait) fits too, and one more
    pixel per cell would not; otherwise the size is 20 and the board
    overflows. *)
Theorem updateSize_fits (portrait : bool) (containerWidth containerHeight : Z) :
  let size := updateSize portrait containerWidth containerHeight in
  let padding := if containerWidth <? 768 then 24 else 112 in
  let cols := if portrait then GRID_ROWS else GRID_COLS in
  let rows := if portrait then GRID_COLS else GRID_ROWS in
  let fits cell :=
    cols * cell + (cols - 1) * GRID_GAP + padding <= containerWidth /\
    rows * cell + (rows - 1) * GRID_GAP + padding <= containerHeight in
  20 <= size /\
  (fits 20 -> fits size /\ ~ fits (size + 1)) /\
  (~ fits 20 -> size = 20).
Proof.
  cbv zeta. rewrite updateSize_closed. cbv zeta.
  unfold GRID_ROWS, GRID_COLS, GRID_GAP.
  destruct portrait, (containerWidth <? 768);
    match goal with
    | |- context [Z.min (?a / ?c) (?b / ?r)] =>
        pose proof (Z.div_mod a c ltac:(lia));
        pose proof (Z.mod_pos_bound a c ltac:(lia));
        pose proof (Z.div_mod b r ltac:(lia));
        pose proof (Z.mod_pos_bound b r ltac:(lia));
        generalize dependent (a / c); generalize dependent (b / r);
        generalize dependent (a mod c); generalize dependent (b mod r)
    end; intros; lia.
Qed.

Lemma updateSize_fits_witness :
  updateSize false 1024 600 = 82 /\
  11 * 82 + 10 + 112 <= 1024 /\ 5 * 82 + 4 + 112 <= 600.
Proof.
  destruct (updateSize_fits false 1024 600) as (_ & Hfit & _).
  assert (E : updateSize false 1024 600 = 82) by (vm_compute; reflexivity).
  rewrite E in Hfit. split; [exact E|].
  destruct Hfit as [H _]; [vm_compute; split; discriminate|].
  exact H.
Defined.

(** X30: the static challenge that [generateChallenge] returns when the
    request fails is not a legal board.  Its three pieces have different ids
    and share no cell, but piece E at (9, 0) turned by 180 has the cell
    (8, -1); [isValidPlacement] rejects that placement on the empty board, and
    [getBoardGrid] shows four of its five cells. *)
Theorem generateChallenge_fallback_off_grid :
  NoDup (map id (generateChallenge None)) /\
  NoDup (flat_map pieceCells (generateChallenge None)) /\
  filter (fun c => negb (inGrid c)) (flat_map pieceCells (generateChallenge None))
  = [pt 8 (-1)] /\
  ~ legalBoard (generateChallenge None) /\
  isValidPlacement "E" 9 0 180 false (Some (getBoardGrid [])) = Returns false /\
  List.length (filter (fun c => match boardCell (getBoardGrid (generateChallenge None)) c with
                                | Some s => String.eqb s "E"
                                | None => false
                                end) gridCells) = 4%nat.
Proof.
  split; [apply (distinctb_NoDup string_dec); reflexivity|].
  split; [apply (distinctb_NoDup Coordinate_eq_dec); vm_compute; reflexivity|].
  split; [vm_compute; reflexivity|].
  split.
  { intros (_ & _ & Hgrid).
    assert (H : inGrid (pt 8 (-1)) = true).
    { apply Hgrid. vm_compute. tauto. }
    discriminate H. }
  split; vm_compute; reflexivity.
Qed.

(** * The level that is returned *)



